(** * Contract annotator core: segmentation, clause injection, matching

    A shallow embedding of the pure text algorithms of [analyzer.py]
    ([split_into_sections], [sections_to_text], [inject_clause_smartly],
    [match_regulation_to_contract]) and of [check_compliance] in [main.py],
    together with the fragment of Python's [str] and [re] they rely on.

    A Python [str] is a sequence of Unicode code points: a [pystr] is a
    list of code points, each an [N].  The whitespace and line-break sets
    are small and are written out; the large Unicode tables ([\d] over
    non-ASCII decimal digits, [str.lower] over non-ASCII text) are taken
    as the record [unicode_tables], so every statement holds whatever
    those tables contain. *)

From Stdlib Require Import Ascii String List NArith ZArith Bool Lia DecimalString DecimalN.
Import ListNotations.

(* ------------------------------------------------------------------ *)
(** ** Python strings *)

Module Py.

Local Open Scope N_scope.

Definition char := N.
Definition pystr := list char.

(** String literals of the source, code point by code point. *)
Fixpoint str (s : string) : pystr :=
  match s with
  | EmptyString => []
  | String a r => N_of_ascii a :: str r
  end.

Definition NL : pystr := [10].

Fixpoint str_eqb (a b : pystr) : bool :=
  match a, b with
  | [], [] => true
  | x :: a', y :: b' => N.eqb x y && str_eqb a' b'
  | _, _ => false
  end.

(** Truthiness of a sequence: empty is false. *)
Definition truthy {A} (l : list A) : bool :=
  match l with [] => false | _ :: _ => true end.

Definition in_range (lo hi c : char) : bool := (N.leb lo c && N.leb c hi)%bool.

(** [str.isspace] on one code point, which is also what [strip], [rstrip]
    and the regex class [\s] test. *)
Definition isspace (c : char) : bool :=
  in_range 9 13 c || in_range 28 31 c || N.eqb c 32
  || N.eqb c 133 || N.eqb c 160 || N.eqb c 5760
  || in_range 8192 8202 c || N.eqb c 8232 || N.eqb c 8233
  || N.eqb c 8239 || N.eqb c 8287 || N.eqb c 12288.

(** The line boundaries of [str.splitlines]. *)
Definition is_linebreak (c : char) : bool :=
  in_range 10 13 c || in_range 28 30 c || N.eqb c 133
  || N.eqb c 8232 || N.eqb c 8233.

Fixpoint dropwhile (p : char -> bool) (s : pystr) : pystr :=
  match s with
  | [] => []
  | c :: s' => if p c then dropwhile p s' else s
  end.

Definition lstrip (s : pystr) : pystr := dropwhile isspace s.
Definition rstrip (s : pystr) : pystr := rev (dropwhile isspace (rev s)).
Definition strip (s : pystr) : pystr := rstrip (lstrip s).

(** [text.splitlines()]: a carriage return followed by a line feed is one
    boundary, and no empty last line is produced after a final boundary. *)
Fixpoint splitlines (s : pystr) : list pystr :=
  match s with
  | [] => []
  | c :: s' =>
      if is_linebreak c then
        [] :: (if N.eqb c 13
               then match s' with
                    | d :: s'' => if N.eqb d 10 then splitlines s'' else splitlines s'
                    | [] => splitlines s'
                    end
               else splitlines s')
      else
        match splitlines s' with
        | [] => [[c]]
        | l :: ls => (c :: l) :: ls
        end
  end.

(** [sep.join(parts)]. *)
Fixpoint join (sep : pystr) (parts : list pystr) : pystr :=
  match parts with
  | [] => []
  | [x] => x
  | x :: rest => x ++ sep ++ join sep rest
  end.

Fixpoint startswith (s p : pystr) {struct p} : bool :=
  match p, s with
  | [], _ => true
  | x :: p', y :: s' => N.eqb x y && startswith s' p'
  | _ :: _, [] => false
  end.

(** [needle in hay] on strings. *)
Fixpoint contains (hay needle : pystr) : bool :=
  startswith hay needle
  || match hay with
     | [] => false
     | _ :: hay' => contains hay' needle
     end.

(** Slices [s[:i]] and [s[i:]], a negative index counting from the end. *)
Definition index_of (s : pystr) (i : Z) : nat :=
  if (0 <=? i)%Z then Z.to_nat i else (length s - Z.to_nat (- i))%nat.
Definition slice_to (s : pystr) (i : Z) : pystr := firstn (index_of s i) s.
Definition slice_from (s : pystr) (i : Z) : pystr := skipn (index_of s i) s.

(** The Unicode data consulted outside ASCII. *)
Record unicode_tables := {
  uni_decimal : char -> bool;   (* category Nd, for code points >= 128 *)
  uni_lower : pystr -> pystr    (* str.lower on text with a non-ASCII code point *)
}.

(** Tables with no non-ASCII digit and no non-ASCII case mapping. *)
Definition ascii_tables : unicode_tables :=
  {| uni_decimal := fun _ => false; uni_lower := fun s => s |}.

Definition is_ascii (c : char) : bool := N.ltb c 128.

Definition ascii_lower (c : char) : char :=
  if in_range 65 90 c then c + 32 else c.

(** [s.lower()]: on ASCII text the letters A-Z move to a-z. *)
Definition lower (U : unicode_tables) (s : pystr) : pystr :=
  if forallb is_ascii s then map ascii_lower s else uni_lower U s.

End Py.

Import Py.

(* ------------------------------------------------------------------ *)
(** ** The fragment of [re] used by the analyzer *)

Module Re.

Local Open Scope N_scope.

(** Sets of one character: [\s], [\d], a literal, a literal under the
    flag [(?i)], and a bracket class given by its ranges. *)
Inductive cset :=
| Space
| Digit
| Chr (c : char)
| ChrI (c : char)
| Class (ranges : list (char * char)).

(** A pattern is a sequence of items: [^], [$], or a character set under
    a repetition [{lo,hi}] ([hi = None]: unbounded). *)
Inductive item :=
| Bol
| Eol
| Rep (lo : nat) (hi : option nat) (cs : cset).

Definition pattern := list item.

Definition One (cs : cset) : item := Rep 1%nat (Some 1%nat) cs.
Definition Star (cs : cset) : item := Rep 0%nat None cs.
Definition Plus (cs : cset) : item := Rep 1%nat None cs.
Definition Opt (cs : cset) : item := Rep 0%nat (Some 1%nat) cs.
Definition AtLeast (n : nat) (cs : cset) : item := Rep n None cs.

(** The letters of a word, each matched ignoring case. *)
Definition ilit (w : string) : pattern := map (fun c => One (ChrI c)) (str w).

Section Matching.

Variable U : unicode_tables.

Definition is_decimal (c : char) : bool :=
  if is_ascii c then in_range 48 57 c else uni_decimal U c.

(** A cased ASCII letter [p] of a pattern under [(?i)] against a code
    point [c].  Outside ASCII only four code points fold onto an ASCII
    letter: U+0130 and U+0131 (i), U+017F (s), U+212A (k). *)
Definition ci_eq (p c : char) : bool :=
  if is_ascii c then N.eqb (ascii_lower c) (ascii_lower p)
  else (N.eqb (ascii_lower p) 105 && (N.eqb c 304 || N.eqb c 305))
       || (N.eqb (ascii_lower p) 115 && N.eqb c 383)
       || (N.eqb (ascii_lower p) 107 && N.eqb c 8490).

Definition in_cset (cs : cset) (c : char) : bool :=
  match cs with
  | Space => isspace c
  | Digit => is_decimal c
  | Chr p => N.eqb c p
  | ChrI p => ci_eq p c
  | Class ranges => existsb (fun r => in_range (fst r) (snd r) c) ranges
  end.

(** [rep_match inb k lo hi prev s]: some number n of leading characters of
    [s], lo <= n <= hi, all in the set, can be consumed so that the rest
    of the pattern [k] matches what follows.  The engine of [re] tries the
    longest run first and backtracks; whether a match exists from a
    position, which is all the callers use, does not depend on the order. *)
Fixpoint rep_match (inb : char -> bool) (k : option char -> pystr -> bool)
    (lo : nat) (hi : option nat) (prev : option char) (s : pystr) {struct s} : bool :=
  (match lo with O => k prev s | S _ => false end)
  || match hi with
     | Some O => false
     | _ =>
         match s with
         | c :: s' =>
             inb c && rep_match inb k (Nat.pred lo) (option_map Nat.pred hi) (Some c) s'
         | [] => false
         end
     end.

Section Flags.

(** [re.MULTILINE]. *)
Variable multiline : bool.

(** [^]: the start of the text, and under MULTILINE also after a line feed.
    [prev] is the character before the position, [None] at the start. *)
Definition at_bol (prev : option char) : bool :=
  match prev with
  | None => true
  | Some c => multiline && N.eqb c 10
  end.

(** [$]: the end of the text or just before a final line feed, and under
    MULTILINE before any line feed. *)
Definition at_eol (s : pystr) : bool :=
  match s with
  | [] => true
  | c :: r => N.eqb c 10 && (multiline || negb (truthy r))
  end.

(** Does the pattern match starting at this position? *)
Fixpoint match_here (p : pattern) : option char -> pystr -> bool :=
  match p with
  | [] => fun _ _ => true
  | Bol :: p' => fun prev s => at_bol prev && match_here p' prev s
  | Eol :: p' => fun prev s => at_eol s && match_here p' prev s
  | Rep lo hi cs :: p' => rep_match (in_cset cs) (match_here p') lo hi
  end.

(** Scan for the leftmost position with a match; [i] is that position's
    offset.  The position at the very end of the text is tried too. *)
Fixpoint search_from (p : pattern) (prev : option char) (s : pystr) (i : nat)
    : option nat :=
  if match_here p prev s then Some i
  else match s with
       | [] => None
       | c :: s' => search_from p (Some c) s' (S i)
       end.

End Flags.

(** [bool(compiled.match(s))] for a pattern compiled without flags. *)
Definition re_match (p : pattern) (s : pystr) : bool :=
  match_here false p None s.

(** [re.search(p, s, re.MULTILINE)]: [None], or [Some] of [match.start()]. *)
Definition re_search_multiline (p : pattern) (s : pystr) : option nat :=
  search_from true p None s 0%nat.

End Matching.

End Re.

Import Re.

(* ------------------------------------------------------------------ *)
(** ** analyzer.py *)

Module Analyzer.

Local Open Scope N_scope.

(** [HEADING_RE = re.compile(r'^[A-Z0-9 \-&(),]{3,}$')] *)
Definition heading_class : cset :=
  Class [(65, 90); (48, 57); (32, 32); (45, 45); (38, 38); (40, 40); (41, 41); (44, 44)].

Definition HEADING_RE : pattern := [Bol; AtLeast 3 heading_class; Eol].

Definition section : Type := pystr * pystr.

Definition Preamble : pystr := str "Preamble".

(** The variables of the loop of [split_into_sections]. *)
Record seg_state := {
  sections : list section;
  current_heading : pystr;
  current_lines : list pystr
}.

(** The eleven anchors of [inject_clause_smartly].  All carry [(?i)] and
    start with [^\s*]. *)

(* (?i)^\s*This\s+is\s+a\s+sample *)
Definition pat_sample : pattern :=
  [Bol; Star Space] ++ ilit "This" ++ [Plus Space] ++ ilit "is" ++ [Plus Space]
    ++ ilit "a" ++ [Plus Space] ++ ilit "sample".

(* (?i)^\s*USER\s+GUIDE *)
Definition pat_user_guide : pattern :=
  [Bol; Star Space] ++ ilit "USER" ++ [Plus Space] ++ ilit "GUIDE".

(* (?i)^\s*\d*\.?\s*TERM\s+AND\s+TERMINATION *)
Definition pat_term : pattern :=
  [Bol; Star Space; Star Digit; Opt (Chr 46); Star Space]
    ++ ilit "TERM" ++ [Plus Space] ++ ilit "AND" ++ [Plus Space] ++ ilit "TERMINATION".

(* (?i)^\s*\d*\.?\s*WARRANTIES *)
Definition pat_warranties : pattern :=
  [Bol; Star Space; Star Digit; Opt (Chr 46); Star Space] ++ ilit "WARRANTIES".

(* (?i)^\s*\d*\.?\s*LIMITATION\s+OF\s+LIABILITY *)
Definition pat_limitation : pattern :=
  [Bol; Star Space; Star Digit; Opt (Chr 46); Star Space]
    ++ ilit "LIMITATION" ++ [Plus Space] ++ ilit "OF" ++ [Plus Space] ++ ilit "LIABILITY".

(* (?i)^\s*\d*\.?\s*GENERAL\s+PROVISIONS *)
Definition pat_provisions : pattern :=
  [Bol; Star Space; Star Digit; Opt (Chr 46); Star Space]
    ++ ilit "GENERAL" ++ [Plus Space] ++ ilit "PROVISIONS".

(* (?i)^\s*\d*\.?\s*INDEMNIFICATION *)
Definition pat_indemnification : pattern :=
  [Bol; Star Space; Star Digit; Opt (Chr 46); Star Space] ++ ilit "INDEMNIFICATION".

(* (?i)^\s*IN\s+WITNESS\s+WHEREOF *)
Definition pat_witness : pattern :=
  [Bol; Star Space] ++ ilit "IN" ++ [Plus Space] ++ ilit "WITNESS" ++ [Plus Space]
    ++ ilit "WHEREOF".

(* (?i)^\s*SIGNATURES? *)
Definition pat_signatures : pattern :=
  [Bol; Star Space] ++ ilit "SIGNATURE" ++ [Opt (ChrI 83)].

(* (?i)^\s*ANNEXES *)
Definition pat_annexes : pattern :=
  [Bol; Star Space] ++ ilit "ANNEXES".

(* (?i)^\s*GENERAL\s+RECOMMENDATIONS *)
Definition pat_recommendations : pattern :=
  [Bol; Star Space] ++ ilit "GENERAL" ++ [Plus Space] ++ ilit "RECOMMENDATIONS".

(** [target_patterns], in the order of the source. *)
Definition target_patterns : list pattern :=
  [ pat_sample; pat_user_guide;
    pat_term; pat_warranties; pat_limitation; pat_provisions; pat_indemnification;
    pat_witness; pat_signatures; pat_annexes; pat_recommendations ].

(** A regulation record is a dictionary; a key may be absent.  Only
    [keywords] is read by the matcher. *)
Record regulation := {
  reg_id : option pystr;
  title : option pystr;
  jurisdiction : option pystr;
  date_published : option pystr;
  summary : option pystr;
  keywords : option (list pystr);
  source_url : option pystr
}.

(** [sections_to_text]: the list [out] after the loop, then the join. *)
Definition text_step (out : list pystr) (sec : section) : list pystr :=
  let '(h, c) := sec in
  let out := if truthy h && negb (str_eqb h Preamble) then out ++ [h] else out in
  let out := if truthy c then out ++ [c] else out in
  out ++ [[]].

Definition sections_to_text (secs : list section) : pystr :=
  strip (join NL (fold_left text_step secs [])).

Section WithTables.

Variable U : unicode_tables.

(** One iteration of [for ln in lines]. *)
Definition seg_step (st : seg_state) (ln : pystr) : seg_state :=
  if str_eqb (strip ln) [] then
    {| sections := sections st;
       current_heading := current_heading st;
       current_lines := current_lines st ++ [[]] |}
  else if re_match U HEADING_RE (strip ln) then
    {| sections :=
         if truthy (current_lines st) || truthy (sections st)
         then sections st
                ++ [(strip (current_heading st), strip (join NL (current_lines st)))]
         else sections st;
       current_heading := strip ln;
       current_lines := [] |}
  else
    {| sections := sections st;
       current_heading := current_heading st;
       current_lines := current_lines st ++ [ln] |}.

Definition seg_init : seg_state :=
  {| sections := []; current_heading := Preamble; current_lines := [] |}.

Definition split_into_sections (text : pystr) : list section :=
  let lines := map rstrip (splitlines text) in
  let st := fold_left seg_step lines seg_init in
  sections st ++ [(strip (current_heading st), strip (join NL (current_lines st)))].

(** The [for pattern in target_patterns] loop with its [break]:
    [insertion_index] keeps its initial value when nothing matches. *)
Fixpoint scan_patterns (ps : list pattern) (text : pystr) (insertion_index : Z) : Z :=
  match ps with
  | [] => insertion_index
  | p :: ps' =>
      match re_search_multiline U p text with
      | Some start => Z.of_nat start
      | None => scan_patterns ps' text insertion_index
      end
  end.

Definition find_insertion_index (original_text : pystr) : Z :=
  scan_patterns target_patterns original_text (-1).

Definition inject_clause_smartly (original_text new_clause_text : pystr) : pystr :=
  let insertion_index := find_insertion_index original_text in
  if negb (Z.eqb insertion_index (-1)) then
    let part_1 := rstrip (slice_to original_text insertion_index) in
    let part_2 := slice_from original_text insertion_index in
    part_1 ++ NL ++ NL ++ new_clause_text ++ NL ++ NL ++ part_2
  else
    original_text ++ NL ++ NL ++ new_clause_text.

(** [match_regulation_to_contract]: the loop appends to [matches]. *)
Definition match_step (text : pystr) (matches : list pystr) (kw : pystr) : list pystr :=
  if contains (lower U text) (lower U kw) then matches ++ [kw] else matches.

Definition match_regulation_to_contract (reg : regulation) (text : pystr)
    : Z * list pystr :=
  let kws := match keywords reg with Some l => l | None => [] end in
  let matches := fold_left (match_step text) kws [] in
  ((Z.of_nat (length matches) * 2)%Z, matches).

End WithTables.

End Analyzer.

Import Analyzer.

(* ------------------------------------------------------------------ *)
(** ** main.py: the rule-based compliance check *)

Module Compliance.

(** A value held in a nested clause: a string, or another object given by
    what [str(v)] returns for it. *)
Inductive pyobj :=
| OStr (s : pystr)
| OOther (shown : pystr).

Definition py_str (v : pyobj) : pystr :=
  match v with OStr s => s | OOther shown => shown end.

(** What a clause name maps to: text, a nested mapping, or anything else. *)
Inductive clause_value :=
| VText (s : pystr)
| VDict (items : list (pystr * pyobj))
| VOther.

(** Dictionaries keep insertion order: lists of pairs. *)
Definition dict (V : Type) : Type := list (pystr * V).

(** [d[k] = v]: replace in place, or add at the end. *)
Fixpoint dict_set {V} (k : pystr) (v : V) (d : dict V) : dict V :=
  match d with
  | [] => [(k, v)]
  | (k', v') :: d' => if str_eqb k k' then (k', v) :: d' else (k', v') :: dict_set k v d'
  end.

Definition MSG_CONSENT : pystr := str "GDPR: Missing user consent for data processing.".
Definition MSG_RETENTION : pystr := str "GDPR: Retention duration not specified.".
Definition MSG_TRANSFER : pystr :=
  str "GDPR: Cross-border data transfer missing protection clause.".
Definition MSG_NOTICE : pystr :=
  str "Indian Contract Act: Missing notice period in termination clause.".
Definition MSG_UNLIMITED : pystr :=
  str "Indian Contract Act: Unlimited liability may be unenforceable.".
Definition MSG_DISPUTE : pystr :=
  str "Indian Contract Act: Missing dispute resolution mechanism.".

(** The text checked for a clause: [None] when the clause is skipped by
    [continue]. *)
Definition clause_text (v : clause_value) : option pystr :=
  match v with
  | VText s => Some s
  | VDict items => Some (join (str " ") (map (fun kv => py_str (snd kv)) items))
  | VOther => None
  end.

(** [w in text_lower] for a literal [w]. *)
Definition has_in (text_lower : pystr) (w : string) : bool :=
  contains text_lower (str w).

Section WithTables.

Variable U : unicode_tables.

(** The six checks on one clause, in order, each appending its message. *)
Definition clause_flags (text : pystr) : list pystr :=
  let text_lower := lower U text in
  let fl := [] in
  let fl := if has_in text_lower "personal data" && negb (has_in text_lower "consent")
            then fl ++ [MSG_CONSENT] else fl in
  let fl := if has_in text_lower "data retention" && negb (has_in text_lower "duration")
            then fl ++ [MSG_RETENTION] else fl in
  let fl := if has_in text_lower "transfer" && has_in text_lower "outside" && negb (has_in text_lower "protection")
            then fl ++ [MSG_TRANSFER] else fl in
  let fl := if has_in text_lower "terminate" && negb (has_in text_lower "notice")
            then fl ++ [MSG_NOTICE] else fl in
  let fl := if has_in text_lower "liability" && has_in text_lower "unlimited"
            then fl ++ [MSG_UNLIMITED] else fl in
  let fl := if has_in text_lower "dispute" && negb (has_in text_lower "arbitration") && negb (has_in text_lower "court")
            then fl ++ [MSG_DISPUTE] else fl in
  fl.

(** One iteration of [for name, text in clauses.items()]. *)
Definition compliance_step (flags : dict (list pystr)) (item : pystr * clause_value)
    : dict (list pystr) :=
  let '(name, v) := item in
  match clause_text v with
  | None => flags
  | Some text =>
      let fl := clause_flags text in
      if truthy fl then dict_set name fl flags else flags
  end.

Definition check_compliance (clauses : dict clause_value) : dict (list pystr) :=
  fold_left compliance_step clauses [].

End WithTables.

End Compliance.

Import Compliance.

(* ------------------------------------------------------------------ *)
(** ** Vocabulary of the specification *)

Module Spec.

Local Open Scope N_scope.

(** [needle] occurs in [hay] as a contiguous run. *)
Definition substring (needle hay : pystr) : Prop :=
  exists a b, hay = a ++ needle ++ b.

(** The characters the specification allows in a heading: uppercase
    letters A-Z, digits 0-9, space, and [-], [&], [(], [)], [,]. *)
Definition heading_char (c : char) : bool :=
  in_range 65 90 c || in_range 48 57 c || N.eqb c 32
  || N.eqb c 45 || N.eqb c 38 || N.eqb c 40 || N.eqb c 41 || N.eqb c 44.

(** A lowercase letter is one of a-z or lies outside ASCII. *)
Definition lowercase_letter (c : char) : bool :=
  in_range 97 122 c || negb (is_ascii c).

(** A keyword occurs in a text ignoring case: its lowered form is a
    substring of the lowered text. *)
Definition occurs_ignoring_case (U : unicode_tables) (kw text : pystr) : Prop :=
  substring (lower U kw) (lower U text).

Definition occurs_ignoring_caseb (U : unicode_tables) (text kw : pystr) : bool :=
  contains (lower U text) (lower U kw).

(** The keywords of a regulation, none when the field is missing. *)
Definition keywords_of (reg : regulation) : list pystr :=
  match keywords reg with Some l => l | None => [] end.

(** The keywords found in a text, in the regulation's order. *)
Definition found_keywords (U : unicode_tables) (reg : regulation) (text : pystr)
    : list pystr :=
  filter (occurs_ignoring_caseb U text) (keywords_of reg).

(** The violations of a clause value: none for a clause that is skipped. *)
Definition violations (U : unicode_tables) (v : clause_value) : list pystr :=
  match clause_text v with
  | Some text => clause_flags U text
  | None => []
  end.

(** A string that neither starts nor ends with whitespace. *)
Definition clean (h : pystr) : Prop :=
  (forall x t, h = x :: t -> isspace x = false)
  /\ (forall t y, h = t ++ [y] -> isspace y = false).


(** The position just before offset [j] of a text, as [match_here] sees
    it: the preceding character and what remains. *)
Definition prev_char (text : pystr) (j : nat) : option char :=
  match j with
  | O => None
  | S j' => nth_error text j'
  end.

(** The pattern matches the text from offset [j] (under MULTILINE). *)
Definition matches_at (U : unicode_tables) (p : pattern) (text : pystr) (j : nat) : bool :=
  match_here U true p (prev_char text j) (skipn j text).

(** Two characters that are equal up to the case of the letters A-Z. *)
Definition same_letter (x y : char) : Prop :=
  x = y
  \/ ((65 <= x <= 90)%N /\ y = (x + 32)%N)
  \/ ((65 <= y <= 90)%N /\ x = (y + 32)%N).

(** A keyword occurs in a text case-insensitively: some run of the text
    agrees with the keyword character by character up to the case of the
    letters.  A run equal to the keyword is such a run. *)
Definition occurs_caseless (kw text : pystr) : Prop :=
  exists a m b, text = a ++ m ++ b /\ Forall2 same_letter kw m.

(** The basic Greek letters, capital and small. *)
Definition greek_cased (c : char) : bool :=
  in_range 913 937 c || in_range 945 969 c.

(** [str.lower] on a string of basic Greek letters: a capital becomes the
    small letter 32 code points up, and capital sigma (931) becomes the
    final small sigma (962) when a letter precedes it and none follows,
    the small sigma (963) otherwise.  [prev] tells whether a letter
    precedes. *)
Fixpoint greek_lower (prev : bool) (s : pystr) : pystr :=
  match s with
  | [] => []
  | c :: r =>
      (if N.eqb c 931 then
         if prev && negb (match r with d :: _ => greek_cased d | [] => false end)
         then 962%N else 963%N
       else if in_range 913 937 c && negb (N.eqb c 930) then (c + 32)%N
       else c) :: greek_lower (greek_cased c) r
  end.

(** Tables that lower the basic Greek letters as [str.lower] does. *)
Definition greek_tables : unicode_tables :=
  {| uni_decimal := fun _ => false; uni_lower := greek_lower false |}.

(** The keyword "ΑΣ" and the text "ΑΣΑ". *)
Definition alpha_sigma : pystr := [913; 931]%N.
Definition alpha_sigma_alpha : pystr := [913; 931; 913]%N.

(** A regulation with the given keywords and no other field. *)
Definition keywords_only (kws : list pystr) : regulation :=
  {| reg_id := None; title := None; jurisdiction := None; date_published := None;
     summary := None; keywords := Some kws; source_url := None |}.

End Spec.

Import Spec.

(* ------------------------------------------------------------------ *)
(** ** Documents of the specification's examples *)

(** The end-to-end document of the specification. *)
Definition scenario_document : pystr :=
  str "PREAMBLE TEXT" ++ NL ++ str "TERM AND TERMINATION" ++ NL
    ++ str "This agreement terminates with 30 days notice.".

(** The original text of the injection exactness example. *)
Definition exactness_original : pystr :=
  str "A" ++ NL ++ NL ++ str "TERM AND TERMINATION" ++ NL ++ str "B".

(** "USER GUIDE" and "WARRANTIES" lines followed by the sample marker. *)
Definition guide_then_sample : pystr :=
  str "USER GUIDE" ++ NL ++ str "WARRANTIES" ++ NL ++ str "This is a sample".

(** A "WARRANTIES" line followed by a "USER GUIDE" line. *)
Definition warranties_then_guide : pystr :=
  str "WARRANTIES" ++ NL ++ str "USER GUIDE".


(* ------------------------------------------------------------------ *)
(** ** Exceptions and further string operations *)

Module Outcome.

(** A call returns, or raises [KeyError] with the missing key. *)
Inductive result (A : Type) :=
| Ok (a : A)
| KeyError (key : pystr).

Arguments Ok {A} a.
Arguments KeyError {A} key.

Definition bind {A B} (c : result A) (k : A -> result B) : result B :=
  match c with
  | Ok a => k a
  | KeyError key => KeyError key
  end.

Notation "x <- c ;; k" := (bind c (fun x => k))
  (at level 61, c at next level, right associativity).

(** [d[key]] on a field that may be absent. *)
Definition getitem (field : option pystr) (key : string) : result pystr :=
  match field with
  | Some v => Ok v
  | None => KeyError (str key)
  end.

End Outcome.

Import Outcome.

Module PyMore.

(** [s[a:b]]. *)
Definition slice (s : pystr) (a b : Z) : pystr :=
  skipn (index_of s a) (firstn (index_of s b) s).

(** [re.sub(r"```(?:json)?", "", text)]: each run of three backquotes,
    with the word json when it follows, is removed, scanning from the left.
    [skip] counts the characters of the current match still to drop. *)
Fixpoint remove_fences (skip : nat) (s : pystr) : pystr :=
  match s with
  | [] => []
  | c :: s' =>
      match skip with
      | S k => remove_fences k s'
      | O =>
          if startswith s (str "```json") then remove_fences 6 s'
          else if startswith s (str "```") then remove_fences 2 s'
          else c :: remove_fences 0 s'
      end
  end.

(** [str(n)] for a non-negative integer. *)
Definition str_of_N (n : N) : pystr := str (NilEmpty.string_of_uint (N.to_uint n)).

End PyMore.

Import PyMore.

(* ------------------------------------------------------------------ *)
(** ** analyzer.py: inline updates and the regulation feed *)

Module Updates.

Local Open Scope N_scope.

(** [r"REGULATION UPDATE APPLIED"], used with [re.IGNORECASE]. *)
Definition UPDATE_MARKER : pattern :=
  ilit "REGULATION" ++ [One (Chr 32)] ++ ilit "UPDATE" ++ [One (Chr 32)]
    ++ ilit "APPLIED".

(** The clock readings of one call of [mock_fetch_regulations]:
    [datetime.now()] formatted, and [int(time.time())] once per option. *)
Record clock := {
  now : pystr;
  time_privacy : N;
  time_ai : N;
  time_liab : N
}.

Definition option_privacy (clk : clock) : regulation :=
  {| reg_id := Some (str "reg-privacy-" ++ str_of_N (time_privacy clk));
     title := Some (str "New Data Privacy Transparency Rule");
     jurisdiction := Some (str "GLOBAL");
     date_published := Some (now clk);
     summary := Some (str "Requires clear privacy notices and transparency about automated profiling.");
     keywords := Some [str "privacy"; str "transparency"; str "profiling"; str "notice";
                       str "personal data"];
     source_url := Some (str "https://example.org/privacy-rule") |}.

Definition option_ai (clk : clock) : regulation :=
  {| reg_id := Some (str "reg-ai-" ++ str_of_N (time_ai clk));
     title := Some (str "AI Algorithmic Accountability Act");
     jurisdiction := Some (str "EU");
     date_published := Some (now clk);
     summary := Some (str "Mandates audit trails for AI decisions affecting user termination.");
     keywords := Some [str "artificial intelligence"; str "automated decision";
                       str "algorithm"; str "terminate"];
     source_url := Some (str "https://example.org/ai-act") |}.

Definition option_liab (clk : clock) : regulation :=
  {| reg_id := Some (str "reg-liab-" ++ str_of_N (time_liab clk));
     title := Some (str "Digital Services Liability Standard");
     jurisdiction := Some (str "USA");
     date_published := Some (now clk);
     summary := Some (str "Prevents unlimited liability clauses in digital service contracts.");
     keywords := Some [str "liability"; str "indemnification"; str "damages"; str "unlimited"];
     source_url := Some (str "https://example.org/liability-std") |}.

Definition options (clk : clock) : list regulation :=
  [option_privacy clk; option_ai clk; option_liab clk].

(** [[r["title"] for r in regs]]. *)
Fixpoint existing_titles (regs : list regulation) : result (list pystr) :=
  match regs with
  | [] => Ok []
  | r :: rest =>
      t <- getitem (title r) "title" ;;
      ts <- existing_titles rest ;;
      Ok (t :: ts)
  end.

(** [x in titles] on a list of strings. *)
Definition str_in (x : pystr) (l : list pystr) : bool := existsb (str_eqb x) l.

(** The loop over [options] with its [break]; the titles of the options
    are always present. *)
Fixpoint pick_new (opts : list regulation) (titles : list pystr) : option regulation :=
  match opts with
  | [] => None
  | opt :: rest =>
      match title opt with
      | Some t => if negb (str_in t titles) then Some opt else pick_new rest titles
      | None => pick_new rest titles
      end
  end.

(** [mock_fetch_regulations], the regulations file passed as [regs]: the
    value returned and the content of the file afterwards. *)
Definition mock_fetch_regulations (clk : clock) (regs : list regulation)
    : result (option regulation * list regulation) :=
  titles <- existing_titles regs ;;
  match pick_new (options clk) titles with
  | None => Ok (None, regs)
  | Some new_reg => Ok (Some new_reg, regs ++ [new_reg])
  end.

Section WithTables.

Variable U : unicode_tables.

(** [re.search(p, s, flags=re.IGNORECASE)] for a pattern whose letters
    are case-insensitive literals: [Some] of [match.start()]. *)
Definition re_search (p : pattern) (s : pystr) : option nat :=
  search_from U false p None s 0%nat.

(** [re.split(p, s, flags=re.IGNORECASE)[0]]: the text before the first
    match, all of it when there is none. *)
Definition split_head (p : pattern) (s : pystr) : pystr :=
  match re_search p s with
  | Some i => firstn i s
  | None => s
  end.

(** The inner loop over the keywords of one regulation: the first keyword
    found in the section, where the loop breaks. *)
Fixpoint first_keyword (sec_text : pystr) (kws : list pystr) : option pystr :=
  match kws with
  | [] => None
  | kw :: rest =>
      if contains sec_text (lower U kw) then Some kw else first_keyword sec_text rest
  end.

(** The text appended for one regulation; its fields are read in order. *)
Definition update_block (reg : regulation) (kw : pystr) : result pystr :=
  d <- getitem (date_published reg) "date_published" ;;
  t <- getitem (title reg) "title" ;;
  Ok (str "REGULATION UPDATE APPLIED (" ++ d ++ str ")" ++ NL
      ++ str "Title: " ++ t ++ NL
      ++ str "Suggested Update: Parties agree to implement transparency measures regarding "
      ++ kw ++ str "." ++ NL
      ++ repeat 45 62 ++ NL ++ NL).

(** [for reg in regs] on one section: the text gathered and the flag. *)
Fixpoint regs_loop (sec_text : pystr) (regs : list regulation)
    (updates_for_section : pystr) (inserted_any : bool) : result (pystr * bool) :=
  match regs with
  | [] => Ok (updates_for_section, inserted_any)
  | reg :: rest =>
      match first_keyword sec_text (match keywords reg with Some l => l | None => [] end) with
      | Some kw =>
          block <- update_block reg kw ;;
          regs_loop sec_text rest (updates_for_section ++ block) true
      | None => regs_loop sec_text rest updates_for_section inserted_any
      end
  end.

(** One iteration of [for heading, content in sections]. *)
Definition update_step (regs : list regulation) (st : list section * bool) (sec : section)
    : result (list section * bool) :=
  let '(new_sections, inserted_any) := st in
  let '(heading, content) := sec in
  match re_search UPDATE_MARKER content with
  | Some _ => Ok (new_sections ++ [(heading, content)], inserted_any)
  | None =>
      let content_clean := strip (split_head UPDATE_MARKER content) in
      let sec_text := lower U (heading ++ NL ++ content_clean) in
      r <- regs_loop sec_text regs [] inserted_any ;;
      let '(updates_for_section, inserted_any') := r in
      let new_content :=
        if truthy updates_for_section
        then strip (content_clean ++ NL ++ NL ++ strip updates_for_section)
        else content_clean in
      Ok (new_sections ++ [(heading, new_content)], inserted_any')
  end.

Fixpoint update_loop (regs : list regulation) (secs : list section)
    (st : list section * bool) : result (list section * bool) :=
  match secs with
  | [] => Ok st
  | sec :: rest =>
      st' <- update_step regs st sec ;;
      update_loop regs rest st'
  end.

Definition apply_updates_inline (secs : list section) (regs : list regulation)
    : result (list section * bool) :=
  update_loop regs secs ([], false).

End WithTables.

End Updates.

Import Updates.

(* ------------------------------------------------------------------ *)
(** ** main.py: extraction of the JSON block *)

Module JsonBlock.

Local Open Scope Z_scope.

(** The loop [for i, ch in enumerate(text)] of [extract_json_block] from
    index [i] on, with its early [return]; [None] when the loop ends. *)
Fixpoint scan_braces (text rest : pystr) (i brace start : Z) : option pystr :=
  match rest with
  | [] => None
  | ch :: rest' =>
      if N.eqb ch 123 then
        scan_braces text rest' (i + 1) (brace + 1) (if brace =? 0 then i else start)
      else if N.eqb ch 125 then
        if 0 <? brace then
          if (brace - 1 =? 0) && negb (start =? -1)
          then Some (slice text start (i + 1))
          else scan_braces text rest' (i + 1) (brace - 1) start
        else scan_braces text rest' (i + 1) brace start
      else scan_braces text rest' (i + 1) brace start
  end.

Definition extract_json_block (text : pystr) : pystr :=
  match scan_braces text text 0 0 (-1) with
  | Some block => block
  | None => strip (remove_fences 0 text)
  end.

End JsonBlock.

Import JsonBlock.

(* ------------------------------------------------------------------ *)
(** ** pages/Risk_Assessment.py: the risk score *)

Module Risk.

Local Open Scope Z_scope.

Section WithTables.

Variable U : unicode_tables.

(** The dictionary [rules] for a lowered text, in insertion order. *)
Definition rules (text : pystr) : list (pystr * (bool * Z)) :=
  [ (str "Unlimited Liability", (has_in text "liability" && has_in text "unlimited", 30));
    (str "Missing Termination Notice",
       (has_in text "terminate" && negb (has_in text "notice"), 20));
    (str "Mandatory Arbitration", (has_in text "arbitration", 15));
    (str "Indemnification", (has_in text "indemnif", 15));
    (str "Long-Term / Perpetual",
       (has_in text "perpetual" || has_in text "indefinite", 10));
    (str "Force Majeure Missing", (negb (has_in text "force majeure"), 10)) ].

(** One iteration of the loop over [rules.items()]. *)
Definition risk_step (st : list pystr * Z) (rule : pystr * (bool * Z)) : list pystr * Z :=
  let '(issues, score_penalty) := st in
  let '(issue_name, (is_present, penalty)) := rule in
  if is_present then (issues ++ [issue_name], score_penalty + penalty)
  else (issues, score_penalty).

Definition analyze_single_contract (text : pystr) : Z * pystr * list pystr :=
  let text := lower U text in
  let '(issues, score_penalty) := fold_left risk_step (rules text) ([], 0) in
  let final_score := Z.max 0 (100 - score_penalty) in
  let risk_level :=
    if final_score <? 60 then str "High"
    else if final_score <? 85 then str "Medium"
    else str "Low" in
  (final_score, risk_level, issues).

End WithTables.

End Risk.

Import Risk.

(* ------------------------------------------------------------------ *)
(** ** utils.py: contract identifiers *)

Module Utils.

(** [f"{n:03d}"] for a non-negative integer: decimal digits, padded with
    zeros on the left to three characters. *)
Definition format_03d (n : N) : pystr :=
  let digits := str_of_N n in
  repeat 48%N (3 - length digits) ++ digits.

(** [next_contract_id], the index file passed as [idx]: only its number of
    entries is used. *)
Definition next_contract_id {V} (idx : dict V) : pystr :=
  let existing := N.of_nat (length idx) in
  str "contract_" ++ format_03d (existing + 1).

End Utils.

Import Utils.

(* ------------------------------------------------------------------ *)
(** ** pages/Regulation_Monitor.py: the contracts a regulation affects *)

Module Monitor.

(** An entry of the contract index, a field absent when the stored object
    lacks it. *)
Record index_entry := {
  file : option pystr;
  original_name : option pystr;
  version : option N
}.

(** A reported contract. *)
Record affected := {
  a_id : pystr;
  a_name : pystr;
  a_version : N;
  a_text : pystr;
  a_matches : list pystr;
  a_file : pystr
}.

(** What a call of [read_contract_text] does: it returns the text of a
    txt or pdf file, returns None for a file of another kind, or raises,
    as [open] and [PdfReader] do on a file that is missing or cannot be
    read; [err] names the exception. *)
Inductive reading :=
| Text (text : pystr)
| NoText
| ReadRaises (err : pystr).

(** What leaves the scan instead of a result: the KeyError of a missing
    field, or the exception raised while reading. *)
Inductive raised :=
| MissingKey (key : pystr)
| ReadFailure (err : pystr).

Inductive outcome (A : Type) :=
| Return (a : A)
| Raise (e : raised).

Arguments Return {A} a.
Arguments Raise {A} e.

Definition and_then {A B} (c : outcome A) (k : A -> outcome B) : outcome B :=
  match c with
  | Return a => k a
  | Raise e => Raise e
  end.

(** [meta[key]]. *)
Definition field {A} (f : option A) (key : string) : outcome A :=
  match f with
  | Some v => Return v
  | None => Raise (MissingKey (str key))
  end.

Section WithFiles.

Variable U : unicode_tables.

(** [read_contract_text(os.path.join(CONTRACTS_DIR, name))] on the stored
    files, by file name. *)
Variable read_contract_text : pystr -> reading.

Definition scan_step (reg : regulation) (affected_contracts : list affected)
    (entry : pystr * index_entry) : outcome (list affected) :=
  let '(cid, meta) := entry in
  and_then (field (file meta) "file") (fun path =>
  match read_contract_text path with
  | ReadRaises err => Raise (ReadFailure err)
  | NoText => Return affected_contracts
  | Text text =>
      if truthy text then
        let '(score, matches) := match_regulation_to_contract U reg text in
        if (0 <? score)%Z then
          and_then (field (original_name meta) "original_name") (fun name =>
          and_then (field (version meta) "version") (fun ver =>
          and_then (field (file meta) "file") (fun f =>
          Return (affected_contracts
                  ++ [{| a_id := cid; a_name := name; a_version := ver;
                         a_text := text; a_matches := matches; a_file := f |}]))))
        else Return affected_contracts
      else Return affected_contracts
  end).

Fixpoint scan_loop (reg : regulation) (index : dict index_entry)
    (affected_contracts : list affected) : outcome (list affected) :=
  match index with
  | [] => Return affected_contracts
  | entry :: rest =>
      and_then (scan_step reg affected_contracts entry)
               (fun acc => scan_loop reg rest acc)
  end.

Definition scan_contracts_for_regulation (reg : regulation)
    (index : dict index_entry) : outcome (list affected) :=
  scan_loop reg index [].

End WithFiles.

End Monitor.

Import Monitor.

(* ------------------------------------------------------------------ *)
(** ** processor.py: the drawing commands of save_pdf *)

Module Pdf.

Local Open Scope Z_scope.

(** The calls made on the canvas. *)
Inductive op :=
| SetFont (name : string) (size : Z)
| DrawString (x y : Z) (s : pystr)
| ShowPage
| Save.

(** [text.split("\n")]. *)
Fixpoint split_nl (s : pystr) : list pystr :=
  match s with
  | [] => [[]]
  | c :: s' =>
      if N.eqb c 10 then [] :: split_nl s'
      else match split_nl s' with
           | l :: ls => (c :: l) :: ls
           | [] => [[c]]
           end
  end.

(** [range(0, stop, step)] for a positive step. *)
Definition range_step (stop step : nat) : list nat :=
  map (fun k => (k * step)%nat) (seq 0 ((stop + step - 1) / step)).

(** The simple word wrap of a line. *)
Definition chunks (line : pystr) : list pystr :=
  if (120 <? length line)%nat
  then map (fun i => slice line (Z.of_nat i) (Z.of_nat i + 110))
           (range_step (length line) 110)
  else [line].

Section WithPage.

(** The height of the letter page, a whole number of points. *)
Variable height : Z.

Definition top_margin : Z := height - 50.

(** The footer drawn when a page is left; the body font is set again
    unless the document ends. *)
Definition footer_ops (footer : option pystr) (restore : bool) : list op :=
  match footer with
  | Some f =>
      if truthy f
      then [SetFont "Helvetica-Oblique" 8; DrawString 50 40 f]
           ++ (if restore then [SetFont "Helvetica" 10] else [])
      else []
  | None => []
  end.

Definition draw_chunk (footer : option pystr) (st : Z * list op) (chunk : pystr)
    : Z * list op :=
  let '(y, out) := st in
  let out := out ++ [DrawString 50 y chunk] in
  let y := y - 14 in
  if y <? 60 then (top_margin, out ++ footer_ops footer true ++ [ShowPage])
  else (y, out).

Definition draw_line (footer : option pystr) (st : Z * list op) (line : pystr)
    : Z * list op :=
  fold_left (draw_chunk footer) (chunks line) st.

Definition title_ops (title : option pystr) (y : Z) : Z * list op :=
  match title with
  | Some t =>
      if truthy t
      then (y - 24, [SetFont "Helvetica-Bold" 14; DrawString 50 y t;
                     SetFont "Helvetica" 10])
      else (y, [])
  | None => (y, [])
  end.

(** The calls of [save_pdf], in order. *)
Definition save_pdf (text : pystr) (title footer : option pystr) : list op :=
  let '(y, out) := title_ops title top_margin in
  let out := out ++ [SetFont "Helvetica" 10] in
  let '(y, out) := fold_left (draw_line footer) (split_nl text) (y, out) in
  out ++ footer_ops footer false ++ [Save].

End WithPage.

End Pdf.

Import Pdf.

(* ------------------------------------------------------------------ *)
(** ** Vocabulary for the further properties *)

Module Props.

(** Opening minus closing braces of a text. *)
Fixpoint depth (l : pystr) : Z :=
  match l with
  | [] => 0
  | c :: r => (if N.eqb c 123 then 1 else if N.eqb c 125 then -1 else 0) + depth r
  end%Z.

(** A brace block: it runs from an opening brace to the closing brace that
    brings the depth back to zero for the first time. *)
Definition balanced (b : pystr) : Prop :=
  (exists body, b = 123%N :: body ++ [125%N])
  /\ depth b = 0%Z
  /\ forall n, 0 < n < length b -> (0 < depth (firstn n b))%Z.

(** Every non-empty prefix is strictly inside the block. *)
Definition all_open (opn : pystr) : Prop :=
  forall n, 0 < n <= length opn -> (0 < depth (firstn n opn))%Z.

(** The penalty the risk table gives to an issue name. *)
Definition issue_penalty (name : pystr) : Z :=
  if str_eqb name (str "Unlimited Liability") then 30
  else if str_eqb name (str "Missing Termination Notice") then 20
  else if str_eqb name (str "Mandatory Arbitration") then 15
  else if str_eqb name (str "Indemnification") then 15
  else if str_eqb name (str "Long-Term / Perpetual") then 10
  else if str_eqb name (str "Force Majeure Missing") then 10
  else 0.

Definition total_penalty (issues : list pystr) : Z :=
  fold_right (fun name acc => (issue_penalty name + acc)%Z) 0%Z issues.

(** [l] is [full] with some elements left out, the order kept. *)
Inductive subseq {A : Type} : list A -> list A -> Prop :=
| subseq_nil : subseq [] []
| subseq_skip x l full : subseq l full -> subseq l (x :: full)
| subseq_take x l full : subseq l full -> subseq (x :: l) (x :: full).

(** The six messages of the compliance check, in the order of the rules. *)
Definition ALL_MESSAGES : list pystr :=
  [MSG_CONSENT; MSG_RETENTION; MSG_TRANSFER; MSG_NOTICE; MSG_UNLIMITED; MSG_DISPUTE].

(** A heading produced by the heading pattern: heading characters only,
    at least three of them, no whitespace at either end. *)
Definition detected_heading (h : pystr) : Prop :=
  forallb heading_char h = true /\ 3 <= length h /\ strip h = h.

(** The update marker occurs in a text, in any letter case. *)
Definition marked (U : unicode_tables) (content : pystr) : bool :=
  match re_search U UPDATE_MARKER content with
  | Some _ => true
  | None => false
  end.

(** The regulations that [apply_updates_inline] can format: both fields
    it reads are present. *)
Definition printable (reg : regulation) : Prop :=
  date_published reg <> None /\ title reg <> None.

(** The file after a call of [mock_fetch_regulations]; unchanged when the
    call raises. *)
Definition store_after (clk : clock) (regs : list regulation) : list regulation :=
  match mock_fetch_regulations clk regs with
  | Ok (_, regs') => regs'
  | KeyError _ => regs
  end.

(** What the loop keeps true of its headings: each is the default one or
    a detected one, and only the first section can carry the default. *)
Definition seg_inv (st : seg_state) : Prop :=
  (current_heading st = Preamble \/ detected_heading (current_heading st))
  /\ Forall (fun s : section => fst s = Preamble \/ detected_heading (fst s)) (sections st)
  /\ Forall (fun s : section => detected_heading (fst s)) (tl (sections st))
  /\ (sections st <> [] -> detected_heading (current_heading st)).

(** The marker as the update block writes it. *)
Definition marker_word : pystr := str "REGULATION UPDATE APPLIED".

(** The character sets of [UPDATE_MARKER], one per character. *)
Definition marker_csets : list cset :=
  map (fun c => if N.eqb c 32 then Chr 32%N else ChrI c) marker_word.

(** A text starts with one character of each set, in order. *)
Fixpoint word_match (U : unicode_tables) (cs : list cset) (s : pystr) : bool :=
  match cs, s with
  | [], _ => true
  | c :: cs', x :: s' => in_cset U c x && word_match U cs' s'
  | _ :: _, [] => false
  end.

(** A text written by [update_block] starts with the marker. *)
Definition starts_marked (u : pystr) : Prop := exists tail, u = marker_word ++ tail.

(** The lowered text of a section in which keywords are looked up. *)
Definition section_text (U : unicode_tables) (sec : section) : pystr :=
  lower U (fst sec ++ NL ++ strip (snd sec)).

(** Some keyword of the regulation occurs in the section text. *)
Definition reg_hits (U : unicode_tables) (sec_text : pystr) (reg : regulation) : bool :=
  match first_keyword U sec_text (keywords_of reg) with
  | Some _ => true
  | None => false
  end.

(** The section carries no marker yet and some regulation hits it. *)
Definition touched (U : unicode_tables) (regs : list regulation) (sec : section) : bool :=
  negb (marked U (snd sec)) && existsb (reg_hits U (section_text U sec)) regs.

(** A regulation and two sections used as concrete inputs. *)
Definition sample_regulation : regulation :=
  {| reg_id := Some (str "reg-1"); title := Some (str "Privacy Rule");
     jurisdiction := Some (str "EU"); date_published := Some (str "2025-01-01");
     summary := Some (str "Notices."); keywords := Some [str "privacy"; str "notice"];
     source_url := Some (str "https://example.org") |}.

Definition sample_sections : list section :=
  [(str "PRIVACY", str "  We process personal data.  "); (str "OTHER", str "nothing")].

(** [sample_sections] after the update for [sample_regulation]. *)
Definition sample_updated : list section :=
  [(str "PRIVACY",
    str "We process personal data." ++ NL ++ NL
      ++ str "REGULATION UPDATE APPLIED (2025-01-01)" ++ NL
      ++ str "Title: Privacy Rule" ++ NL
      ++ str "Suggested Update: Parties agree to implement transparency measures regarding privacy."
      ++ NL ++ repeat 45%N 62);
   (str "OTHER", str "nothing")].

(** Clock readings used as a concrete input. *)
Definition sample_clock : clock :=
  {| now := str "2025-01-01 00:00:00"; time_privacy := 1735689600%N;
     time_ai := 1735689600%N; time_liab := 1735689601%N |}.

(** The clauses with at least one violation, each with its violations, in
    the order of the clauses. *)
Definition flagged (U : unicode_tables) (clauses : dict clause_value)
    : dict (list pystr) :=
  flat_map (fun item : pystr * clause_value =>
              match violations U (snd item) with
              | [] => []
              | fl => [(fst item, fl)]
              end) clauses.

(** A line of the text that the segmenter takes for a heading. *)
Definition heading_line (U : unicode_tables) (ln : pystr) : bool :=
  negb (str_eqb (strip ln) []) && re_match U HEADING_RE (strip ln).

(** The identifier given to the [j]-th contract. *)
Definition contract_id (j : N) : pystr := str "contract_" ++ format_03d j.

(** An index that was only ever extended by [next_contract_id]: its keys
    are distinct and each is the identifier of a rank up to its size. *)
Definition dense {V} (idx : dict V) : Prop :=
  NoDup (map fst idx)
  /\ forall k, In k (map fst idx) ->
       exists j, (1 <= j <= N.of_nat (length idx))%N /\ k = contract_id j.

(** The brace scan reduced to its counter: [st] is the depth, 0 before
    the first opening brace; the result tells whether the scan returns. *)
Fixpoint closes (st : nat) (l : pystr) : bool :=
  match l with
  | [] => false
  | c :: r =>
      if N.eqb c 123 then closes (S st) r
      else if N.eqb c 125 then
        match st with
        | O => closes O r
        | S O => true
        | S d => closes d r
        end
      else closes st r
  end.

Definition is_brace (c : char) : bool := N.eqb c 123 || N.eqb c 125.

Definition FENCE : pystr := str "```".

(** [k] leading zero digits before a decimal numeral. *)
Fixpoint zeros (k : nat) (u : Decimal.uint) : Decimal.uint :=
  match k with
  | O => u
  | S k' => Decimal.D0 (zeros k' u)
  end.

(** The index entry has the three fields that a report reads. *)
Definition complete (e : pystr * index_entry) : Prop :=
  file (snd e) <> None /\ original_name (snd e) <> None /\ version (snd e) <> None.

(** Reading the stored file of the entry does not raise. *)
Definition readable (read : pystr -> reading) (e : pystr * index_entry) : Prop :=
  forall f err, file (snd e) = Some f -> read f <> ReadRaises err.

(** The stored text of the entry is read, is not empty, and the lowered
    form of some keyword of the regulation is in its lowered form. *)
Definition hit (U : unicode_tables) (read : pystr -> reading)
    (reg : regulation) (e : pystr * index_entry) : bool :=
  match file (snd e) with
  | Some f =>
      match read f with
      | Text text =>
          truthy text
          && existsb (fun kw => contains (lower U text) (lower U kw)) (keywords_of reg)
      | _ => false
      end
  | None => false
  end.

(** What a report says of its contract: the text is the one read from its
    file, it is not empty, and the matches are the keywords found in it,
    at least one. *)
Definition report_ok (U : unicode_tables) (read : pystr -> reading)
    (reg : regulation) (a : affected) : Prop :=
  read (a_file a) = Text (a_text a)
  /\ a_text a <> []
  /\ a_matches a
     = filter (fun kw => contains (lower U (a_text a)) (lower U kw)) (keywords_of reg)
  /\ a_matches a <> [].

(** Stored files for the examples: one contract that can be read, any
    other file missing. *)
Definition sample_files (f : pystr) : reading :=
  if str_eqb f (str "contract_001-v1.pdf") then Text (str "Data Privacy")
  else if str_eqb f (str "notes.doc") then NoText
  else ReadRaises (str "FileNotFoundError").

Definition sample_index : dict index_entry :=
  [(str "contract_001",
    {| file := Some (str "contract_001-v1.pdf"); original_name := Some (str "a.txt");
       version := Some 1%N |});
   (str "contract_002",
    {| file := Some (str "notes.doc"); original_name := Some (str "notes.doc");
       version := Some 1%N |})].

Definition entry_without_file : pystr * index_entry :=
  (str "contract_003",
   {| file := None; original_name := Some (str "c.txt"); version := Some 1%N |}).

Definition entry_with_lost_file : pystr * index_entry :=
  (str "contract_003",
   {| file := Some (str "contract_003-v1.pdf"); original_name := Some (str "c.txt");
      version := Some 1%N |}).

(** The strings drawn at a height that [p] accepts. *)
Definition strings_where (p : Z -> bool) (ops : list op) : list pystr :=
  flat_map (fun o => match o with
                     | DrawString _ y s => if p y then [s] else []
                     | _ => []
                     end) ops.

(** A title or footer that is given and not empty. *)
Definition given (o : option pystr) : list pystr :=
  match o with
  | Some t => if truthy t then [t] else []
  | None => []
  end.

(** Where a string may be drawn: on the footer line, or between the
    bottom limit of the body and the top margin. *)
Definition placed (height : Z) (o : op) : Prop :=
  match o with
  | DrawString x y _ => x = 50%Z /\ (y = 40 \/ 60 <= y <= height - 50)%Z
  | _ => True
  end.

(** Heights above the bottom limit of the body, and below it. *)
Definition above (y : Z) : bool := (60 <=? y)%Z.
Definition below (y : Z) : bool := (y <? 60)%Z.

(** What the drawing loop keeps true of the cursor and of the calls made
    so far, [body] being the strings drawn above the limit. *)
Definition drawn_inv (height : Z) (footer : option pystr) (body : list pystr)
    (st : Z * list op) : Prop :=
  (60 <= fst st <= height - 50)%Z
  /\ Forall (placed height) (snd st)
  /\ strings_where above (snd st) = body
  /\ incl (strings_where below (snd st)) (given footer)
  /\ ~ In Save (snd st).

(** The same regulation record with another keyword list. *)
Definition with_keywords (reg : regulation) (kws : list pystr) : regulation :=
  {| reg_id := reg_id reg; title := title reg; jurisdiction := jurisdiction reg;
     date_published := date_published reg; summary := summary reg;
     keywords := Some kws; source_url := source_url reg |}.

End Props.

Import Props.

(* ------------------------------------------------------------------ *)
(** ** Lemmas on strings *)

Section StringFacts.

Local Open Scope N_scope.

Lemma str_eqb_eq (a b : pystr) : str_eqb a b = true <-> a = b.
Proof.
  revert b; induction a as [|x a IH]; intros [|y b]; simpl; split;
    try congruence; try reflexivity.
  - intros H. apply andb_true_iff in H as [Hx Hr].
    apply N.eqb_eq in Hx. apply IH in Hr. congruence.
  - intros H. injection H as -> ->. rewrite N.eqb_refl. simpl. now apply IH.
Qed.

Lemma str_eqb_neq (a b : pystr) : str_eqb a b = false <-> a <> b.
Proof.
  split.
  - intros H E. apply str_eqb_eq in E. congruence.
  - intros H. destruct (str_eqb a b) eqn:E; [|reflexivity].
    apply str_eqb_eq in E. contradiction.
Qed.

Lemma dropwhile_head p s c r : dropwhile p s = c :: r -> p c = false.
Proof.
  induction s as [|x s IH]; simpl; [discriminate|].
  destruct (p x) eqn:E; [exact IH|]. intros H. injection H as -> _. exact E.
Qed.

Lemma dropwhile_keep p a x r :
  p x = false -> dropwhile p (a ++ x :: r) = dropwhile p a ++ x :: r.
Proof.
  intros Hx. induction a as [|y a IH]; simpl.
  - now rewrite Hx.
  - destruct (p y); [exact IH | reflexivity].
Qed.

(** What [dropwhile] removes satisfies the test. *)
Lemma dropwhile_split p s :
  exists ws, s = ws ++ dropwhile p s /\ forallb p ws = true.
Proof.
  induction s as [|x s [ws [E F]]]; simpl.
  - exists []. now split.
  - destruct (p x) eqn:Hx.
    + exists (x :: ws). simpl. rewrite Hx, F. split; [congruence | reflexivity].
    + exists []. now split.
Qed.

Lemma forallb_rev {A} (p : A -> bool) l : forallb p (rev l) = forallb p l.
Proof.
  induction l as [|x l IH]; simpl; [reflexivity|].
  rewrite forallb_app, IH. simpl. rewrite andb_true_r. apply andb_comm.
Qed.

(** [rstrip] removes a run of whitespace at the end, and nothing else. *)
Lemma rstrip_split s :
  exists ws, s = rstrip s ++ ws /\ forallb isspace ws = true.
Proof.
  unfold rstrip. destruct (dropwhile_split isspace (rev s)) as [ws [E F]].
  exists (rev ws). split.
  - rewrite <- rev_app_distr, <- E. symmetry. apply rev_involutive.
  - now rewrite forallb_rev.
Qed.

Lemma rstrip_last s a c : rstrip s = a ++ [c] -> isspace c = false.
Proof.
  unfold rstrip. intros H.
  apply (f_equal (@rev char)) in H.
  rewrite rev_involutive, rev_app_distr in H. simpl in H.
  eapply dropwhile_head; exact H.
Qed.

Lemma lstrip_first s c r : lstrip s = c :: r -> isspace c = false.
Proof. apply dropwhile_head. Qed.

Lemma rstrip_keep a y b :
  isspace y = false -> rstrip (a ++ y :: b) = a ++ y :: rstrip b.
Proof.
  intros Hy. unfold rstrip.
  rewrite rev_app_distr. simpl. rewrite <- app_assoc. simpl.
  rewrite dropwhile_keep by exact Hy.
  rewrite rev_app_distr. simpl. rewrite rev_involutive.
  now rewrite <- app_assoc.
Qed.

End StringFacts.

Section SubstringFacts.

Lemma startswith_spec s p : startswith s p = true <-> exists b, s = p ++ b.
Proof.
  revert s; induction p as [|x p IH]; intros s; simpl.
  - split; [intros _; now exists s | reflexivity].
  - destruct s as [|y s].
    + split; [discriminate | intros [b E]; discriminate].
    + rewrite andb_true_iff, N.eqb_eq, IH. split.
      * intros [-> [b ->]]. now exists b.
      * intros [b E]. injection E as -> ->. split; [reflexivity | now exists b].
Qed.

(** [contains] decides [substring]. *)
Lemma contains_spec hay needle : contains hay needle = true <-> substring needle hay.
Proof.
  unfold substring. induction hay as [|c hay IH].
  - simpl. rewrite orb_false_r, startswith_spec. split.
    + intros [b E]. now exists [], b.
    + intros [a [b E]]. destruct a; [now exists b | discriminate].
  - cbn [contains]. rewrite orb_true_iff, startswith_spec, IH. split.
    + intros [[b E] | [a [b E]]].
      * now exists [], b.
      * exists (c :: a), b. simpl. now rewrite E.
    + intros [[|x a] [b E]].
      * left. now exists b.
      * right. injection E as _ E. now exists a, b.
Qed.

Lemma substring_nil hay : substring [] hay.
Proof. now exists [], hay. Qed.

Lemma substring_join sep parts h : In h parts -> substring h (join sep parts).
Proof.
  induction parts as [|x rest IH]; [contradiction|].
  intros [-> | Hin].
  - destruct rest as [|y rest'].
    + exists [], []. simpl. now rewrite app_nil_r.
    + exists [], (sep ++ join sep (y :: rest')). reflexivity.
  - destruct rest as [|y rest']; [contradiction|].
    destruct (IH Hin) as [a [b E]].
    exists (x ++ sep ++ a), b.
    change (join sep (x :: y :: rest')) with (x ++ sep ++ join sep (y :: rest')).
    rewrite E. now rewrite <- !app_assoc.
Qed.

(** The result of [strip] is clean. *)
Lemma strip_clean s : clean (strip s).
Proof.
  unfold strip. split.
  - intros x t E.
    destruct (rstrip_split (lstrip s)) as [ws [D _]].
    rewrite E in D. simpl in D. eapply lstrip_first. exact D.
  - intros t y E. eapply rstrip_last. exact E.
Qed.

(** A non-empty clean substring survives [strip]. *)
Lemma substring_strip h J : h <> [] -> clean h -> substring h J -> substring h (strip J).
Proof.
  intros Hne [Hfirst Hlast] [a [b E]]. subst J.
  destruct h as [|x t]; [contradiction|].
  assert (Hx : isspace x = false) by (eapply Hfirst; reflexivity).
  destruct (exists_last (l := x :: t)) as [t' [y Ey]]; [discriminate|].
  assert (Hy : isspace y = false) by (eapply Hlast; exact Ey).
  unfold strip, lstrip. simpl app.
  rewrite dropwhile_keep by exact Hx.
  change (x :: t ++ b) with ((x :: t) ++ b). rewrite Ey.
  rewrite <- app_assoc. simpl app. rewrite app_assoc.
  rewrite rstrip_keep by exact Hy.
  exists (dropwhile isspace a), (rstrip b).
  rewrite <- !app_assoc. reflexivity.
Qed.

End SubstringFacts.

(* ------------------------------------------------------------------ *)
(** ** Lemmas on matching *)

Lemma forallb_pointwise {A} (f g : A -> bool) l :
  (forall x, f x = g x) -> forallb f l = forallb g l.
Proof.
  intros H. induction l as [|x l IH]; simpl; [reflexivity|]. now rewrite H, IH.
Qed.

Section MatchFacts.

Local Open Scope N_scope.

Variable U : unicode_tables.

(** An unbounded repetition followed by a continuation that does not look
    behind: a run of at least [lo] characters of the set, then the rest. *)
Lemma rep_match_unbounded inb (k : pystr -> bool) lo prev s :
  rep_match inb (fun _ => k) lo None prev s = true
  <-> exists a b, s = a ++ b /\ forallb inb a = true /\ (lo <= length a)%nat /\ k b = true.
Proof.
  revert lo prev; induction s as [|c s IH]; intros lo prev; simpl.
  - rewrite orb_false_r. split.
    + destruct lo; [|discriminate]. intros H. exists [], []. now repeat split.
    + intros [a [b [E [_ [L K]]]]]. symmetry in E. apply app_eq_nil in E as [-> ->].
      simpl in L. destruct lo; [exact K | lia].
  - rewrite orb_true_iff, andb_true_iff, IH. split.
    + intros [H | [Hc [a [b [E [F [L K]]]]]]].
      * destruct lo; [|discriminate]. exists [], (c :: s). now repeat split.
      * exists (c :: a), b. simpl. rewrite Hc, F, E. repeat split; [lia | exact K].
    + intros [[|x a] [b [E [F [L K]]]]].
      * left. simpl in *. subst b. destruct lo; [exact K | lia].
      * right. simpl in *. injection E as <- ->.
        apply andb_true_iff in F as [Hc F]. split; [exact Hc|].
        exists a, b. repeat split; [exact F | lia | exact K].
Qed.

Lemma at_eol_single s : at_eol false s = true <-> s = [] \/ s = [10].
Proof.
  destruct s as [|c [|d r]]; simpl.
  - split; [now left | reflexivity].
  - rewrite andb_true_r, N.eqb_eq. split.
    + intros ->. now right.
    + intros [H | H]; [discriminate | congruence].
  - rewrite andb_false_r. split; [discriminate | intros [H | H]; discriminate].
Qed.

Lemma in_range_single x c : in_range x x c = N.eqb c x.
Proof.
  unfold in_range.
  destruct (N.eqb_spec c x) as [-> | Hne].
  - now rewrite N.leb_refl.
  - destruct (N.leb_spec x c), (N.leb_spec c x); simpl; try reflexivity; lia.
Qed.

(** The bracket class of the source is the character set of the
    specification. *)
Lemma heading_class_spec c : in_cset U heading_class c = heading_char c.
Proof.
  unfold heading_char. simpl. rewrite !in_range_single, orb_false_r.
  now rewrite !orb_assoc.
Qed.

(** [HEADING_RE.match]: a run of three or more heading characters that
    reaches the end of the text or a final line feed. *)
Lemma heading_match_spec s :
  re_match U HEADING_RE s = true
  <-> exists a b, s = a ++ b /\ forallb heading_char a = true /\ (3 <= length a)%nat
                  /\ (b = [] \/ b = [10]).
Proof.
  unfold re_match, HEADING_RE, AtLeast.
  change (match_here U false [Bol; Rep 3 None heading_class; Eol] None s)
    with (rep_match (in_cset U heading_class)
            (fun _ => fun r => at_eol false r && true) 3 None None s).
  rewrite rep_match_unbounded. split.
  - intros [a [b [E [F [L K]]]]]. exists a, b. repeat split; try assumption.
    + rewrite <- F. apply forallb_pointwise. intros c. symmetry. apply heading_class_spec.
    + rewrite andb_true_r in K. now apply at_eol_single.
  - intros [a [b [E [F [L K]]]]]. exists a, b. repeat split; try assumption.
    + rewrite <- F. apply forallb_pointwise. intros c. apply heading_class_spec.
    + rewrite andb_true_r. now apply at_eol_single.
Qed.

End MatchFacts.

Section HeadingFacts.

Local Open Scope N_scope.

Lemma heading_char_le c : heading_char c = true -> c <= 90.
Proof.
  unfold heading_char, in_range.
  rewrite !orb_true_iff, !andb_true_iff, !N.leb_le, !N.eqb_eq. lia.
Qed.

Lemma lowercase_letter_ge c : lowercase_letter c = true -> 97 <= c.
Proof.
  unfold lowercase_letter, in_range, is_ascii.
  rewrite orb_true_iff, andb_true_iff, negb_true_iff, !N.leb_le, N.ltb_ge. lia.
Qed.

Lemma trimmed_no_final_newline line a : strip line = line -> line <> a ++ [10].
Proof.
  intros Htrim E. rewrite E in Htrim at 2. unfold strip in Htrim.
  apply rstrip_last in Htrim. discriminate.
Qed.

End HeadingFacts.

(* ------------------------------------------------------------------ *)
(** ** The heading classifier *)

(** C4.  For a line already trimmed of leading and trailing whitespace, the
    heading pattern matches exactly when every character is an uppercase
    letter A-Z, a digit 0-9, a space or one of [-], [&], [(], [)], [,], and
    there are at least three characters.  The empty line is never a
    heading, and neither is any text containing a lowercase letter. *)
Theorem heading_classifier_iff (U : unicode_tables) (line : pystr)
    (Htrim : strip line = line) :
  (re_match U HEADING_RE line = true
   <-> forallb heading_char line = true /\ 3 <= length line)
  /\ re_match U HEADING_RE [] = false
  /\ (forall s c, In c s -> lowercase_letter c = true ->
        re_match U HEADING_RE s = false).
Proof.
  split; [|split].
  - rewrite heading_match_spec. split.
    + intros [a [b [E [F [L [-> | ->]]]]]].
      * rewrite app_nil_r in E. subst a. now split.
      * exfalso. exact (trimmed_no_final_newline line a Htrim E).
    + intros [F L]. exists line, []. rewrite app_nil_r. repeat split; auto.
  - reflexivity.
  - intros s c Hin Hlow.
    destruct (re_match U HEADING_RE s) eqn:M; [|reflexivity]. exfalso.
    apply heading_match_spec in M as [a [b [E [F [_ Hb]]]]].
    apply lowercase_letter_ge in Hlow.
    subst s. apply in_app_or in Hin as [Hin | Hin].
    + rewrite forallb_forall in F. apply F, heading_char_le in Hin. lia.
    + destruct Hb as [-> | ->]; [contradiction|].
      destruct Hin as [<- | []]. lia.
Qed.

Lemma heading_classifier_iff_witness :
  let line := str "TERM AND TERMINATION" in
  strip line = line
  /\ ((re_match ascii_tables HEADING_RE line = true
       <-> forallb heading_char line = true /\ 3 <= length line)
      /\ re_match ascii_tables HEADING_RE [] = false
      /\ (forall s c, In c s -> lowercase_letter c = true ->
            re_match ascii_tables HEADING_RE s = false)).
Proof.
  split; [reflexivity|].
  apply (@heading_classifier_iff ascii_tables (str "TERM AND TERMINATION")).
  reflexivity.
Defined.

(* ------------------------------------------------------------------ *)
(** ** Section segmentation and reassembly *)

Section SegmentFacts.

Variable U : unicode_tables.

(** Every heading stored by the loop went through [strip]. *)
Lemma seg_step_clean st ln :
  Forall (fun sec : section => clean (fst sec)) (sections st) ->
  Forall (fun sec : section => clean (fst sec)) (sections (seg_step U st ln)).
Proof.
  intros H. unfold seg_step.
  destruct (str_eqb (strip ln) []); [exact H|].
  destruct (re_match U HEADING_RE (strip ln)); [|exact H].
  cbn [sections].
  destruct (truthy (current_lines st) || truthy (sections st)); [|exact H].
  apply Forall_app. split; [exact H|].
  constructor; [apply strip_clean | constructor].
Qed.

Lemma seg_fold_clean lines st :
  Forall (fun sec : section => clean (fst sec)) (sections st) ->
  Forall (fun sec : section => clean (fst sec))
         (sections (fold_left (seg_step U) lines st)).
Proof.
  revert st. induction lines as [|ln lines IH]; intros st H; simpl; [exact H|].
  apply IH, seg_step_clean, H.
Qed.

Lemma split_into_sections_clean text :
  Forall (fun sec : section => clean (fst sec)) (split_into_sections U text).
Proof.
  unfold split_into_sections. apply Forall_app. split.
  - apply seg_fold_clean. constructor.
  - constructor; [apply strip_clean | constructor].
Qed.

End SegmentFacts.

Section ReassemblyFacts.

Lemma text_step_keeps out sec x : In x out -> In x (text_step out sec).
Proof.
  intros H. destruct sec as [h c]. unfold text_step.
  destruct (truthy h && negb (str_eqb h Preamble)), (truthy c);
    rewrite !in_app_iff; tauto.
Qed.

Lemma text_fold_keeps secs out x : In x out -> In x (fold_left text_step secs out).
Proof.
  revert out. induction secs as [|sec secs IH]; intros out H; simpl; [exact H|].
  apply IH, text_step_keeps, H.
Qed.

Lemma text_step_emits out h c :
  h <> [] -> h <> Preamble -> In h (text_step out (h, c)).
Proof.
  intros Hne Hp. unfold text_step.
  assert (T : truthy h && negb (str_eqb h Preamble) = true).
  { apply andb_true_iff. split.
    - destruct h; [contradiction | reflexivity].
    - apply negb_true_iff, str_eqb_neq. exact Hp. }
  rewrite T.
  destruct (truthy c); rewrite !in_app_iff; simpl; tauto.
Qed.

Lemma text_fold_emits secs out h c :
  In (h, c) secs -> h <> [] -> h <> Preamble -> In h (fold_left text_step secs out).
Proof.
  revert out. induction secs as [|sec secs IH]; intros out Hin Hne Hp; [contradiction|].
  simpl. destruct Hin as [-> | Hin].
  - apply text_fold_keeps, text_step_emits; assumption.
  - apply IH; assumption.
Qed.

(** A stripped heading other than the default one is found again in the
    reassembled text. *)
Lemma heading_in_text secs h c :
  Forall (fun sec : section => clean (fst sec)) secs ->
  In (h, c) secs -> h <> Preamble -> substring h (sections_to_text secs).
Proof.
  intros Hclean Hin Hp.
  destruct h as [|x t] eqn:Eh; [apply substring_nil|]. rewrite <- Eh in *.
  assert (Hne : h <> []) by (rewrite Eh; discriminate).
  unfold sections_to_text. apply substring_strip.
  - exact Hne.
  - rewrite Forall_forall in Hclean. exact (Hclean _ Hin).
  - apply substring_join. eapply text_fold_emits; eassumption.
Qed.

End ReassemblyFacts.

(** C1, as stated, fails: the first line is itself a heading, so no
    section ("Preamble", "PREAMBLE TEXT") is produced. *)
Lemma scenario_two_sections_fails :
  ~ exists U, split_into_sections U scenario_document
      = [(str "Preamble", str "PREAMBLE TEXT");
         (str "TERM AND TERMINATION",
          str "This agreement terminates with 30 days notice.")].
Proof.
  intros [U H]. vm_compute in H. discriminate.
Qed.

(** C1 (amended).  On the end-to-end document the segmenter returns exactly
    one section, ("TERM AND TERMINATION", "This agreement terminates with
    30 days notice."): both "PREAMBLE TEXT" and "TERM AND TERMINATION"
    match the heading pattern, and a heading closed while the buffer is
    empty and no section exists yet is not appended. *)
Theorem scenario_one_section (U : unicode_tables) :
  split_into_sections U scenario_document
  = [(str "TERM AND TERMINATION",
      str "This agreement terminates with 30 days notice.")].
Proof. vm_compute. reflexivity. Qed.

(** C7, as stated, fails for the default heading: the text "hello" gives
    the single section ("Preamble", "hello"), reassembled as "hello". *)
Lemma preamble_heading_not_in_text :
  ~ (forall U text h c,
        In (h, c) (split_into_sections U text) ->
        substring h (sections_to_text (split_into_sections U text))).
Proof.
  intros H.
  specialize (H ascii_tables (str "hello") Preamble (str "hello")).
  apply contains_spec in H; [vm_compute in H; discriminate|].
  vm_compute. left. reflexivity.
Qed.

(** C7 (amended).  Every heading in the output of [split_into_sections]
    other than the default "Preamble" occurs verbatim in the text that
    [sections_to_text] rebuilds from that output. *)
Theorem headings_reappear (U : unicode_tables) (text h c : pystr) :
  In (h, c) (split_into_sections U text) ->
  h <> Preamble ->
  substring h (sections_to_text (split_into_sections U text)).
Proof.
  intros Hin Hp. eapply heading_in_text; [apply split_into_sections_clean | exact Hin | exact Hp].
Qed.

Lemma headings_reappear_witness :
  let h := str "TERM AND TERMINATION" in
  let c := str "This agreement terminates with 30 days notice." in
  In (h, c) (split_into_sections ascii_tables scenario_document)
  /\ h <> Preamble
  /\ substring h (sections_to_text (split_into_sections ascii_tables scenario_document)).
Proof.
  assert (Hin : In (str "TERM AND TERMINATION",
                    str "This agreement terminates with 30 days notice.")
                   (split_into_sections ascii_tables scenario_document))
    by (vm_compute; left; reflexivity).
  assert (Hp : str "TERM AND TERMINATION" <> Preamble) by discriminate.
  split; [exact Hin | split; [exact Hp|]].
  exact (@headings_reappear ascii_tables scenario_document _ _ Hin Hp).
Defined.

(** C8.  [split_into_sections] is a total function that returns at least
    one section for every text; for the empty text it returns exactly the
    one section ("Preamble", ""). *)
Theorem split_into_sections_nonempty (U : unicode_tables) :
  (forall text, 1 <= length (split_into_sections U text))
  /\ split_into_sections U [] = [(str "Preamble", [])].
Proof.
  split.
  - intros text. unfold split_into_sections. rewrite length_app. simpl. lia.
  - reflexivity.
Qed.

(* ------------------------------------------------------------------ *)
(** ** Anchor search and clause injection *)

Section InjectFacts.

Variable U : unicode_tables.

Lemma skipn_cons_inv (l : pystr) n c r :
  skipn n l = c :: r -> nth_error l n = Some c /\ skipn (S n) l = r.
Proof.
  revert l. induction n as [|n IH]; intros [|x l] H; simpl in H; try discriminate.
  - injection H as -> ->. split; reflexivity.
  - apply IH in H. exact H.
Qed.

(** [search_from] returns the least offset, from the one it starts at,
    at which the pattern matches. *)
Lemma search_from_leftmost p text s :
  forall n i,
    skipn n text = s ->
    search_from U true p (prev_char text n) s n = Some i ->
    n <= i /\ matches_at U p text i = true
    /\ forall j, n <= j < i -> matches_at U p text j = false.
Proof.
  induction s as [|c s IH]; intros n i Hs H; simpl in H.
  - destruct (match_here U true p (prev_char text n) []) eqn:M; [|discriminate].
    injection H as <-. unfold matches_at. rewrite Hs.
    split; [lia | split; [exact M | intros j Hj; lia]].
  - destruct (match_here U true p (prev_char text n) (c :: s)) eqn:M.
    + injection H as <-. unfold matches_at. rewrite Hs.
      split; [lia | split; [exact M | intros j Hj; lia]].
    + destruct (skipn_cons_inv text n c s Hs) as [Hc Hs'].
      rewrite <- Hc in H.
      change (nth_error text n) with (prev_char text (S n)) in H.
      destruct (IH (S n) i Hs' H) as [Hle [Hm Hlt]].
      split; [lia | split; [exact Hm|]].
      intros j Hj. destruct (Nat.eq_dec j n) as [-> | Hne].
      * unfold matches_at. rewrite Hs. exact M.
      * apply Hlt. lia.
Qed.

(** [re.search]: the start of the leftmost match. *)
Lemma re_search_leftmost p text i :
  re_search_multiline U p text = Some i ->
  matches_at U p text i = true /\ forall j, j < i -> matches_at U p text j = false.
Proof.
  intros H. unfold re_search_multiline in H.
  destruct (search_from_leftmost p text text 0 i eq_refl H) as [_ [Hm Hlt]].
  split; [exact Hm | intros j Hj; apply Hlt; lia].
Qed.

(** The scan stops at the first pattern of the list that matches. *)
Lemma scan_patterns_priority ps text d k p i :
  nth_error ps k = Some p ->
  re_search_multiline U p text = Some i ->
  (forall j q, j < k -> nth_error ps j = Some q ->
               re_search_multiline U q text = None) ->
  scan_patterns U ps text d = Z.of_nat i.
Proof.
  revert k. induction ps as [|q ps IH]; intros k Hk Hm Hprio.
  - destruct k; discriminate.
  - destruct k as [|k]; simpl in *.
    + injection Hk as ->. now rewrite Hm.
    + rewrite (Hprio 0 q); [|lia | reflexivity].
      apply (IH k); [exact Hk | exact Hm |].
      intros j r Hj Hr. apply (Hprio (S j) r); [lia | exact Hr].
Qed.

(** Either no pattern matches and the initial value is kept, or the
    result is the start of a match of some pattern of the list. *)
Lemma scan_patterns_cases ps text d :
  (scan_patterns U ps text d = d
   /\ forall p, In p ps -> re_search_multiline U p text = None)
  \/ (exists q i, In q ps /\ re_search_multiline U q text = Some i
                  /\ scan_patterns U ps text d = Z.of_nat i).
Proof.
  induction ps as [|p ps IH]; simpl.
  - left. split; [reflexivity | intros p []].
  - destruct (re_search_multiline U p text) as [i|] eqn:E.
    + right. exists p, i. auto.
    + destruct IH as [[Hd Hnone] | [q [i [Hin [Hq Hs]]]]].
      * left. split; [exact Hd|]. intros r [<- | Hr]; [exact E | now apply Hnone].
      * right. exists q, i. auto.
Qed.

Lemma index_of_nat (s : pystr) i : index_of s (Z.of_nat i) = i.
Proof.
  unfold index_of. destruct (Z.leb_spec 0 (Z.of_nat i)); [apply Nat2Z.id | lia].
Qed.

(** With an anchor found at offset [i]: the trimmed prefix, a blank line,
    the clause, a blank line, the untouched suffix. *)
Lemma inject_at text clause i :
  find_insertion_index U text = Z.of_nat i ->
  inject_clause_smartly U text clause
  = rstrip (firstn i text) ++ NL ++ NL ++ clause ++ NL ++ NL ++ skipn i text.
Proof.
  intros E. unfold inject_clause_smartly, slice_to, slice_from. rewrite E.
  rewrite index_of_nat.
  destruct (Z.eqb_spec (Z.of_nat i) (-1)) as [H | _]; [lia | reflexivity].
Qed.

Lemma inject_fallback text clause :
  find_insertion_index U text = (-1)%Z ->
  inject_clause_smartly U text clause = text ++ NL ++ NL ++ clause.
Proof.
  intros E. unfold inject_clause_smartly. rewrite E. reflexivity.
Qed.

End InjectFacts.

(** C2, as stated, fails: the output has one more line feed. *)
Lemma injection_exactness_fails :
  ~ exists U, inject_clause_smartly U exactness_original (str "NEW CLAUSE")
      = str "A" ++ NL ++ NL ++ str "NEW CLAUSE" ++ NL ++ NL
          ++ str "TERM AND TERMINATION" ++ NL ++ str "B".
Proof.
  intros [U H]. vm_compute in H. discriminate.
Qed.

(** C2 (amended).  For the original "A\n\nTERM AND TERMINATION\nB" and the
    clause "NEW CLAUSE" the result is
    "A\n\nNEW CLAUSE\n\n\nTERM AND TERMINATION\nB": the anchor
    [^\s*\d*\.?\s*TERM\s+AND\s+TERMINATION] matches from offset 2, the
    empty line before the heading, because [\s*] also consumes the line
    feed; the suffix therefore starts with that line feed. *)
Theorem injection_exactness (U : unicode_tables) :
  find_insertion_index U exactness_original = 2%Z
  /\ inject_clause_smartly U exactness_original (str "NEW CLAUSE")
     = str "A" ++ NL ++ NL ++ str "NEW CLAUSE" ++ NL ++ NL ++ NL
         ++ str "TERM AND TERMINATION" ++ NL ++ str "B".
Proof. split; vm_compute; reflexivity. Qed.

(** C3, as stated, fails.  With no anchor only two separator characters
    are added, and with an anchor the whitespace that ends the prefix is
    dropped. *)
Lemma injection_length_bound_fails :
  ~ (forall U original clause,
        length original + length clause + 4
        <= length (inject_clause_smartly U original clause))
  /\ inject_clause_smartly ascii_tables
       (str "A  " ++ NL ++ str "USER GUIDE") (str "B")
     = str "A" ++ NL ++ NL ++ str "B" ++ NL ++ NL ++ str "USER GUIDE".
Proof.
  split.
  - intros H. specialize (H ascii_tables (str "A") (str "B")).
    vm_compute in H. lia.
  - vm_compute. reflexivity.
Qed.

(** C3 (amended).  When an anchor is found at offset i, the prefix
    [original[:i]] is a right-trimmed text [pre] followed by a run [ws] of
    whitespace, and the output is [pre], a blank line, the clause, a blank
    line and [original[i:]]: exactly the whitespace run that ends the
    prefix is removed, every other original character is kept in place and
    in order, and the output length is input + clause + 4 minus the length
    of that run.  When no anchor is found nothing is removed, the clause
    comes last after a blank line, and the output length is
    input + clause + 2.  One of the two cases always applies. *)
Theorem injection_preserves_text (U : unicode_tables) (original clause : pystr) :
  (find_insertion_index U original = (-1)%Z
   \/ exists i, find_insertion_index U original = Z.of_nat i)
  /\ (find_insertion_index U original = (-1)%Z ->
      inject_clause_smartly U original clause = original ++ NL ++ NL ++ clause
      /\ length (inject_clause_smartly U original clause)
         = length original + length clause + 2)
  /\ (forall i,
        find_insertion_index U original = Z.of_nat i ->
        exists pre ws,
          slice_to original (Z.of_nat i) = pre ++ ws
          /\ forallb isspace ws = true
          /\ (forall t y, pre = t ++ [y] -> isspace y = false)
          /\ original = pre ++ ws ++ slice_from original (Z.of_nat i)
          /\ inject_clause_smartly U original clause
             = pre ++ NL ++ NL ++ clause ++ NL ++ NL ++ slice_from original (Z.of_nat i)
          /\ length (inject_clause_smartly U original clause) + length ws
             = length original + length clause + 4).
Proof.
  split; [|split].
  - destruct (scan_patterns_cases U target_patterns original (-1))
      as [[Hd _] | [q [i [_ [_ Hs]]]]].
    + left. exact Hd.
    + right. exists i. exact Hs.
  - intros Hd. rewrite (inject_fallback U original clause Hd).
    split; [reflexivity|]. rewrite !length_app. simpl. lia.
  - intros i Hi. unfold slice_to, slice_from. rewrite index_of_nat.
    destruct (rstrip_split (firstn i original)) as [ws [E F]].
    exists (rstrip (firstn i original)), ws.
    rewrite (inject_at U original clause i Hi).
    assert (Eo : original = rstrip (firstn i original) ++ ws ++ skipn i original).
    { rewrite app_assoc, <- E. symmetry. apply firstn_skipn. }
    split; [exact E|]. split; [exact F|].
    split; [intros t y Ht; exact (rstrip_last _ _ _ Ht)|].
    split; [exact Eo|]. split; [reflexivity|].
    apply (f_equal (@length char)) in Eo.
    rewrite !length_app in *. simpl. lia.
Qed.

(** C5, as stated, fails in its particular case: with "USER GUIDE" at
    offset 0 and "WARRANTIES" at offset 11 both matching, the clause is
    inserted at offset 22, after both lines, because the pattern for
    "This is a sample" comes first in the list. *)
Lemma guide_before_warranties_fails :
  ~ (forall U text i w,
        re_search_multiline U pat_user_guide text = Some i ->
        re_search_multiline U pat_warranties text = Some w ->
        (find_insertion_index U text <= Z.of_nat i)%Z)
  /\ inject_clause_smartly ascii_tables guide_then_sample (str "NEW")
     = str "USER GUIDE" ++ NL ++ str "WARRANTIES" ++ NL ++ NL ++ str "NEW"
         ++ NL ++ NL ++ str "This is a sample".
Proof.
  split.
  - intros H. specialize (H ascii_tables guide_then_sample 0 11).
    vm_compute in H. apply H; reflexivity.
  - vm_compute. reflexivity.
Qed.

(** C5 (amended).  The anchor search is strict priority: when the pattern
    at position k of the list matches and no pattern before it does, the
    insertion offset is the start of the leftmost match of that pattern,
    whatever the later patterns do.  In particular, in a document where
    both the "USER GUIDE" and the "WARRANTIES" patterns match and the
    "This is a sample" pattern, the only one with higher priority, does
    not, the clause is inserted at the start of the "USER GUIDE" match. *)
Theorem anchor_strict_priority (U : unicode_tables) (text : pystr) :
  (forall k p i,
      nth_error target_patterns k = Some p ->
      re_search_multiline U p text = Some i ->
      (forall j q, j < k -> nth_error target_patterns j = Some q ->
                   re_search_multiline U q text = None) ->
      find_insertion_index U text = Z.of_nat i
      /\ matches_at U p text i = true
      /\ (forall j, j < i -> matches_at U p text j = false))
  /\ (forall i w clause,
        re_search_multiline U pat_sample text = None ->
        re_search_multiline U pat_user_guide text = Some i ->
        re_search_multiline U pat_warranties text = Some w ->
        find_insertion_index U text = Z.of_nat i
        /\ inject_clause_smartly U text clause
           = rstrip (firstn i text) ++ NL ++ NL ++ clause ++ NL ++ NL ++ skipn i text).
Proof.
  assert (G : forall k p i,
             nth_error target_patterns k = Some p ->
             re_search_multiline U p text = Some i ->
             (forall j q, j < k -> nth_error target_patterns j = Some q ->
                          re_search_multiline U q text = None) ->
             find_insertion_index U text = Z.of_nat i).
  { intros k p i Hk Hm Hprio. unfold find_insertion_index.
    exact (scan_patterns_priority U target_patterns text (-1) k p i Hk Hm Hprio). }
  split.
  - intros k p i Hk Hm Hprio.
    split; [exact (G k p i Hk Hm Hprio) | exact (re_search_leftmost U p text i Hm)].
  - intros i w clause Hs Hg _.
    assert (E : find_insertion_index U text = Z.of_nat i).
    { apply (G 1 pat_user_guide i); [reflexivity | exact Hg |].
      intros j q Hj Hq. destruct j as [|j]; [|lia].
      injection Hq as <-. exact Hs. }
    split; [exact E | exact (inject_at U text clause i E)].
Qed.

Lemma anchor_strict_priority_witness :
  (find_insertion_index ascii_tables warranties_then_guide = 11%Z
   /\ matches_at ascii_tables pat_user_guide warranties_then_guide 11 = true
   /\ (forall j, j < 11 ->
         matches_at ascii_tables pat_user_guide warranties_then_guide j = false))
  /\ (find_insertion_index ascii_tables warranties_then_guide = 11%Z
      /\ inject_clause_smartly ascii_tables warranties_then_guide (str "NEW")
         = rstrip (firstn 11 warranties_then_guide) ++ NL ++ NL ++ str "NEW"
             ++ NL ++ NL ++ skipn 11 warranties_then_guide).
Proof.
  destruct (anchor_strict_priority ascii_tables warranties_then_guide) as [G P].
  split.
  - apply (G 1 pat_user_guide 11).
    + reflexivity.
    + vm_compute. reflexivity.
    + intros j q Hj Hq. destruct j as [|j]; [|lia].
      injection Hq as <-. vm_compute. reflexivity.
  - apply (P 11 0 (str "NEW")); vm_compute; reflexivity.
Defined.




(* ------------------------------------------------------------------ *)
(** ** Regulation matching *)

Section MatcherFacts.

Variable U : unicode_tables.

(** The loop that appends each hit is a filter of the keyword list. *)
Lemma match_fold_filter text kws acc :
  fold_left (match_step U text) kws acc
  = acc ++ filter (occurs_ignoring_caseb U text) kws.
Proof.
  revert acc. induction kws as [|kw kws IH]; intros acc; simpl.
  - now rewrite app_nil_r.
  - rewrite IH. unfold match_step, occurs_ignoring_caseb.
    destruct (contains (lower U text) (lower U kw)); [|reflexivity].
    now rewrite <- app_assoc.
Qed.

Lemma occurs_ignoring_case_dec text kw :
  occurs_ignoring_caseb U text kw = true <-> occurs_ignoring_case U kw text.
Proof. apply contains_spec. Qed.

End MatcherFacts.

Section CaseFacts.

Local Open Scope N_scope.

Lemma ascii_lower_same x y : ascii_lower x = ascii_lower y <-> same_letter x y.
Proof.
  unfold ascii_lower, in_range, same_letter.
  destruct (N.leb_spec 65 x), (N.leb_spec x 90), (N.leb_spec 65 y), (N.leb_spec y 90);
    simpl; lia.
Qed.

Lemma lowered_alike kw m :
  map ascii_lower m = map ascii_lower kw <-> Forall2 same_letter kw m.
Proof.
  revert m. induction kw as [|x kw IH]; intros m.
  - destruct m; simpl; split; intros H; try discriminate; try constructor; inversion H.
  - destruct m as [|y m]; simpl; split; intros H; try discriminate; try inversion H; subst.
    + constructor; [apply ascii_lower_same; congruence | apply IH; assumption].
    + f_equal; [symmetry; now apply ascii_lower_same | now apply IH].
Qed.

Lemma lower_ascii U s : forallb is_ascii s = true -> lower U s = map ascii_lower s.
Proof. intros H. unfold lower. now rewrite H. Qed.

(** On ASCII strings the test of the code is case-insensitive occurrence. *)
Lemma lowered_occurs U kw text :
  forallb is_ascii text = true -> forallb is_ascii kw = true ->
  (substring (lower U kw) (lower U text) <-> occurs_caseless kw text).
Proof.
  intros Ht Hk. rewrite (lower_ascii U text Ht), (lower_ascii U kw Hk).
  unfold substring, occurs_caseless. split.
  - intros [a' [b' E]].
    apply map_eq_app in E as [a [r [-> [_ E]]]].
    apply map_eq_app in E as [m [b [-> [E _]]]].
    exists a, m, b. split; [reflexivity | now apply lowered_alike].
  - intros [a [m [b [-> F]]]]. apply lowered_alike in F.
    exists (map ascii_lower a), (map ascii_lower b).
    now rewrite !map_app, F.
Qed.

Lemma occurs_verbatim kw a b : occurs_caseless kw (a ++ kw ++ b).
Proof.
  exists a, kw, b. split; [reflexivity|].
  induction kw; constructor; [now left | assumption].
Qed.

End CaseFacts.

(** C6, as stated, fails outside ASCII.  The keyword "ΑΣ" occurs in the
    text "ΑΣΑ" as it stands, but its lowered form ends in the final
    sigma, "ας", which is not a substring of the lowered text "ασα":
    the keyword is not counted. *)
Lemma verbatim_keyword_not_counted :
  ~ (forall U reg text kw,
        In kw (keywords_of reg) -> occurs_caseless kw text ->
        In kw (snd (match_regulation_to_contract U reg text)))
  /\ alpha_sigma_alpha = alpha_sigma ++ [913%N]
  /\ lower greek_tables alpha_sigma = [945; 962]%N
  /\ lower greek_tables alpha_sigma_alpha = [945; 963; 945]%N
  /\ match_regulation_to_contract greek_tables (keywords_only [alpha_sigma])
       alpha_sigma_alpha = (0%Z, []).
Proof.
  split; [|repeat split; vm_compute; reflexivity].
  intros H.
  specialize (H greek_tables (keywords_only [alpha_sigma]) alpha_sigma_alpha alpha_sigma).
  assert (F : In alpha_sigma
                (snd (match_regulation_to_contract greek_tables
                        (keywords_only [alpha_sigma]) alpha_sigma_alpha))).
  { apply H; [now left|]. exact (occurs_verbatim alpha_sigma [] [913%N]). }
  vm_compute in F. exact F.
Qed.

(** C6 (amended).  [match_regulation_to_contract] returns twice the number
    of the regulation's keywords whose lowered form is a substring of the
    lowered text, together with those keywords in the regulation's own
    order.  For a keyword and a text in ASCII that test is case-insensitive
    occurrence: some run of the text agrees with the keyword up to the case
    of the letters.  A regulation with no [keywords] field gives score 0
    and the empty list. *)
Theorem match_regulation_score (U : unicode_tables) (reg : regulation) (text : pystr) :
  match_regulation_to_contract U reg text
  = ((2 * Z.of_nat (length (found_keywords U reg text)))%Z, found_keywords U reg text)
  /\ found_keywords U reg text
     = filter (fun kw => contains (lower U text) (lower U kw)) (keywords_of reg)
  /\ (forall kw, In kw (found_keywords U reg text)
                 <-> In kw (keywords_of reg) /\ substring (lower U kw) (lower U text))
  /\ (forall kw, forallb is_ascii text = true -> forallb is_ascii kw = true ->
                 (In kw (found_keywords U reg text)
                  <-> In kw (keywords_of reg) /\ occurs_caseless kw text))
  /\ (forall i t j d s u,
        match_regulation_to_contract U (Build_regulation i t j d s None u) text
        = (0%Z, [])).
Proof.
  assert (M : forall kw, In kw (found_keywords U reg text)
                 <-> In kw (keywords_of reg) /\ substring (lower U kw) (lower U text)).
  { intros kw. unfold found_keywords.
    rewrite filter_In. unfold occurs_ignoring_caseb. now rewrite contains_spec. }
  split; [|split; [|split; [|split]]].
  - unfold match_regulation_to_contract, found_keywords, keywords_of.
    rewrite match_fold_filter. cbn [app]. f_equal. apply Z.mul_comm.
  - reflexivity.
  - exact M.
  - intros kw Ht Hk. rewrite M. now rewrite (lowered_occurs U kw text Ht Hk).
  - reflexivity.
Qed.

(* ------------------------------------------------------------------ *)
(** ** Compliance flags *)

Section ComplianceFacts.

Variable U : unicode_tables.

Lemma truthy_nonempty {A} (l : list A) : truthy l = true <-> l <> [].
Proof. destruct l; simpl; split; congruence. Qed.

Lemma dict_set_keys {V} (k : pystr) (v : V) (d : dict V) n :
  In n (map fst (dict_set k v d)) <-> n = k \/ In n (map fst d).
Proof.
  induction d as [|[k' v'] d IH]; simpl.
  - intuition congruence.
  - destruct (str_eqb k k') eqn:E; simpl.
    + apply str_eqb_eq in E. subst k'. intuition congruence.
    + rewrite IH. tauto.
Qed.

Lemma dict_set_values {V} (P : V -> Prop) (k : pystr) (v : V) (d : dict V) :
  P v -> Forall (fun e => P (snd e)) d -> Forall (fun e => P (snd e)) (dict_set k v d).
Proof.
  intros Hv. induction d as [|[k' v'] d IH]; simpl; intros H.
  - constructor; [exact Hv | constructor].
  - inversion H as [|? ? Hh Ht]; subst.
    destruct (str_eqb k k'); constructor; auto.
Qed.

(** What one iteration does to the keys of [flags]. *)
Lemma compliance_step_keys flags name v n :
  In n (map fst (compliance_step U flags (name, v)))
  <-> In n (map fst flags) \/ (n = name /\ violations U v <> []).
Proof.
  unfold compliance_step, violations.
  destruct (clause_text v) as [text|]; [|intuition congruence].
  destruct (truthy (clause_flags U text)) eqn:T.
  - rewrite dict_set_keys. apply truthy_nonempty in T. tauto.
  - assert (clause_flags U text = []) by (destruct (clause_flags U text); [reflexivity | discriminate]).
    intuition congruence.
Qed.

Lemma compliance_fold_keys clauses flags n :
  In n (map fst (fold_left (compliance_step U) clauses flags))
  <-> In n (map fst flags) \/ exists v, In (n, v) clauses /\ violations U v <> [].
Proof.
  revert flags. induction clauses as [|[name v] clauses IH]; intros flags;
    cbn [fold_left].
  - split; [now left | intros [H | [v [[] _]]]; exact H].
  - rewrite IH, compliance_step_keys. split.
    + intros [[H | [-> Hv]] | [w [Hin Hw]]].
      * now left.
      * right. exists v. split; [now left | exact Hv].
      * right. exists w. split; [now right | exact Hw].
    + intros [H | [w [[E | Hin] Hw]]].
      * left. now left.
      * injection E as -> ->. left. right. now split.
      * right. exists w. now split.
Qed.

Lemma compliance_fold_values clauses flags :
  Forall (fun e : pystr * list pystr => snd e <> []) flags ->
  Forall (fun e : pystr * list pystr => snd e <> [])
         (fold_left (compliance_step U) clauses flags).
Proof.
  revert flags. induction clauses as [|[name v] clauses IH]; intros flags H;
    cbn [fold_left].
  - exact H.
  - apply IH. unfold compliance_step.
    destruct (clause_text v) as [text|]; [|exact H].
    destruct (truthy (clause_flags U text)) eqn:T; [|exact H].
    apply (dict_set_values (fun fl => fl <> [])); [now apply truthy_nonempty | exact H].
Qed.

End ComplianceFacts.

(** C9, as stated, fails on the text of the flag: the message the code
    emits for the consent rule is not "missing consent for data
    processing.". *)
Lemma consent_flag_text_differs :
  ~ exists U,
      check_compliance U
        [(str "clause", VText (str "We collect personal data for marketing purposes."))]
      = [(str "clause", [str "missing consent for data processing."])].
Proof.
  intros [U H]. vm_compute in H. discriminate.
Qed.

(** C9 (amended).  A clause reading "We collect personal data for marketing
    purposes." gets exactly one flag, the consent message "GDPR: Missing
    user consent for data processing."; a clause reading "The provider's
    liability is unlimited in all cases." gets exactly the
    unlimited-liability message "Indian Contract Act: Unlimited liability
    may be unenforceable."; and the names in the result are exactly the
    names of the clauses with at least one violation, so a clause with
    none is left out and no name is mapped to an empty list. *)
Theorem compliance_flags (U : unicode_tables) :
  (forall name,
      check_compliance U
        [(name, VText (str "We collect personal data for marketing purposes."))]
      = [(name, [str "GDPR: Missing user consent for data processing."])])
  /\ (forall name,
        check_compliance U
          [(name, VText (str "The provider's liability is unlimited in all cases."))]
        = [(name, [str "Indian Contract Act: Unlimited liability may be unenforceable."])])
  /\ (forall clauses name,
        In name (map fst (check_compliance U clauses))
        <-> exists v, In (name, v) clauses /\ violations U v <> [])
  /\ (forall clauses,
        Forall (fun e : pystr * list pystr => snd e <> []) (check_compliance U clauses)).
Proof.
  split; [|split; [|split]].
  - intros name. vm_compute. reflexivity.
  - intros name. vm_compute. reflexivity.
  - intros clauses name. unfold check_compliance.
    rewrite compliance_fold_keys. simpl. tauto.
  - intros clauses. apply compliance_fold_values. constructor.
Qed.

(* ------------------------------------------------------------------ *)
(** ** Extraction of the JSON block *)

(** [lia] after unfolding the names of the string types, which it would
    otherwise read as different lists. *)
Ltac len_lia := unfold pystr, char in *; lia.

Lemma firstn_app_le {A} (n : nat) (a b : list A) :
  n <= length a -> firstn n (a ++ b) = firstn n a.
Proof.
  intros H. rewrite firstn_app.
  replace (n - length a) with 0 by lia. simpl. apply app_nil_r.
Qed.

Section JsonBlockFacts.

Local Open Scope Z_scope.

Lemma depth_app a b : depth (a ++ b) = depth a + depth b.
Proof.
  induction a as [|c a IH]; simpl; [reflexivity|]. rewrite IH. len_lia.
Qed.

Lemma depth_no_open pre : ~ In 123%N pre -> depth pre <= 0.
Proof.
  induction pre as [|c pre IH]; simpl; intros H; [len_lia|].
  destruct (N.eqb_spec c 123) as [-> | _]; [exfalso; apply H; now left|].
  assert (depth pre <= 0) by (apply IH; intros Hin; apply H; now right).
  destruct (N.eqb c 125); len_lia.
Qed.

(** The slice taken at the return: from the opening brace through the
    closing one. *)
Lemma slice_block (pre opn rest : pystr) (c : N) :
  slice (pre ++ opn ++ c :: rest)
        (Z.of_nat (length pre)) (Z.of_nat (length pre + length opn) + 1)
  = opn ++ [c].
Proof.
  unfold slice.
  replace (Z.of_nat (length pre + length opn) + 1)
    with (Z.of_nat (length pre + length opn + 1)) by len_lia.
  rewrite !index_of_nat.
  replace (pre ++ opn ++ c :: rest) with ((pre ++ opn ++ [c]) ++ rest)
    by (now rewrite <- !app_assoc).
  rewrite firstn_app.
  replace (length pre + length opn + 1 - length (pre ++ opn ++ [c]))%nat with 0%nat
    by (rewrite !length_app; simpl; len_lia).
  rewrite firstn_all2 by (rewrite !length_app; simpl; len_lia).
  simpl firstn. rewrite app_nil_r.
  rewrite skipn_app, skipn_all, Nat.sub_diag. reflexivity.
Qed.

Lemma all_open_snoc opn c :
  all_open opn -> 0 < depth (opn ++ [c]) -> all_open (opn ++ [c]).
Proof.
  intros H Hd n Hn. rewrite length_app in Hn. simpl in Hn.
  destruct (Nat.eq_dec n (length opn + 1)) as [-> | Hne].
  - rewrite firstn_all2 by (rewrite length_app; simpl; len_lia). exact Hd.
  - rewrite firstn_app_le by len_lia. apply H. len_lia.
Qed.

(** The scan inside a block: [opn] is what was read since the opening
    brace at offset [start], at depth [brace]. *)
Lemma scan_open_sound text pre :
  forall rest opn b,
    text = pre ++ opn ++ rest ->
    (exists r, opn = 123%N :: r) ->
    all_open opn ->
    scan_braces text rest (Z.of_nat (length pre + length opn)) (depth opn)
                (Z.of_nat (length pre)) = Some b ->
    exists m post, rest = m ++ post /\ b = opn ++ m /\ balanced b.
Proof.
  induction rest as [|c rest IH]; intros opn b Ht Hhd Hopen H; [discriminate|].
  assert (Hpos : 0 < depth opn).
  { destruct Hhd as [r ->]. specialize (Hopen (length (123%N :: r))).
    rewrite firstn_all in Hopen. apply Hopen. simpl. len_lia. }
  assert (Hnext : forall d,
             depth (opn ++ [c]) = d -> 0 < d ->
             scan_braces text rest (Z.of_nat (length pre + length (opn ++ [c]))) d
                         (Z.of_nat (length pre)) = Some b ->
             exists m post, c :: rest = m ++ post /\ b = opn ++ m /\ balanced b).
  { intros d Hd Hd0 Hs. subst d.
    destruct (IH (opn ++ [c]) b) as [m [post [E1 [E2 E3]]]].
    - rewrite Ht. now rewrite <- app_assoc.
    - destruct Hhd as [r ->]. now exists (r ++ [c]).
    - apply all_open_snoc; assumption.
    - exact Hs.
    - exists (c :: m), post. split; [now rewrite E1|].
      split; [rewrite E2; now rewrite <- app_assoc | exact E3]. }
  assert (Hi : Z.of_nat (length pre + length opn) + 1
               = Z.of_nat (length pre + length (opn ++ [c])))
    by (rewrite length_app; simpl; len_lia).
  simpl in H.
  destruct (N.eqb_spec c 123) as [-> | Hc1].
  - replace (depth opn =? 0) with false in H by (symmetry; apply Z.eqb_neq; len_lia).
    rewrite Hi in H. apply (Hnext (depth opn + 1)); [|len_lia | exact H].
    rewrite depth_app. simpl. len_lia.
  - destruct (N.eqb_spec c 125) as [-> | Hc2].
    + replace (0 <? depth opn) with true in H by (symmetry; apply Z.ltb_lt; len_lia).
      replace (Z.of_nat (length pre) =? -1) with false in H
        by (symmetry; apply Z.eqb_neq; len_lia).
      simpl negb in H. rewrite andb_true_r in H.
      destruct (Z.eqb_spec (depth opn - 1) 0) as [E0 | E0].
      * injection H as <-. rewrite Ht, slice_block.
        exists [125%N], rest. split; [reflexivity | split; [reflexivity|]].
        split; [|split].
        -- destruct Hhd as [r ->]. now exists r.
        -- rewrite depth_app. simpl. len_lia.
        -- intros n Hn. rewrite length_app in Hn. simpl in Hn.
           rewrite firstn_app_le by len_lia. apply Hopen. len_lia.
      * rewrite Hi in H. apply (Hnext (depth opn - 1)); [|len_lia | exact H].
        rewrite depth_app. simpl. len_lia.
    + rewrite Hi in H. apply (Hnext (depth opn)); [|len_lia | exact H].
      rewrite depth_app. simpl.
      destruct (N.eqb_spec c 123); [contradiction|].
      destruct (N.eqb_spec c 125); [contradiction|]. len_lia.
Qed.

Lemma scan_open_complete text pre post :
  forall m opn,
    text = pre ++ opn ++ m ++ post ->
    (exists r, opn = 123%N :: r) ->
    all_open opn ->
    depth (opn ++ m) = 0 ->
    (forall n, (0 < n < length (opn ++ m))%nat -> 0 < depth (firstn n (opn ++ m))) ->
    scan_braces text (m ++ post) (Z.of_nat (length pre + length opn)) (depth opn)
                (Z.of_nat (length pre)) = Some (opn ++ m).
Proof.
  induction m as [|c m IH]; intros opn Ht Hhd Hopen Hd Hpre.
  - exfalso. rewrite app_nil_r in Hd.
    destruct Hhd as [r ->]. specialize (Hopen (length (123%N :: r))).
    rewrite firstn_all in Hopen.
    assert (0 < depth (123%N :: r)) by (apply Hopen; simpl; len_lia). len_lia.
  - assert (Hpos : 0 < depth opn).
    { destruct Hhd as [r ->]. specialize (Hopen (length (123%N :: r))).
      rewrite firstn_all in Hopen. apply Hopen. simpl. len_lia. }
    assert (Hi : Z.of_nat (length pre + length opn) + 1
                 = Z.of_nat (length pre + length (opn ++ [c])))
      by (rewrite length_app; simpl; len_lia).
    assert (Hsnoc : m <> [] -> 0 < depth (opn ++ [c])).
    { intros Hm. specialize (Hpre (length opn + 1)%nat).
      replace (opn ++ c :: m) with ((opn ++ [c]) ++ m) in Hpre
        by (now rewrite <- app_assoc).
      rewrite firstn_app_le in Hpre by (rewrite length_app; simpl; len_lia).
      rewrite firstn_all2 in Hpre by (rewrite length_app; simpl; len_lia).
      apply Hpre. rewrite !length_app. simpl.
      destruct m; [contradiction | simpl; len_lia]. }
    assert (Hnext : 0 < depth (opn ++ [c]) ->
              scan_braces text (m ++ post)
                (Z.of_nat (length pre + length (opn ++ [c])))
                (depth (opn ++ [c])) (Z.of_nat (length pre))
              = Some (opn ++ c :: m)).
    { intros Hd0.
      replace (opn ++ c :: m) with ((opn ++ [c]) ++ m) by (now rewrite <- app_assoc).
      apply IH.
      - rewrite Ht. now rewrite <- !app_assoc.
      - destruct Hhd as [r ->]. now exists (r ++ [c]).
      - apply all_open_snoc; assumption.
      - rewrite <- app_assoc. exact Hd.
      - rewrite <- app_assoc. exact Hpre. }
    assert (Hdc : depth (opn ++ [c])
                  = depth opn + (if N.eqb c 123 then 1 else if N.eqb c 125 then -1 else 0))
      by (rewrite depth_app; simpl; len_lia).
    simpl.
    destruct (N.eqb_spec c 123) as [-> | Hc1].
    + replace (depth opn =? 0) with false by (symmetry; apply Z.eqb_neq; len_lia).
      rewrite Hi. rewrite <- Hdc. apply Hnext. len_lia.
    + destruct (N.eqb_spec c 125) as [-> | Hc2].
      * replace (0 <? depth opn) with true by (symmetry; apply Z.ltb_lt; len_lia).
        replace (Z.of_nat (length pre) =? -1) with false
          by (symmetry; apply Z.eqb_neq; len_lia).
        simpl negb. rewrite andb_true_r.
        destruct (Z.eqb_spec (depth opn - 1) 0) as [E0 | E0].
        -- destruct m as [|x m'].
           ++ rewrite Ht. simpl app. now rewrite slice_block.
           ++ exfalso. assert (0 < depth (opn ++ [125%N])) by (apply Hsnoc; discriminate).
              len_lia.
        -- rewrite Hi. replace (depth opn - 1) with (depth (opn ++ [125%N])) by len_lia.
           apply Hnext. destruct m as [|x m'].
           ++ rewrite Hdc in Hd. len_lia.
           ++ apply Hsnoc. discriminate.
      * assert (E : depth (opn ++ [c]) = depth opn) by len_lia.
        rewrite Hi, <- E. apply Hnext. len_lia.
Qed.

Lemma scan_step_open text rest i :
  scan_braces text (123%N :: rest) i 0 (-1) = scan_braces text rest (i + 1) 1 i.
Proof. reflexivity. Qed.

(** The scan before any opening brace. *)
Lemma scan_closed_sound text :
  forall rest pre b,
    text = pre ++ rest ->
    ~ In 123%N pre ->
    scan_braces text rest (Z.of_nat (length pre)) 0 (-1) = Some b ->
    exists pre' post, text = pre' ++ b ++ post /\ ~ In 123%N pre' /\ balanced b.
Proof.
  induction rest as [|c rest IH]; intros pre b Ht Hpre H; [discriminate|].
  assert (Hi : Z.of_nat (length pre) + 1 = Z.of_nat (length (pre ++ [c])))
    by (rewrite length_app; simpl; len_lia).
  assert (Hcont : c <> 123%N ->
            scan_braces text rest (Z.of_nat (length (pre ++ [c]))) 0 (-1) = Some b ->
            exists pre' post, text = pre' ++ b ++ post /\ ~ In 123%N pre' /\ balanced b).
  { intros Hc Hs. apply (IH (pre ++ [c]) b); [ | | exact Hs].
    - rewrite Ht. now rewrite <- app_assoc.
    - intros Hin. apply in_app_or in Hin as [Hin | [E | []]]; [now apply Hpre | congruence]. }
  simpl in H.
  destruct (N.eqb_spec c 123) as [-> | Hc1].
  - destruct (scan_open_sound text pre rest [123%N] b) as [m [post [E1 [E2 E3]]]].
    + exact Ht.
    + now exists [].
    + intros n Hn. simpl in Hn. replace n with 1%nat by len_lia. reflexivity.
    + simpl length. simpl depth.
      replace (Z.of_nat (length pre + 1)) with (Z.of_nat (length pre) + 1) by len_lia.
      exact H.
    + exists pre, post. split; [|split; [exact Hpre | exact E3]].
      rewrite Ht, E1, E2. reflexivity.
  - destruct (N.eqb_spec c 125) as [-> | Hc2].
    + simpl in H. rewrite Hi in H. apply Hcont; [discriminate | exact H].
    + rewrite Hi in H. apply Hcont; [exact Hc1 | exact H].
Qed.

Lemma scan_closed_complete text b post :
  forall pre1 pre0,
    text = pre0 ++ pre1 ++ b ++ post ->
    ~ In 123%N pre0 ->
    ~ In 123%N pre1 ->
    balanced b ->
    scan_braces text (pre1 ++ b ++ post) (Z.of_nat (length pre0)) 0 (-1) = Some b.
Proof.
  induction pre1 as [|c pre1 IH]; intros pre0 Ht H0 H1 Hb.
  - destruct Hb as [[body Eb] [Hd Hpre]]. subst b.
    change (([] : pystr) ++ (123%N :: body ++ [125%N]) ++ post)
      with (123%N :: (body ++ [125%N]) ++ post).
    rewrite scan_step_open.
    replace (Z.of_nat (length pre0) + 1)
      with (Z.of_nat (length pre0 + length [123%N])) by (simpl; len_lia).
    apply (scan_open_complete text pre0 post (body ++ [125%N]) [123%N]).
    + rewrite Ht. reflexivity.
    + now exists [].
    + intros n Hn. simpl in Hn. replace n with 1%nat by len_lia. reflexivity.
    + exact Hd.
    + exact Hpre.
  - assert (Hc : c <> 123%N) by (intros ->; apply H1; now left).
    assert (Hi : Z.of_nat (length pre0) + 1 = Z.of_nat (length (pre0 ++ [c])))
      by (rewrite length_app; simpl; len_lia).
    assert (Hs : scan_braces text (pre1 ++ b ++ post)
                   (Z.of_nat (length (pre0 ++ [c]))) 0 (-1) = Some b).
    { apply IH.
      - rewrite Ht. now rewrite <- !app_assoc.
      - intros Hin. apply in_app_or in Hin as [Hin | [E | []]]; [now apply H0 | congruence].
      - intros Hin. apply H1. now right.
      - exact Hb. }
    simpl.
    destruct (N.eqb_spec c 123) as [E | _]; [contradiction|].
    destruct (N.eqb c 125); simpl; rewrite Hi; exact Hs.
Qed.

End JsonBlockFacts.

Lemma balanced_clean b : balanced b -> clean b.
Proof.
  intros [[body E] _]. subst b. split.
  - intros x t H. injection H as <- _. reflexivity.
  - intros t y H.
    change (123%N :: body ++ [125%N]) with ((123%N :: body) ++ [125%N]) in H.
    apply app_inj_tail in H as [_ <-]. reflexivity.
Qed.

Lemma extract_block text pre b post :
  text = pre ++ b ++ post -> ~ In 123%N pre -> balanced b ->
  scan_braces text text 0 0 (-1) = Some b.
Proof.
  intros Ht Hpre Hb.
  pose proof (scan_closed_complete text b post pre [] Ht (fun H => H) Hpre Hb) as C.
  simpl in C. rewrite <- Ht in C. exact C.
Qed.

Lemma extract_cases text :
  (exists pre b post,
      text = pre ++ b ++ post /\ ~ In 123%N pre /\ balanced b
      /\ extract_json_block text = b)
  \/ ((forall pre b post, text = pre ++ b ++ post -> ~ In 123%N pre -> ~ balanced b)
      /\ extract_json_block text = strip (remove_fences 0 text)).
Proof.
  destruct (scan_braces text text 0 0 (-1)) as [b|] eqn:E.
  - left.
    destruct (scan_closed_sound text text [] b eq_refl (fun H => H) E)
      as [pre [post [Ht [Hpre Hb]]]].
    exists pre, b, post. split; [exact Ht | split; [exact Hpre | split; [exact Hb|]]].
    unfold extract_json_block. now rewrite E.
  - right. split.
    + intros pre b post Ht Hpre Hb.
      rewrite (extract_block text pre b post Ht Hpre Hb) in E. discriminate.
    + unfold extract_json_block. now rewrite E.
Qed.

(** X1.  When the text holds a brace block after a part without opening
    brace, [extract_json_block] returns exactly that block: the text from
    the first opening brace to the closing brace that first brings the
    depth back to zero, whatever follows. *)
Theorem json_block_first (text pre b post : pystr) :
  text = pre ++ b ++ post ->
  ~ In 123%N pre ->
  balanced b ->
  extract_json_block text = b.
Proof.
  intros Ht Hpre Hb. unfold extract_json_block.
  now rewrite (extract_block text pre b post Ht Hpre Hb).
Qed.

Lemma json_block_first_witness :
  extract_json_block (str "x {a{b}} y}") = str "{a{b}}".
Proof.
  apply (json_block_first (str "x {a{b}} y}") (str "x ") (str "{a{b}}") (str " y}")).
  - reflexivity.
  - intros [H | [H | []]]; discriminate.
  - split; [now exists (str "a{b}") | split; [reflexivity|]].
    intros n Hn. simpl in Hn.
    destruct n as [|[|[|[|[|[|n]]]]]]; try lia; reflexivity.
Defined.

(** X2.  [extract_json_block] has two outcomes.  Either the text splits as
    a part without opening brace, a brace block and a rest, and the block
    is returned; or no such split exists and the result is the text with
    the code fences removed and the surrounding whitespace stripped. *)
Theorem json_block_cases (text : pystr) :
  (exists pre b post,
      text = pre ++ b ++ post /\ ~ In 123%N pre /\ balanced b
      /\ extract_json_block text = b)
  \/ ((forall pre b post, text = pre ++ b ++ post -> ~ In 123%N pre -> ~ balanced b)
      /\ extract_json_block text = strip (remove_fences 0 text)).
Proof. exact (extract_cases text). Qed.

(** X3.  The result of [extract_json_block] never starts or ends with
    whitespace.  A brace block is a fixed point of the extraction, so
    extracting again from a block that was found returns that block. *)
Theorem json_block_trimmed (text : pystr) :
  clean (extract_json_block text)
  /\ (forall b, balanced b -> extract_json_block b = b)
  /\ (forall pre b post,
        text = pre ++ b ++ post -> ~ In 123%N pre -> balanced b ->
        extract_json_block (extract_json_block text) = b).
Proof.
  assert (F : forall b, balanced b -> extract_json_block b = b).
  { intros b Hb. unfold extract_json_block.
    rewrite (extract_block b [] b []); [reflexivity | now rewrite app_nil_r | intros [] | exact Hb]. }
  split; [|split; [exact F|]].
  - destruct (extract_cases text) as [[pre [b [post [Ht [Hpre [Hb E]]]]]] | [_ E]].
    + rewrite E. now apply balanced_clean.
    + rewrite E. apply strip_clean.
  - intros pre b post Ht Hpre Hb.
    assert (E : extract_json_block text = b).
    { unfold extract_json_block. now rewrite (extract_block text pre b post Ht Hpre Hb). }
    rewrite E. now apply F.
Qed.

(* ------------------------------------------------------------------ *)
(** ** The risk score *)

Section RiskFacts.

Local Open Scope Z_scope.

Variable U : unicode_tables.

(** The six conditions of the table decide the whole result. *)
Lemma analyze_unfold text :
  analyze_single_contract U text
  = let t := lower U text in
    let '(issues, score_penalty) := fold_left risk_step (rules t) ([], 0) in
    let final_score := Z.max 0 (100 - score_penalty) in
    (final_score,
     if final_score <? 60 then str "High"
     else if final_score <? 85 then str "Medium" else str "Low",
     issues).
Proof. reflexivity. Qed.

End RiskFacts.

(** X4.  The risk score is 100 minus the penalties of the issues listed,
    it always lies between 0 and 100 (the six penalties add up to 100, so
    the floor at 0 never cuts anything off), and the level is "High" below
    60, "Medium" from 60 to 84 and "Low" from 85 on. *)
Theorem risk_score_is_penalty_sum (U : unicode_tables) (text : pystr) :
  let '(score, level, issues) := analyze_single_contract U text in
  (score = 100 - total_penalty issues)%Z
  /\ (0 <= score <= 100)%Z
  /\ (level = str "High" <-> score < 60)%Z
  /\ (level = str "Medium" <-> 60 <= score < 85)%Z
  /\ (level = str "Low" <-> 85 <= score)%Z
  /\ (issues = [] <-> score = 100%Z).
Proof.
  rewrite analyze_unfold. unfold rules. cbv zeta.
  destruct (has_in (lower U text) "liability" && has_in (lower U text) "unlimited");
  destruct (has_in (lower U text) "terminate" && negb (has_in (lower U text) "notice"));
  destruct (has_in (lower U text) "arbitration");
  destruct (has_in (lower U text) "indemnif");
  destruct (has_in (lower U text) "perpetual" || has_in (lower U text) "indefinite");
  destruct (negb (has_in (lower U text) "force majeure"));
  vm_compute; intuition congruence.
Qed.

(** X5.  What the table implies for a reader of the score: a text with
    unlimited liability scores at most 70 and is never rated "Low"; one
    that adds a termination without notice is rated "High"; and a text
    that does not mention force majeure scores at most 90. *)
Theorem risk_score_consequences (U : unicode_tables) (text : pystr) :
  let '(score, level, issues) := analyze_single_contract U text in
  let t := lower U text in
  (has_in t "liability" && has_in t "unlimited" = true ->
     (score <= 70)%Z /\ level <> str "Low")
  /\ (has_in t "liability" && has_in t "unlimited" = true ->
      has_in t "terminate" && negb (has_in t "notice") = true ->
      level = str "High")
  /\ (has_in t "force majeure" = false -> (score <= 90)%Z).
Proof.
  rewrite analyze_unfold. unfold rules. cbv zeta.
  destruct (has_in (lower U text) "liability" && has_in (lower U text) "unlimited");
  destruct (has_in (lower U text) "terminate" && negb (has_in (lower U text) "notice"));
  destruct (has_in (lower U text) "arbitration");
  destruct (has_in (lower U text) "indemnif");
  destruct (has_in (lower U text) "perpetual" || has_in (lower U text) "indefinite");
  destruct (has_in (lower U text) "force majeure");
  vm_compute; intuition congruence.
Qed.

Lemma risk_score_consequences_witness :
  let text := str "Liability is unlimited. Either party may terminate." in
  let '(score, level, issues) := analyze_single_contract ascii_tables text in
  ((score <= 70)%Z /\ level <> str "Low")
  /\ level = str "High"
  /\ (score <= 90)%Z.
Proof.
  pose proof (risk_score_consequences ascii_tables
                (str "Liability is unlimited. Either party may terminate.")) as H.
  cbv zeta in *.
  destruct (analyze_single_contract ascii_tables
              (str "Liability is unlimited. Either party may terminate."))
    as [[score level] issues].
  destruct H as [H1 [H2 H3]].
  split; [apply H1; reflexivity | split; [apply H2; reflexivity | apply H3; reflexivity]].
Defined.

Section SharedRules.

Variable U : unicode_tables.

(** When the compliance check emits its two messages on liability and
    notice. *)
Lemma shared_flags text :
  (In MSG_UNLIMITED (clause_flags U text)
   <-> has_in (lower U text) "liability" && has_in (lower U text) "unlimited" = true)
  /\ (In MSG_NOTICE (clause_flags U text)
      <-> has_in (lower U text) "terminate" && negb (has_in (lower U text) "notice")
          = true).
Proof.
  unfold clause_flags. cbv zeta.
  destruct (has_in (lower U text) "liability" && has_in (lower U text) "unlimited");
  destruct (has_in (lower U text) "terminate" && negb (has_in (lower U text) "notice"));
  destruct (has_in (lower U text) "personal data" && negb (has_in (lower U text) "consent"));
  destruct (has_in (lower U text) "data retention" && negb (has_in (lower U text) "duration"));
  destruct (has_in (lower U text) "transfer" && has_in (lower U text) "outside"
            && negb (has_in (lower U text) "protection"));
  destruct (has_in (lower U text) "dispute" && negb (has_in (lower U text) "arbitration")
            && negb (has_in (lower U text) "court"));
  vm_compute; intuition congruence.
Qed.

(** When the risk score lists the two issues on liability and notice. *)
Lemma shared_issues text :
  let '(score, level, issues) := analyze_single_contract U text in
  (In (str "Unlimited Liability") issues
   <-> has_in (lower U text) "liability" && has_in (lower U text) "unlimited" = true)
  /\ (In (str "Missing Termination Notice") issues
      <-> has_in (lower U text) "terminate" && negb (has_in (lower U text) "notice")
          = true).
Proof.
  rewrite analyze_unfold. unfold rules. cbv zeta.
  destruct (has_in (lower U text) "liability" && has_in (lower U text) "unlimited");
  destruct (has_in (lower U text) "terminate" && negb (has_in (lower U text) "notice"));
  destruct (has_in (lower U text) "arbitration");
  destruct (has_in (lower U text) "indemnif");
  destruct (has_in (lower U text) "perpetual" || has_in (lower U text) "indefinite");
  destruct (negb (has_in (lower U text) "force majeure"));
  vm_compute; intuition congruence.
Qed.

End SharedRules.

(** X6.  The risk score and the compliance check agree on the two rules
    they share: for the same text, the unlimited-liability message is
    among the flags exactly when "Unlimited Liability" is among the
    issues, and the missing-notice message exactly when "Missing
    Termination Notice" is. *)
Theorem risk_agrees_with_compliance (U : unicode_tables) (text : pystr) :
  let '(score, level, issues) := analyze_single_contract U text in
  (In MSG_UNLIMITED (clause_flags U text) <-> In (str "Unlimited Liability") issues)
  /\ (In MSG_NOTICE (clause_flags U text)
      <-> In (str "Missing Termination Notice") issues).
Proof.
  pose proof (shared_issues U text) as I.
  destruct (analyze_single_contract U text) as [[score level] issues].
  destruct (shared_flags U text) as [F1 F2]. destruct I as [I1 I2].
  split.
  - rewrite F1, I1. reflexivity.
  - rewrite F2, I2. reflexivity.
Qed.

(* ------------------------------------------------------------------ *)
(** ** Further properties of the matcher and the compliance check *)

Section MatcherMore.

Variable U : unicode_tables.

Lemma subseq_refl {A} (l : list A) : subseq l l.
Proof. induction l; constructor; assumption. Qed.

Lemma subseq_filter {A} (f : A -> bool) (l : list A) : subseq (filter f l) l.
Proof.
  induction l as [|x l IH]; simpl; [constructor|].
  destruct (f x); constructor; exact IH.
Qed.

Lemma subseq_length {A} (l full : list A) : subseq l full -> length l <= length full.
Proof. induction 1; simpl; lia. Qed.

Lemma match_result reg text :
  match_regulation_to_contract U reg text
  = ((Z.of_nat (length (found_keywords U reg text)) * 2)%Z, found_keywords U reg text).
Proof.
  unfold match_regulation_to_contract, found_keywords, keywords_of.
  now rewrite match_fold_filter.
Qed.

End MatcherMore.

(** X7.  The matched list of [match_regulation_to_contract] is the keyword
    list with the entries left out whose lowered form is not in the
    lowered text, in the same order; the score is twice its length, so it
    is even and lies between 0 and twice the number of keywords; it is 0
    exactly when no keyword passes that test.  For a text and keywords in
    ASCII the score is positive exactly when some keyword occurs in the
    text up to the case of the letters. *)
Theorem match_score_bounds (U : unicode_tables) (reg : regulation) (text : pystr) :
  let '(score, matches) := match_regulation_to_contract U reg text in
  (0 <= score <= 2 * Z.of_nat (length (keywords_of reg)))%Z
  /\ Z.even score = true
  /\ score = (2 * Z.of_nat (length matches))%Z
  /\ matches = filter (fun kw => contains (lower U text) (lower U kw)) (keywords_of reg)
  /\ subseq matches (keywords_of reg)
  /\ (score = 0%Z
      <-> forall kw, In kw (keywords_of reg) -> ~ substring (lower U kw) (lower U text))
  /\ (forallb is_ascii text = true ->
      Forall (fun kw => forallb is_ascii kw = true) (keywords_of reg) ->
      ((0 < score)%Z
       <-> exists kw, In kw (keywords_of reg) /\ occurs_caseless kw text)).
Proof.
  rewrite match_result.
  pose proof (subseq_filter (occurs_ignoring_caseb U text) (keywords_of reg)) as S.
  fold (found_keywords U reg text) in S.
  pose proof (subseq_length _ _ S) as L.
  assert (M : forall kw, In kw (found_keywords U reg text)
                 <-> In kw (keywords_of reg) /\ substring (lower U kw) (lower U text)).
  { intros kw. unfold found_keywords.
    rewrite filter_In. unfold occurs_ignoring_caseb. now rewrite contains_spec. }
  assert (C : found_keywords U reg text = []
              \/ exists kw, In kw (found_keywords U reg text)).
  { destruct (found_keywords U reg text) as [|kw l]; [now left|].
    right. exists kw. now left. }
  assert (P : forall kw, In kw (found_keywords U reg text) ->
                (0 < Z.of_nat (length (found_keywords U reg text)) * 2)%Z).
  { intros kw Hf. destruct (found_keywords U reg text); [contradiction|].
    simpl length. lia. }
  split; [lia|]. split; [rewrite Z.even_mul; simpl; apply orb_true_r|].
  split; [lia|]. split; [reflexivity|]. split; [exact S|]. split.
  - split.
    + intros Z0 kw Hin Hsub.
      assert (Hf : In kw (found_keywords U reg text)) by (apply M; now split).
      apply P in Hf. lia.
    + intros Hno. destruct C as [C | [kw Hf]]; [now rewrite C|].
      exfalso. apply M in Hf as [Hin Hsub]. exact (Hno kw Hin Hsub).
  - intros Ht Hk. rewrite Forall_forall in Hk. split.
    + intros Hpos. destruct C as [C | [kw Hf]].
      * rewrite C in Hpos. simpl in Hpos. lia.
      * apply M in Hf as [Hin Hsub]. exists kw. split; [exact Hin|].
        now apply (lowered_occurs U kw text Ht (Hk kw Hin)).
    + intros [kw [Hin Hocc]]. apply (P kw). apply M. split; [exact Hin|].
      now apply (lowered_occurs U kw text Ht (Hk kw Hin)).
Qed.

(** X8.  Matching composes over the keyword list: for a keyword list made
    of two parts, the matches are the matches of the first part followed
    by those of the second, and the score is the sum of the two scores.
    So adding keywords never lowers the score. *)
Theorem match_score_additive (U : unicode_tables) (reg : regulation)
    (kws1 kws2 : list pystr) (text : pystr) :
  let '(s1, m1) := match_regulation_to_contract U (with_keywords reg kws1) text in
  let '(s2, m2) := match_regulation_to_contract U (with_keywords reg kws2) text in
  match_regulation_to_contract U (with_keywords reg (kws1 ++ kws2)) text
  = ((s1 + s2)%Z, m1 ++ m2)
  /\ (s1 <= s1 + s2)%Z.
Proof.
  rewrite !match_result. unfold found_keywords, keywords_of, with_keywords.
  cbn [keywords]. rewrite filter_app, length_app. split; [f_equal; lia | lia].
Qed.

(** X9.  The empty string is a keyword that every text contains: a
    regulation that lists it has a positive score against any text, and
    the empty string is among the matches. *)
Theorem empty_keyword_always_matches (U : unicode_tables) (reg : regulation)
    (text : pystr) :
  In [] (keywords_of reg) ->
  let '(score, matches) := match_regulation_to_contract U reg text in
  (0 < score)%Z /\ In [] matches.
Proof.
  intros Hin. rewrite match_result.
  assert (Hf : In [] (found_keywords U reg text)).
  { unfold found_keywords. apply filter_In. split; [exact Hin|].
    unfold occurs_ignoring_caseb. change (lower U []) with (@nil char).
    destruct (lower U text); reflexivity. }
  split; [|exact Hf].
  destruct (found_keywords U reg text); [contradiction | simpl length; lia].
Qed.

Lemma empty_keyword_always_matches_witness :
  let reg := Build_regulation None None None None None (Some [str "gdpr"; []]) None in
  let '(score, matches) := match_regulation_to_contract ascii_tables reg (str "Lease") in
  (0 < score)%Z /\ In [] matches.
Proof.
  apply (empty_keyword_always_matches ascii_tables
           (Build_regulation None None None None None (Some [str "gdpr"; []]) None)
           (str "Lease")).
  simpl. right. left. reflexivity.
Defined.

(** X10.  The flags of one clause are a selection of the six messages in
    the order of the rules: no message twice, never more than six, and
    never in another order. *)
Theorem clause_flags_ordered (U : unicode_tables) (text : pystr) :
  subseq (clause_flags U text) ALL_MESSAGES
  /\ length (clause_flags U text) <= 6
  /\ NoDup (clause_flags U text).
Proof.
  unfold clause_flags. cbv zeta.
  destruct (has_in (lower U text) "liability" && has_in (lower U text) "unlimited");
  destruct (has_in (lower U text) "terminate" && negb (has_in (lower U text) "notice"));
  destruct (has_in (lower U text) "personal data" && negb (has_in (lower U text) "consent"));
  destruct (has_in (lower U text) "data retention" && negb (has_in (lower U text) "duration"));
  destruct (has_in (lower U text) "transfer" && has_in (lower U text) "outside"
            && negb (has_in (lower U text) "protection"));
  destruct (has_in (lower U text) "dispute" && negb (has_in (lower U text) "arbitration")
            && negb (has_in (lower U text) "court"));
  (split;
   [ cbn [app]; unfold ALL_MESSAGES;
     repeat first [apply subseq_nil | apply subseq_take | apply subseq_skip]
   | split;
     [ cbn [app length]; lia
     | cbn [app]; repeat (constructor; [vm_compute; intuition congruence|]);
       constructor ] ]).
Qed.

(* ------------------------------------------------------------------ *)
(** ** Further properties of segmentation, reassembly and injection *)

Section SegmentMore.

Variable U : unicode_tables.

(** [strip] leaves a clean string as it is. *)
Lemma strip_of_clean s : clean s -> strip s = s.
Proof.
  intros [Hf Hl]. unfold strip.
  assert (E : lstrip s = s).
  { destruct s as [|x t]; [reflexivity|].
    unfold lstrip. simpl. now rewrite (Hf x t eq_refl). }
  rewrite E. unfold rstrip.
  destruct (rev s) as [|y r] eqn:Er.
  - simpl. apply (f_equal (@rev char)) in Er. rewrite rev_involutive in Er. now rewrite Er.
  - assert (Es : s = rev r ++ [y]).
    { apply (f_equal (@rev char)) in Er. rewrite rev_involutive in Er. exact Er. }
    simpl. rewrite (Hl (rev r) y Es). simpl. now rewrite Es.
Qed.

Lemma strip_idempotent s : strip (strip s) = strip s.
Proof. apply strip_of_clean, strip_clean. Qed.

(** A stripped line that the heading pattern accepts. *)
Lemma matched_line_detected ln :
  re_match U HEADING_RE (strip ln) = true -> detected_heading (strip ln).
Proof.
  intros M. apply heading_match_spec in M as [a [b [E [F [L Hb]]]]].
  destruct Hb as [-> | ->].
  - rewrite app_nil_r in E. rewrite E.
    split; [exact F | split; [exact L|]]. rewrite <- E. apply strip_idempotent.
  - exfalso. exact (trimmed_no_final_newline (strip ln) a (strip_idempotent ln) E).
Qed.

Lemma preamble_clean : strip Preamble = Preamble.
Proof. reflexivity. Qed.

Lemma heading_fixed h : h = Preamble \/ detected_heading h -> strip h = h.
Proof. intros [-> | [_ [_ E]]]; [apply preamble_clean | exact E]. Qed.

Lemma seg_step_inv st ln : seg_inv st -> seg_inv (seg_step U st ln).
Proof.
  intros [Hc [Hs [Ht Hd]]]. unfold seg_step.
  destruct (str_eqb (strip ln) []);
    [unfold seg_inv; cbn [sections current_heading]; tauto|].
  destruct (re_match U HEADING_RE (strip ln)) eqn:M;
    [|unfold seg_inv; cbn [sections current_heading]; tauto].
  pose proof (matched_line_detected ln M) as D.
  unfold seg_inv. cbn [sections current_heading].
  destruct (truthy (current_lines st) || truthy (sections st)).
  - split; [now right | split; [|split; [|intros _; exact D]]].
    + apply Forall_app. split; [exact Hs|].
      constructor; [|constructor]. cbn [fst]. now rewrite (heading_fixed _ Hc).
    + destruct (sections st) as [|s0 tl0] eqn:Es.
      * constructor.
      * cbn [tl app] in *. apply Forall_app. split; [exact Ht|].
        constructor; [|constructor]. cbn [fst]. rewrite (heading_fixed _ Hc).
        apply Hd. discriminate.
  - split; [now right | split; [exact Hs | split; [exact Ht | intros _; exact D]]].
Qed.

Lemma seg_fold_inv lines st :
  seg_inv st -> seg_inv (fold_left (seg_step U) lines st).
Proof.
  revert st. induction lines as [|ln lines IH]; intros st H; simpl; [exact H|].
  apply IH, seg_step_inv, H.
Qed.

Lemma seg_init_inv : seg_inv seg_init.
Proof.
  unfold seg_inv, seg_init. cbn [sections current_heading tl].
  split; [now left | split; [constructor | split; [constructor | intros H; now elim H]]].
Qed.

(** Every body stored by the loop went through [strip]. *)
Lemma seg_fold_bodies lines st :
  Forall (fun sec : section => clean (snd sec)) (sections st) ->
  Forall (fun sec : section => clean (snd sec))
         (sections (fold_left (seg_step U) lines st)).
Proof.
  revert st. induction lines as [|ln lines IH]; intros st H; simpl; [exact H|].
  apply IH. unfold seg_step.
  destruct (str_eqb (strip ln) []); [exact H|].
  destruct (re_match U HEADING_RE (strip ln)); [|exact H].
  cbn [sections].
  destruct (truthy (current_lines st) || truthy (sections st)); [|exact H].
  apply Forall_app. split; [exact H|].
  constructor; [apply strip_clean | constructor].
Qed.

Lemma split_bodies_clean text :
  Forall (fun sec : section => clean (snd sec)) (split_into_sections U text).
Proof.
  unfold split_into_sections. apply Forall_app. split.
  - apply seg_fold_bodies. constructor.
  - constructor; [apply strip_clean | constructor].
Qed.

End SegmentMore.

(** A body that is not empty is one of the lines that [sections_to_text]
    joins. *)
Lemma text_fold_emits_body secs out h c :
  In (h, c) secs -> c <> [] -> In c (fold_left text_step secs out).
Proof.
  revert out. induction secs as [|sec secs IH]; intros out Hin Hne; [contradiction|].
  simpl. destruct Hin as [-> | Hin].
  - apply text_fold_keeps. unfold text_step.
    assert (T : truthy c = true) by (destruct c; [contradiction | reflexivity]).
    rewrite T.
    destruct (truthy h && negb (str_eqb h Preamble)); rewrite !in_app_iff; simpl; tauto.
  - apply IH; assumption.
Qed.

(** X11.  The sections returned by [split_into_sections] have a fixed
    shape: the first heading is "Preamble" or a detected heading, every
    later heading is a detected heading (heading characters only, at least
    three, no whitespace at either end), and every body is stripped. *)
Theorem sections_shape (U : unicode_tables) (text : pystr) :
  exists first rest,
    split_into_sections U text = first :: rest
    /\ (fst first = Preamble \/ detected_heading (fst first))
    /\ Forall (fun s : section => detected_heading (fst s)) rest
    /\ Forall (fun s : section => clean (snd s)) (first :: rest).
Proof.
  pose proof (split_bodies_clean U text) as B.
  unfold split_into_sections in *.
  pose proof (seg_fold_inv U (map rstrip (splitlines text)) seg_init seg_init_inv)
    as [Hc [Hs [Ht Hd]]].
  set (st := fold_left (seg_step U) (map rstrip (splitlines text)) seg_init) in *.
  rewrite (heading_fixed _ Hc) in B |- *.
  destruct (sections st) as [|s0 tl0] eqn:Es.
  - exists (current_heading st, strip (join NL (current_lines st))), [].
    split; [reflexivity|].
    split; [exact Hc | split; [constructor | exact B]].
  - exists s0, (tl0 ++ [(current_heading st, strip (join NL (current_lines st)))]).
    split; [reflexivity|].
    inversion Hs as [|? ? H0 _]; subst.
    split; [exact H0 | split; [|exact B]].
    cbn [tl] in Ht. apply Forall_app. split; [exact Ht|].
    constructor; [|constructor]. apply Hd. discriminate.
Qed.

(** X12.  Every body in the output of [split_into_sections] occurs
    verbatim in the text that [sections_to_text] rebuilds from it. *)
Theorem bodies_reappear (U : unicode_tables) (text h c : pystr) :
  In (h, c) (split_into_sections U text) ->
  substring c (sections_to_text (split_into_sections U text)).
Proof.
  intros Hin.
  destruct c as [|x t] eqn:Ec; [apply substring_nil|]. rewrite <- Ec in *.
  assert (Hne : c <> []) by (rewrite Ec; discriminate).
  pose proof (split_bodies_clean U text) as B.
  rewrite Forall_forall in B. specialize (B _ Hin). cbn [snd] in B.
  unfold sections_to_text. apply substring_strip; [exact Hne | exact B |].
  apply substring_join. eapply text_fold_emits_body; eassumption.
Qed.

Lemma bodies_reappear_witness :
  substring (str "This agreement terminates with 30 days notice.")
    (sections_to_text (split_into_sections ascii_tables scenario_document)).
Proof.
  apply (bodies_reappear ascii_tables scenario_document (str "TERM AND TERMINATION")).
  vm_compute. left. reflexivity.
Defined.

Section InjectMore.

Variable U : unicode_tables.

(** A match starts inside the text or at its end. *)
Lemma search_from_bound ml p s :
  forall prev i j, search_from U ml p prev s i = Some j -> i <= j <= i + length s.
Proof.
  induction s as [|c s IH]; intros prev i j H; simpl in H.
  - destruct (match_here U ml p prev []); [|discriminate].
    injection H as <-. simpl. lia.
  - destruct (match_here U ml p prev (c :: s)).
    + injection H as <-. simpl. lia.
    + apply IH in H. simpl. lia.
Qed.

Lemma scan_patterns_none ps text d :
  (forall p, In p ps -> re_search_multiline U p text = None) ->
  scan_patterns U ps text d = d.
Proof.
  induction ps as [|p ps IH]; intros H; simpl; [reflexivity|].
  rewrite (H p (or_introl eq_refl)). apply IH. intros q Hq. apply H. now right.
Qed.

End InjectMore.

(** X13.  No-anchor fallback: when none of the anchor patterns matches the
    original text, the result is the original text, a blank line and the
    clause, so the clause comes after all the original content. *)
Theorem no_anchor_appends (U : unicode_tables) (original clause : pystr) :
  (forall p, In p target_patterns -> re_search_multiline U p original = None) ->
  find_insertion_index U original = (-1)%Z
  /\ inject_clause_smartly U original clause = original ++ NL ++ NL ++ clause.
Proof.
  intros Hnone.
  assert (E : find_insertion_index U original = (-1)%Z)
    by (apply scan_patterns_none; exact Hnone).
  split; [exact E | exact (inject_fallback U original clause E)].
Qed.

Lemma no_anchor_appends_witness :
  find_insertion_index ascii_tables (str "Payment is due in 30 days.") = (-1)%Z
  /\ inject_clause_smartly ascii_tables (str "Payment is due in 30 days.") (str "NEW")
     = str "Payment is due in 30 days." ++ NL ++ NL ++ str "NEW".
Proof.
  apply (no_anchor_appends ascii_tables (str "Payment is due in 30 days.") (str "NEW")).
  intros p Hp. simpl in Hp.
  repeat (destruct Hp as [<- | Hp]; [vm_compute; reflexivity|]). contradiction.
Defined.

(** X14.  The insertion index is either the sentinel -1 or an offset into
    the text, so the two slices taken at it never reach outside the text;
    and it is -1 exactly when no anchor pattern matches. *)
Theorem insertion_index_range (U : unicode_tables) (text : pystr) :
  (-1 <= find_insertion_index U text <= Z.of_nat (length text))%Z
  /\ (find_insertion_index U text = (-1)%Z
      <-> forall p, In p target_patterns -> re_search_multiline U p text = None).
Proof.
  unfold find_insertion_index.
  destruct (scan_patterns_cases U target_patterns text (-1))
    as [[Hd Hnone] | [q [i [Hq [Hs Hi]]]]].
  - rewrite Hd. split; [len_lia|]. split; [intros _; exact Hnone | reflexivity].
  - rewrite Hi. pose proof Hs as Hb. unfold re_search_multiline in Hb.
    apply search_from_bound in Hb. split; [len_lia|]. split.
    + intros E. lia.
    + intros Hnone. rewrite (Hnone q Hq) in Hs. discriminate.
Qed.

(* ------------------------------------------------------------------ *)
(** ** Inline updates *)

Section MarkerFacts.

Variable U : unicode_tables.

Lemma rep_match_one inb k prev x s :
  rep_match inb k 1 (Some 1) prev (x :: s) = inb x && k (Some x) s.
Proof. destruct s; simpl; now rewrite orb_false_r. Qed.

(** A pattern of single characters does not look behind. *)
Lemma word_pattern_match ml cs prev s :
  match_here U ml (map One cs) prev s = word_match U cs s.
Proof.
  revert prev s. induction cs as [|c cs IH]; intros prev s; [reflexivity|].
  destruct s as [|x s]; [reflexivity|].
  change (match_here U ml (map One (c :: cs)) prev (x :: s))
    with (rep_match (in_cset U c) (match_here U ml (map One cs)) 1 (Some 1) prev (x :: s)).
  rewrite rep_match_one, IH. reflexivity.
Qed.

Lemma marker_is_word : UPDATE_MARKER = map One marker_csets.
Proof. reflexivity. Qed.

Lemma word_match_app cs w rest :
  word_match U cs w = true -> word_match U cs (w ++ rest) = true.
Proof.
  revert w. induction cs as [|c cs IH]; intros w H; [reflexivity|].
  destruct w as [|x w]; [discriminate|]. simpl in *.
  apply andb_true_iff in H as [Hx Hw]. rewrite Hx. simpl. now apply IH.
Qed.

(** The search succeeds exactly when the word starts somewhere. *)
Lemma word_search_spec cs s :
  forall prev i,
    (exists j, search_from U false (map One cs) prev s i = Some j)
    <-> exists a r, s = a ++ r /\ word_match U cs r = true.
Proof.
  induction s as [|c s IH]; intros prev i; simpl; rewrite word_pattern_match.
  - destruct (word_match U cs []) eqn:M.
    + split; [intros _; now exists [], [] | intros _; now exists i].
    + split; [intros [j H]; discriminate|].
      intros [a [r [E Hr]]]. symmetry in E. apply app_eq_nil in E as [_ ->]. congruence.
  - destruct (word_match U cs (c :: s)) eqn:M.
    + split; [intros _; now exists [], (c :: s) | intros _; now exists i].
    + rewrite IH. split.
      * intros [a [r [E Hr]]]. exists (c :: a), r. split; [now rewrite E | exact Hr].
      * intros [[|x a] [r [E Hr]]].
        -- simpl in E. subst r. congruence.
        -- injection E as _ E. now exists a, r.
Qed.

Lemma marked_spec s :
  marked U s = true <-> exists a r, s = a ++ r /\ word_match U marker_csets r = true.
Proof.
  unfold marked, re_search. rewrite marker_is_word.
  rewrite <- (word_search_spec marker_csets s None 0). split.
  - destruct (search_from U false (map One marker_csets) None s 0) as [j|];
      [intros _; now exists j | discriminate].
  - intros [j ->]. reflexivity.
Qed.

(** A text that contains the marker as written is marked. *)
Lemma marked_substring s : substring marker_word s -> marked U s = true.
Proof.
  intros [a [b ->]]. apply marked_spec. exists a, (marker_word ++ b).
  split; [reflexivity|]. apply word_match_app. reflexivity.
Qed.

(** [strip] removes whitespace at both ends only. *)
Lemma strip_split s : exists ws1 ws2, s = ws1 ++ strip s ++ ws2.
Proof.
  destruct (dropwhile_split isspace s) as [ws1 [E1 _]].
  destruct (rstrip_split (lstrip s)) as [ws2 [E2 _]].
  exists ws1, ws2. unfold strip. fold (lstrip s) in E1. now rewrite <- E2.
Qed.

Lemma marked_strip s : marked U s = false -> marked U (strip s) = false.
Proof.
  intros H. destruct (marked U (strip s)) eqn:M; [|reflexivity].
  apply marked_spec in M as [a [r [E Hr]]].
  destruct (strip_split s) as [ws1 [ws2 Es]].
  assert (marked U s = true); [|congruence].
  apply marked_spec. exists (ws1 ++ a), (r ++ ws2).
  split; [|now apply word_match_app].
  rewrite Es at 1. rewrite E. now rewrite <- !app_assoc.
Qed.

Lemma split_head_unmarked s : marked U s = false -> split_head U UPDATE_MARKER s = s.
Proof.
  unfold marked, split_head. destruct (re_search U UPDATE_MARKER s); [discriminate | reflexivity].
Qed.

Lemma marker_word_clean : clean marker_word.
Proof.
  split.
  - intros x t H. injection H as <- _. reflexivity.
  - intros t y H.
    change marker_word with (str "REGULATION UPDATE APPLIE" ++ [68%N]) in H.
    apply app_inj_tail in H as [_ <-]. reflexivity.
Qed.

(** The content written for an updated section is marked. *)
Lemma updated_content_marked content_clean u :
  starts_marked u ->
  marked U (strip (content_clean ++ NL ++ NL ++ strip u)) = true.
Proof.
  intros [tail ->]. apply marked_substring.
  assert (Hne : marker_word <> []) by discriminate.
  apply substring_strip; [exact Hne | exact marker_word_clean |].
  assert (S1 : substring marker_word (strip (marker_word ++ tail))).
  { apply substring_strip; [exact Hne | exact marker_word_clean |].
    now exists [], tail. }
  destruct S1 as [a [b E]]. rewrite E.
  exists (content_clean ++ NL ++ NL ++ a), b. now rewrite <- !app_assoc.
Qed.

End MarkerFacts.

Section UpdateFacts.

Variable U : unicode_tables.

Lemma update_block_starts reg kw block :
  update_block reg kw = Ok block -> starts_marked block.
Proof.
  unfold update_block, getitem.
  destruct (date_published reg) as [d|]; [|discriminate].
  destruct (title reg) as [t|]; [|discriminate].
  simpl. intros H. injection H as <-.
  exists (str " (" ++ d ++ str ")" ++ NL ++ str "Title: " ++ t ++ NL
          ++ str "Suggested Update: Parties agree to implement transparency measures regarding "
          ++ kw ++ str "." ++ NL ++ repeat 45%N 62 ++ NL ++ NL).
  reflexivity.
Qed.

Lemma starts_marked_app u v : starts_marked u -> starts_marked (u ++ v).
Proof. intros [tail ->]. exists (tail ++ v). now rewrite <- app_assoc. Qed.

(** The loop over the regulations: the flag is raised when some
    regulation hits, and what is gathered then starts with the marker. *)
Lemma regs_loop_spec sec_text regs :
  forall acc ins u ins',
    regs_loop U sec_text regs acc ins = Ok (u, ins') ->
    ins' = ins || existsb (reg_hits U sec_text) regs
    /\ (existsb (reg_hits U sec_text) regs = false -> u = acc)
    /\ (existsb (reg_hits U sec_text) regs = true ->
        acc = [] \/ starts_marked acc -> starts_marked u).
Proof.
  induction regs as [|reg regs IH]; intros acc ins u ins' H; simpl in H.
  - injection H as <- <-. simpl. rewrite orb_false_r.
    split; [reflexivity | split; [reflexivity | discriminate]].
  - cbn [existsb]. unfold reg_hits at 1 3 5. unfold keywords_of.
    destruct (first_keyword U sec_text
                (match keywords reg with Some l => l | None => [] end)) as [kw|].
    + destruct (update_block reg kw) as [block|key] eqn:B; [|discriminate].
      simpl in H. destruct (IH _ _ _ _ H) as [E1 [E2 E3]].
      pose proof (update_block_starts reg kw block B) as SB.
      assert (SA : acc = [] \/ starts_marked acc -> starts_marked (acc ++ block)).
      { intros [-> | SA]; [exact SB | now apply starts_marked_app]. }
      simpl. split; [rewrite E1; now rewrite orb_true_r | split; [discriminate|]].
      intros _ Hacc.
      destruct (existsb (reg_hits U sec_text) regs).
      * apply E3; [reflexivity | right; now apply SA].
      * rewrite (E2 eq_refl). now apply SA.
    + simpl. apply IH. exact H.
Qed.

(** With regulations that can be formatted the loop does not raise. *)
Lemma regs_loop_ok sec_text regs :
  Forall printable regs ->
  forall acc ins, exists u ins', regs_loop U sec_text regs acc ins = Ok (u, ins').
Proof.
  induction 1 as [|reg regs [Hd Ht] _ IH]; intros acc ins; simpl.
  - now exists acc, ins.
  - destruct (first_keyword U sec_text
                (match keywords reg with Some l => l | None => [] end)) as [kw|];
      [|apply IH].
    unfold update_block, getitem.
    destruct (date_published reg); [|contradiction].
    destruct (title reg); [|contradiction].
    simpl. apply IH.
Qed.

(** What one iteration appends: the heading with the content unchanged,
    stripped, or extended by the updates; the result is stable under a
    further iteration. *)
Lemma update_step_spec regs acc ins sec acc' ins' :
  update_step U regs (acc, ins) sec = Ok (acc', ins') ->
  exists c',
    acc' = acc ++ [(fst sec, c')]
    /\ ins' = ins || touched U regs sec
    /\ (marked U (snd sec) = true -> c' = snd sec)
    /\ (touched U regs sec = false -> marked U (snd sec) = false -> c' = strip (snd sec))
    /\ (forall acc2 ins2,
          update_step U regs (acc2, ins2) (fst sec, c') = Ok (acc2 ++ [(fst sec, c')], ins2)).
Proof.
  destruct sec as [h c]. unfold update_step, touched. cbn [fst snd].
  assert (Stable : forall c', marked U c' = true ->
            forall acc2 ins2,
              update_step U regs (acc2, ins2) (h, c') = Ok (acc2 ++ [(h, c')], ins2)).
  { intros c' M acc2 ins2. unfold update_step. unfold marked in M.
    destruct (re_search U UPDATE_MARKER c'); [reflexivity | discriminate]. }
  destruct (re_search U UPDATE_MARKER c) as [i|] eqn:S.
  - intros H. injection H as <- <-.
    assert (M : marked U c = true) by (unfold marked; now rewrite S).
    exists c. rewrite M. simpl. rewrite orb_false_r.
    split; [reflexivity | split; [reflexivity | split; [reflexivity|]]].
    split; [discriminate | now apply Stable].
  - assert (M : marked U c = false) by (unfold marked; now rewrite S).
    rewrite M. cbn [negb andb].
    rewrite (split_head_unmarked U c M).
    change (lower U (h ++ NL ++ strip c)) with (section_text U (h, c)).
    destruct (regs_loop U (section_text U (h, c)) regs [] ins) as [[u i']|key] eqn:R;
      [|discriminate].
    simpl. intros H. injection H as <- <-.
    destruct (regs_loop_spec _ _ _ _ _ _ R) as [E1 [E2 E3]].
    destruct (existsb (reg_hits U (section_text U (h, c))) regs) eqn:Ex.
    + assert (SU : starts_marked u) by (apply E3; [reflexivity | now left]).
      assert (T : truthy u = true) by (destruct SU as [tail ->]; reflexivity).
      rewrite T. exists (strip (strip c ++ NL ++ NL ++ strip u)).
      split; [reflexivity | split; [exact E1 | split; [discriminate|]]].
      split; [discriminate|].
      apply Stable. now apply updated_content_marked.
    + rewrite (E2 eq_refl). simpl truthy. cbv iota.
      exists (strip c).
      split; [reflexivity | split; [exact E1 | split; [discriminate|]]].
      split; [reflexivity|].
      intros acc2 ins2. unfold update_step.
      assert (M' : marked U (strip c) = false) by now apply marked_strip.
      unfold marked in M'.
      destruct (re_search U UPDATE_MARKER (strip c)) eqn:S'; [discriminate|].
      assert (M'' : marked U (strip c) = false) by (unfold marked; now rewrite S').
      rewrite (split_head_unmarked U (strip c) M''), strip_idempotent.
      match goal with
      | |- context [regs_loop U ?t regs [] ins2] =>
          destruct (regs_loop U t regs [] ins2) as [[u2 i2]|key] eqn:R2
      end.
      * destruct (regs_loop_spec (section_text U (h, c)) regs [] ins2 u2 i2 R2)
          as [F1 [F2 _]].
        rewrite Ex in F1, F2. rewrite (F2 eq_refl), F1. simpl.
        now rewrite orb_false_r.
      * exfalso.
        assert (R2' : regs_loop U (section_text U (h, c)) regs [] ins2 = KeyError key)
          by exact R2.
        clear - R2' Ex. rename R2' into R2.
        revert R2. generalize (@nil char) as a. generalize ins2 as b.
        induction regs as [|reg regs IH]; intros b a R2; [discriminate|].
        simpl in R2, Ex. apply orb_false_iff in Ex as [E0 Er].
        unfold reg_hits, keywords_of in E0.
        destruct (first_keyword U (section_text U (h, c))
                    (match keywords reg with Some l => l | None => [] end));
          [discriminate|].
        exact (IH Er b a R2).
Qed.

(** The loop over the sections. *)
Lemma update_loop_spec regs secs :
  forall acc ins res b,
    update_loop U regs secs (acc, ins) = Ok (res, b) ->
    exists new,
      res = acc ++ new
      /\ map fst new = map fst secs
      /\ b = ins || existsb (touched U regs) secs
      /\ (forall acc2 ins2,
            update_loop U regs new (acc2, ins2) = Ok (acc2 ++ new, ins2))
      /\ Forall2 (fun sec sec' =>
                    (marked U (snd sec) = true -> snd sec' = snd sec)
                    /\ (touched U regs sec = false -> marked U (snd sec) = false ->
                        snd sec' = strip (snd sec))) secs new.
Proof.
  induction secs as [|sec secs IH]; intros acc ins res b H; cbn [update_loop] in H.
  - injection H as <- <-. exists []. rewrite app_nil_r. simpl. rewrite orb_false_r.
    repeat split; try reflexivity.
    + intros acc2 ins2. simpl. now rewrite app_nil_r.
    + constructor.
  - destruct (update_step U regs (acc, ins) sec) as [[acc' ins']|key] eqn:S;
      cbn [bind] in H; [|discriminate].
    destruct (update_step_spec _ _ _ _ _ _ S) as [c' [Ea [Ei [Hm [Hs Hst]]]]].
    destruct (IH _ _ _ _ H) as [new [Er [Eh [Eb [Hl HF]]]]].
    exists ((fst sec, c') :: new).
    split; [rewrite Er, Ea; now rewrite <- app_assoc|].
    split; [simpl; now rewrite Eh|].
    split; [rewrite Eb, Ei; simpl; now rewrite orb_assoc|].
    split.
    + intros acc2 ins2. cbn [update_loop]. rewrite Hst. cbn [bind]. rewrite Hl.
      now rewrite <- app_assoc.
    + constructor; [split; assumption | exact HF].
Qed.

Lemma update_loop_ok regs secs :
  Forall printable regs ->
  forall st, exists res b, update_loop U regs secs st = Ok (res, b).
Proof.
  intros P. induction secs as [|[h c] secs IH]; intros [acc ins];
    cbn [update_loop].
  - now exists acc, ins.
  - unfold update_step.
    destruct (re_search U UPDATE_MARKER c); [cbn [bind]; apply IH|].
    match goal with
    | |- context [regs_loop U ?t regs [] ins] =>
        destruct (regs_loop_ok t regs P [] ins) as [u [i' R]]; rewrite R
    end.
    cbn [bind]. apply IH.
Qed.

End UpdateFacts.



(** X16.  Applying the updates a second time changes nothing: the marker
    written by the first pass makes every updated section be skipped, the
    other sections are hit by no regulation, and the second pass reports
    that nothing was inserted. *)
Theorem updates_idempotent (U : unicode_tables) (secs new : list section)
    (regs : list regulation) (inserted_any : bool) :
  apply_updates_inline U secs regs = Ok (new, inserted_any) ->
  apply_updates_inline U new regs = Ok (new, false).
Proof.
  intros H. unfold apply_updates_inline in *.
  destruct (update_loop_spec U regs secs [] false new inserted_any H)
    as [new' [Er [_ [_ [Hl _]]]]].
  simpl in Er. subst new'. exact (Hl [] false).
Qed.

Lemma updates_idempotent_witness :
  apply_updates_inline ascii_tables sample_updated [sample_regulation]
  = Ok (sample_updated, false).
Proof.
  apply (updates_idempotent ascii_tables sample_sections sample_updated
           [sample_regulation] true).
  vm_compute. reflexivity.
Defined.

(** X17.  With regulations that all carry [date_published] and [title],
    [apply_updates_inline] never raises, whatever the sections and
    whether or not [keywords] is present. *)
Theorem updates_total_on_printable (U : unicode_tables) (secs : list section)
    (regs : list regulation) :
  Forall printable regs ->
  exists new inserted_any, apply_updates_inline U secs regs = Ok (new, inserted_any).
Proof.
  intros P. exact (update_loop_ok U regs secs P ([], false)).
Qed.

Lemma updates_total_on_printable_witness :
  exists new inserted_any,
    apply_updates_inline ascii_tables sample_sections [sample_regulation]
    = Ok (new, inserted_any).
Proof.
  apply (updates_total_on_printable ascii_tables sample_sections [sample_regulation]).
  constructor; [split; discriminate | constructor].
Defined.



(* ------------------------------------------------------------------ *)
(** ** The regulation feed *)

Section FeedFacts.

Lemma str_eqb_refl x : str_eqb x x = true.
Proof. now apply str_eqb_eq. Qed.

Lemma str_in_app x l y : str_in x (l ++ [y]) = str_in x l || str_eqb x y.
Proof. unfold str_in. rewrite existsb_app. simpl. now rewrite orb_false_r. Qed.

Lemma existing_titles_app regs ts r t :
  existing_titles regs = Ok ts -> title r = Some t ->
  existing_titles (regs ++ [r]) = Ok (ts ++ [t]).
Proof.
  revert ts. induction regs as [|r0 regs IH]; intros ts H Ht; simpl in *.
  - injection H as <-. rewrite Ht. reflexivity.
  - destruct (title r0) as [t0|]; [|discriminate]. simpl in *.
    destruct (existing_titles regs) as [ts0|]; [|discriminate]. simpl in *.
    injection H as <-. now rewrite (IH ts0 eq_refl Ht).
Qed.

Lemma existing_titles_missing regs r :
  In r regs -> title r = None -> existing_titles regs = KeyError (str "title").
Proof.
  induction regs as [|r0 regs IH]; intros Hin Ht; [contradiction|]. simpl.
  destruct Hin as [-> | Hin].
  - now rewrite Ht.
  - destruct (title r0); [|reflexivity]. simpl. now rewrite (IH Hin Ht).
Qed.

(** The option picked is the first one whose title is not yet known. *)
Lemma pick_new_spec opts titles :
  Forall (fun o => title o <> None) opts ->
  match pick_new opts titles with
  | Some new =>
      exists before after t,
        opts = before ++ new :: after /\ title new = Some t /\ str_in t titles = false
        /\ Forall (fun o => exists t', title o = Some t' /\ str_in t' titles = true) before
  | None =>
      Forall (fun o => exists t', title o = Some t' /\ str_in t' titles = true) opts
  end.
Proof.
  induction 1 as [|o opts Ho _ IH]; simpl; [constructor|].
  destruct (title o) as [t|] eqn:Et; [|contradiction].
  destruct (str_in t titles) eqn:Es; simpl.
  - assert (Q : exists t', title o = Some t' /\ str_in t' titles = true)
      by (exists t; now split).
    destruct (pick_new opts titles) as [new|].
    + destruct IH as [before [after [t' [E [E1 [E2 F]]]]]].
      exists (o :: before), after, t'. rewrite E.
      repeat split; try assumption. now constructor.
    + now constructor.
  - exists [], opts, t. repeat split; try assumption. constructor.
Qed.

Lemma options_titled clk : Forall (fun o => title o <> None) (options clk).
Proof. repeat constructor; discriminate. Qed.

Lemma pick_new_options clk ts :
  pick_new (options clk) ts
  = if negb (str_in (str "New Data Privacy Transparency Rule") ts)
    then Some (option_privacy clk)
    else if negb (str_in (str "AI Algorithmic Accountability Act") ts)
    then Some (option_ai clk)
    else if negb (str_in (str "Digital Services Liability Standard") ts)
    then Some (option_liab clk)
    else None.
Proof. reflexivity. Qed.

(** One fetch on a readable store: every title known stays known, and the
    first of the three titles that was missing is known afterwards. *)
Lemma fetch_progress clk regs ts :
  existing_titles regs = Ok ts ->
  exists ts',
    existing_titles (store_after clk regs) = Ok ts'
    /\ (forall x, str_in x ts = true -> str_in x ts' = true)
    /\ (str_in (str "New Data Privacy Transparency Rule") ts' = true)
    /\ (str_in (str "New Data Privacy Transparency Rule") ts = true ->
        str_in (str "AI Algorithmic Accountability Act") ts' = true)
    /\ (str_in (str "New Data Privacy Transparency Rule") ts = true ->
        str_in (str "AI Algorithmic Accountability Act") ts = true ->
        str_in (str "Digital Services Liability Standard") ts' = true).
Proof.
  intros H. unfold store_after, mock_fetch_regulations. rewrite H. cbn [bind].
  rewrite pick_new_options.
  destruct (str_in (str "New Data Privacy Transparency Rule") ts) eqn:E1; cbn [negb].
  - destruct (str_in (str "AI Algorithmic Accountability Act") ts) eqn:E2; cbn [negb].
    + destruct (str_in (str "Digital Services Liability Standard") ts) eqn:E3; cbn [negb].
      * exists ts. rewrite H. repeat split; auto.
      * exists (ts ++ [str "Digital Services Liability Standard"]).
        rewrite (existing_titles_app regs ts (option_liab clk)
                   (str "Digital Services Liability Standard") H eq_refl).
        repeat split; intros; rewrite str_in_app;
          try (rewrite str_eqb_refl; apply orb_true_r);
          match goal with Hx : _ = true |- _ => now rewrite Hx end.
    + exists (ts ++ [str "AI Algorithmic Accountability Act"]).
      rewrite (existing_titles_app regs ts (option_ai clk)
                 (str "AI Algorithmic Accountability Act") H eq_refl).
      repeat split; intros; rewrite str_in_app;
        try (rewrite str_eqb_refl; apply orb_true_r);
        try congruence;
        match goal with Hx : _ = true |- _ => now rewrite Hx end.
  - exists (ts ++ [str "New Data Privacy Transparency Rule"]).
    rewrite (existing_titles_app regs ts (option_privacy clk)
               (str "New Data Privacy Transparency Rule") H eq_refl).
    repeat split; intros; rewrite str_in_app;
      try (rewrite str_eqb_refl; apply orb_true_r);
      try congruence;
      match goal with Hx : _ = true |- _ => now rewrite Hx end.
Qed.

Lemma fetch_exhausted clk regs ts :
  existing_titles regs = Ok ts ->
  str_in (str "New Data Privacy Transparency Rule") ts = true ->
  str_in (str "AI Algorithmic Accountability Act") ts = true ->
  str_in (str "Digital Services Liability Standard") ts = true ->
  mock_fetch_regulations clk regs = Ok (None, regs).
Proof.
  intros H E1 E2 E3. unfold mock_fetch_regulations. rewrite H. cbn [bind].
  rewrite pick_new_options, E1, E2, E3. reflexivity.
Qed.

End FeedFacts.

(** X19.  A call of [mock_fetch_regulations] on a readable file either
    returns a new regulation and appends exactly that one record, or
    returns None and leaves the file as it was.  The regulation returned
    is the first of the three options, in their order, whose title is not
    among the stored titles; None means all three titles are stored. *)
Theorem fetch_outcome (clk : clock) (regs regs' : list regulation)
    (ret : option regulation) :
  mock_fetch_regulations clk regs = Ok (ret, regs') ->
  exists titles,
    existing_titles regs = Ok titles
    /\ match ret with
       | Some new =>
           regs' = regs ++ [new]
           /\ exists before after t,
                options clk = before ++ new :: after
                /\ title new = Some t /\ str_in t titles = false
                /\ Forall (fun o => exists t', title o = Some t'
                                               /\ str_in t' titles = true) before
       | None =>
           regs' = regs
           /\ Forall (fun o => exists t', title o = Some t'
                                          /\ str_in t' titles = true) (options clk)
       end.
Proof.
  unfold mock_fetch_regulations. intros H.
  destruct (existing_titles regs) as [ts|] eqn:E; [|discriminate]. cbn [bind] in H.
  exists ts. split; [reflexivity|].
  pose proof (pick_new_spec (options clk) ts (options_titled clk)) as P.
  destruct (pick_new (options clk) ts) as [new|]; injection H as <- <-.
  - split; [reflexivity | exact P].
  - split; [reflexivity | exact P].
Qed.

Lemma fetch_outcome_witness :
  exists titles,
    existing_titles [sample_regulation] = Ok titles
    /\ [sample_regulation; option_privacy sample_clock]
       = [sample_regulation] ++ [option_privacy sample_clock]
    /\ exists before after t,
         options sample_clock = before ++ option_privacy sample_clock :: after
         /\ title (option_privacy sample_clock) = Some t /\ str_in t titles = false
         /\ Forall (fun o => exists t', title o = Some t'
                                        /\ str_in t' titles = true) before.
Proof.
  apply (fetch_outcome sample_clock [sample_regulation]
           [sample_regulation; option_privacy sample_clock]
           (Some (option_privacy sample_clock))).
  reflexivity.
Defined.

(** X20.  The feed runs dry: on a readable file, after any three calls the
    next call returns None and writes nothing, whatever the clock shows
    and whatever the file held before. *)
Theorem fetch_runs_dry (c1 c2 c3 c4 : clock) (regs : list regulation)
    (titles : list pystr) :
  existing_titles regs = Ok titles ->
  let store3 := store_after c3 (store_after c2 (store_after c1 regs)) in
  mock_fetch_regulations c4 store3 = Ok (None, store3).
Proof.
  intros H. cbv zeta.
  destruct (fetch_progress c1 regs titles H) as [t1 [H1 [K1 [A1 _]]]].
  destruct (fetch_progress c2 _ t1 H1) as [t2 [H2 [K2 [_ [B2 _]]]]].
  destruct (fetch_progress c3 _ t2 H2) as [t3 [H3 [K3 [_ [_ C3]]]]].
  apply (fetch_exhausted c4 _ t3 H3).
  - apply K3, K2, A1.
  - apply K3, B2, A1.
  - apply C3; [apply K2, A1 | apply B2, A1].
Qed.

Lemma fetch_runs_dry_witness :
  let store3 := store_after sample_clock
                  (store_after sample_clock (store_after sample_clock [])) in
  mock_fetch_regulations sample_clock store3 = Ok (None, store3).
Proof.
  apply (fetch_runs_dry sample_clock sample_clock sample_clock sample_clock [] []).
  reflexivity.
Defined.

(** X21.  A stored regulation without [title] makes every call of
    [mock_fetch_regulations] raise KeyError on "title", before anything
    is written. *)
Theorem fetch_raises_on_untitled (clk : clock) (regs : list regulation)
    (r : regulation) :
  In r regs -> title r = None ->
  mock_fetch_regulations clk regs = KeyError (str "title")
  /\ store_after clk regs = regs.
Proof.
  intros Hin Ht. unfold store_after, mock_fetch_regulations.
  rewrite (existing_titles_missing regs r Hin Ht). split; reflexivity.
Qed.

Lemma fetch_raises_on_untitled_witness :
  let r := Build_regulation None None None None None (Some [str "x"]) None in
  mock_fetch_regulations sample_clock [sample_regulation; r] = KeyError (str "title")
  /\ store_after sample_clock [sample_regulation; r] = [sample_regulation; r].
Proof.
  apply (fetch_raises_on_untitled sample_clock
           [sample_regulation;
            Build_regulation None None None None None (Some [str "x"]) None]
           (Build_regulation None None None None None (Some [str "x"]) None)).
  - right. left. reflexivity.
  - reflexivity.
Defined.

(* ------------------------------------------------------------------ *)
(** ** The compliance check on a mapping with distinct names *)

Section ComplianceMore.

Variable U : unicode_tables.

(** Assigning to a name that is not yet a key adds the entry at the end. *)
Lemma dict_set_fresh {V} (k : pystr) (v : V) (d : dict V) :
  ~ In k (map fst d) -> dict_set k v d = d ++ [(k, v)].
Proof.
  induction d as [|[k' v'] d IH]; intros H; simpl; [reflexivity|].
  destruct (str_eqb k k') eqn:E.
  - apply str_eqb_eq in E. exfalso. apply H. left. now symmetry.
  - rewrite IH; [reflexivity|]. intros Hin. apply H. now right.
Qed.

Lemma flagged_names clauses n :
  In n (map fst (flagged U clauses)) -> In n (map fst clauses).
Proof.
  induction clauses as [|[name v] clauses IH]; simpl; [auto|].
  unfold flagged in *. simpl. rewrite map_app, in_app_iff.
  intros [H | H]; [|right; now apply IH].
  destruct (violations U v); simpl in H; [contradiction|].
  destruct H as [<- | []]. now left.
Qed.

Lemma compliance_fold_flagged clauses :
  forall flags,
    NoDup (map fst clauses) ->
    (forall n, In n (map fst flags) -> ~ In n (map fst clauses)) ->
    fold_left (compliance_step U) clauses flags = flags ++ flagged U clauses.
Proof.
  induction clauses as [|[name v] clauses IH]; intros flags ND Hd; cbn [fold_left].
  - unfold flagged. simpl. now rewrite app_nil_r.
  - simpl in ND. inversion ND as [|? ? Hname ND']; subst.
    assert (Hfresh : ~ In name (map fst flags)).
    { intros Hin. apply (Hd name Hin). now left. }
    assert (Estep : compliance_step U flags (name, v)
                    = flags ++ match violations U v with
                               | [] => []
                               | fl => [(name, fl)]
                               end).
    { unfold compliance_step, violations.
      destruct (clause_text v) as [text|]; [|now rewrite app_nil_r].
      destruct (clause_flags U text) as [|m fl] eqn:F; simpl.
      - now rewrite app_nil_r.
      - now apply dict_set_fresh. }
    rewrite Estep, IH.
    + unfold flagged. simpl. now rewrite <- app_assoc.
    + exact ND'.
    + intros n Hin Hc. rewrite map_app, in_app_iff in Hin.
      destruct Hin as [Hin | Hin].
      * apply (Hd n Hin). now right.
      * destruct (violations U v); simpl in Hin; [contradiction|].
        destruct Hin as [<- | []]. contradiction.
Qed.

End ComplianceMore.

(** X22.  For a mapping whose clause names are distinct, as the keys of a
    dictionary are, [check_compliance] returns, in the order of the
    clauses, exactly the clauses with at least one violation, each name
    mapped to the violations of its own clause; so a name is mapped to a
    list exactly when that list is the non-empty list of violations of the
    clause of that name. *)
Theorem compliance_per_clause (U : unicode_tables) (clauses : dict clause_value) :
  NoDup (map fst clauses) ->
  check_compliance U clauses = flagged U clauses
  /\ (forall name fl,
        In (name, fl) (check_compliance U clauses)
        <-> exists v, In (name, v) clauses /\ violations U v = fl /\ fl <> []).
Proof.
  intros ND.
  assert (E : check_compliance U clauses = flagged U clauses).
  { unfold check_compliance.
    rewrite (compliance_fold_flagged U clauses [] ND); [reflexivity|].
    intros n []. }
  split; [exact E|]. intros name fl. rewrite E. unfold flagged.
  rewrite in_flat_map. split.
  - intros [[n v] [Hin Hfl]]. cbn [fst snd] in Hfl.
    destruct (violations U v) as [|m l] eqn:V; [contradiction|].
    destruct Hfl as [Hfl | []]. injection Hfl as <- <-.
    exists v. split; [exact Hin | split; [exact V | discriminate]].
  - intros [v [Hin [V Hne]]]. exists (name, v). split; [exact Hin|].
    cbn [fst snd]. rewrite V. destruct fl; [contradiction | now left].
Qed.

Lemma compliance_per_clause_witness :
  let clauses :=
    [(str "a", VText (str "Liability is unlimited."));
     (str "b", VText (str "Fine."));
     (str "c", VDict [(str "x", OStr (str "We may terminate"));
                      (str "y", OOther (str "42"))])] in
  check_compliance ascii_tables clauses = flagged ascii_tables clauses
  /\ (forall name fl,
        In (name, fl) (check_compliance ascii_tables clauses)
        <-> exists v, In (name, v) clauses /\ violations ascii_tables v = fl /\ fl <> []).
Proof.
  apply (compliance_per_clause ascii_tables
           [(str "a", VText (str "Liability is unlimited."));
            (str "b", VText (str "Fine."));
            (str "c", VDict [(str "x", OStr (str "We may terminate"));
                             (str "y", OOther (str "42"))])]).
  repeat constructor; simpl; intuition discriminate.
Defined.

(* ------------------------------------------------------------------ *)
(** ** The number of sections *)

Section SectionCount.

Variable U : unicode_tables.

Lemma seg_step_count st ln :
  length (sections (seg_step U st ln))
  <= length (sections st) + (if heading_line U ln then 1 else 0)
  /\ (heading_line U ln = false ->
      sections (seg_step U st ln) = sections st
      /\ current_heading (seg_step U st ln) = current_heading st).
Proof.
  unfold seg_step, heading_line.
  destruct (str_eqb (strip ln) []); cbn [negb andb sections current_heading].
  - split; [lia | auto].
  - destruct (re_match U HEADING_RE (strip ln)); cbn [sections current_heading].
    + split; [|discriminate].
      destruct (truthy (current_lines st) || truthy (sections st));
        [rewrite length_app; simpl; lia | lia].
    + split; [lia | auto].
Qed.

Lemma seg_fold_count lines :
  forall st,
    length (sections (fold_left (seg_step U) lines st))
    <= length (sections st) + length (filter (heading_line U) lines)
    /\ (filter (heading_line U) lines = [] ->
        sections (fold_left (seg_step U) lines st) = sections st
        /\ current_heading (fold_left (seg_step U) lines st) = current_heading st).
Proof.
  induction lines as [|ln lines IH]; intros st; cbn [fold_left filter].
  - split; [simpl; lia | auto].
  - destruct (IH (seg_step U st ln)) as [L Z].
    destruct (seg_step_count st ln) as [L1 Z1].
    destruct (heading_line U ln) eqn:Hl.
    + split; [simpl length; lia | discriminate].
    + split; [lia|]. intros E. destruct (Z E) as [E1 E2].
      destruct (Z1 eq_refl) as [E3 E4]. split; congruence.
Qed.

End SectionCount.

(** X23.  [split_into_sections] returns at most one section more than the
    text has heading lines; a text without any heading line gives exactly
    one section, headed "Preamble". *)
Theorem sections_count (U : unicode_tables) (text : pystr) :
  let lines := map rstrip (splitlines text) in
  length (split_into_sections U text) <= 1 + length (filter (heading_line U) lines)
  /\ (filter (heading_line U) lines = [] ->
      exists body, split_into_sections U text = [(Preamble, body)]).
Proof.
  cbv zeta. unfold split_into_sections.
  destruct (seg_fold_count U (map rstrip (splitlines text)) seg_init) as [L Z].
  split.
  - rewrite length_app. simpl in *. lia.
  - intros E. destruct (Z E) as [E1 E2]. rewrite E1, E2. simpl.
    now exists (strip (join NL (current_lines
             (fold_left (seg_step U) (map rstrip (splitlines text)) seg_init)))).
Qed.

(* ------------------------------------------------------------------ *)
(** ** Contract identifiers *)

Section IdFacts.

Lemma str_app s1 s2 : str (s1 ++ s2)%string = str s1 ++ str s2.
Proof. induction s1 as [|a s1 IH]; simpl; [reflexivity | now rewrite IH]. Qed.

Lemma str_inj s1 s2 : str s1 = str s2 -> s1 = s2.
Proof.
  revert s2. induction s1 as [|a s1 IH]; intros [|b s2] H; simpl in H;
    try discriminate; [reflexivity|].
  injection H as Ha Hs. f_equal; [|now apply IH].
  rewrite <- (ascii_N_embedding a), <- (ascii_N_embedding b). now rewrite Ha.
Qed.


Lemma zeros_string k u :
  str (NilEmpty.string_of_uint (zeros k u))
  = repeat 48%N k ++ str (NilEmpty.string_of_uint u).
Proof. induction k as [|k IH]; simpl; [reflexivity | now rewrite IH]. Qed.

Lemma zeros_value k u : N.of_uint (zeros k u) = N.of_uint u.
Proof. induction k as [|k IH]; simpl; [reflexivity | exact IH]. Qed.

Lemma format_03d_inj n m : format_03d n = format_03d m -> n = m.
Proof.
  unfold format_03d, str_of_N. cbv zeta. rewrite <- !zeros_string.
  intros H. apply str_inj in H.
  assert (E : Some (zeros (3 - length (str (NilEmpty.string_of_uint (N.to_uint n))))
                          (N.to_uint n))
              = Some (zeros (3 - length (str (NilEmpty.string_of_uint (N.to_uint m))))
                            (N.to_uint m))).
  { rewrite <- !NilEmpty.usu. now rewrite H. }
  injection E as E. apply (f_equal N.of_uint) in E.
  rewrite !zeros_value, !Unsigned.of_to in E. exact E.
Qed.

Lemma contract_id_inj j k : contract_id j = contract_id k -> j = k.
Proof.
  unfold contract_id. intros H. apply app_inv_head in H. now apply format_03d_inj.
Qed.

Lemma next_is_contract_id {V} (idx : dict V) :
  next_contract_id idx = contract_id (N.of_nat (length idx) + 1).
Proof. reflexivity. Qed.

End IdFacts.

(** X24.  Identifiers of [next_contract_id] tell index sizes apart: two
    indexes get the same identifier only if they have the same number of
    entries.  For an index that was only ever extended with such
    identifiers, the next identifier is not yet a key, and storing an
    entry under it keeps the index of that kind, one entry longer. *)
Theorem next_contract_id_fresh {V : Type} (idx : dict V) (meta : V) :
  (forall idx2 : dict V,
      next_contract_id idx = next_contract_id idx2 -> length idx = length idx2)
  /\ (dense idx ->
      ~ In (next_contract_id idx) (map fst idx)
      /\ dict_set (next_contract_id idx) meta idx = idx ++ [(next_contract_id idx, meta)]
      /\ dense (dict_set (next_contract_id idx) meta idx)).
Proof.
  split.
  - intros idx2 H. rewrite !next_is_contract_id in H.
    apply contract_id_inj in H. lia.
  - intros [ND Hk].
    assert (F : ~ In (next_contract_id idx) (map fst idx)).
    { intros Hin. destruct (Hk _ Hin) as [j [Hj E]].
      rewrite next_is_contract_id in E. apply contract_id_inj in E. lia. }
    assert (E : dict_set (next_contract_id idx) meta idx
                = idx ++ [(next_contract_id idx, meta)])
      by now apply dict_set_fresh.
    split; [exact F | split; [exact E|]].
    rewrite E. split.
    + rewrite map_app. simpl.
      apply NoDup_app; [exact ND | repeat constructor; intros [] |].
      intros x Hx [<- | []]. exact (F Hx).
    + intros k Hin. rewrite map_app, in_app_iff in Hin. rewrite length_app. simpl length.
      destruct Hin as [Hin | [<- | []]].
      * destruct (Hk k Hin) as [j [Hj Ej]]. exists j. split; [lia | exact Ej].
      * exists (N.of_nat (length idx) + 1)%N. split; [lia | reflexivity].
Qed.

Lemma next_contract_id_fresh_witness :
  let idx := [(contract_id 1, 7); (contract_id 2, 8)] in
  ~ In (next_contract_id idx) (map fst idx)
  /\ dict_set (next_contract_id idx) 9 idx = idx ++ [(next_contract_id idx, 9)]
  /\ dense (dict_set (next_contract_id idx) 9 idx).
Proof.
  destruct (next_contract_id_fresh [(contract_id 1, 7); (contract_id 2, 8)] 9)
    as [_ H].
  apply H. split.
  - repeat constructor; simpl; intuition discriminate.
  - intros k [<- | [<- | []]].
    + exists 1%N. split; [simpl; lia | reflexivity].
    + exists 2%N. split; [simpl; lia | reflexivity].
Defined.

(* ------------------------------------------------------------------ *)
(** ** Extracting twice *)

Section ExtractTwice.

Local Open Scope Z_scope.

(** The scan returns exactly when its counter closes a block. *)
Lemma scan_none_closes text :
  forall rest i brace start,
    0 <= i -> 0 <= brace -> (0 < brace -> start <> -1) ->
    (scan_braces text rest i brace start = None
     <-> closes (Z.to_nat brace) rest = false).
Proof.
  induction rest as [|c rest IH]; intros i brace start Hi Hb Hs; simpl.
  - split; reflexivity.
  - destruct (N.eqb c 123).
    + replace (S (Z.to_nat brace)) with (Z.to_nat (brace + 1)) by lia.
      apply IH; [lia | lia |]. intros _.
      destruct (Z.eqb_spec brace 0); [lia | apply Hs; lia].
    + destruct (N.eqb c 125).
      * destruct (Z.ltb_spec 0 brace) as [Hpos | Hle].
        -- assert (Hst : (start =? -1) = false) by (apply Z.eqb_neq, Hs, Hpos).
           rewrite Hst. simpl negb. rewrite andb_true_r.
           destruct (Z.eqb_spec (brace - 1) 0) as [E | E].
           ++ replace (Z.to_nat brace) with 1%nat by lia. split; discriminate.
           ++ destruct (Z.to_nat brace) as [|[|d]] eqn:En; try lia.
              replace (S d) with (Z.to_nat (brace - 1)) by lia.
              apply IH; [lia | lia | intros _; apply Hs; lia].
        -- replace (Z.to_nat brace) with 0%nat by lia.
           replace brace with 0 by lia. apply IH; [lia | lia | lia].
      * apply IH; [lia | exact Hb | exact Hs].
Qed.

Lemma extract_fallback_iff text :
  scan_braces text text 0 0 (-1) = None <-> closes 0 text = false.
Proof. apply (scan_none_closes text text 0 0 (-1)); lia. Qed.

(** Characters that are not braces do not move the counter. *)
Lemma closes_skip st ws l :
  forallb (fun c => negb (is_brace c)) ws = true -> closes st (ws ++ l) = closes st l.
Proof.
  induction ws as [|c ws IH]; intros H; [reflexivity|]. simpl in *.
  apply andb_true_iff in H as [Hc Hw]. unfold is_brace in Hc.
  apply negb_true_iff, orb_false_iff in Hc as [H1 H2]. rewrite H1, H2. now apply IH.
Qed.

Lemma closes_skip_end ws :
  forallb (fun c => negb (is_brace c)) ws = true ->
  forall l st, closes st (l ++ ws) = closes st l.
Proof.
  intros H. induction l as [|c l IH]; intros st.
  - simpl. rewrite <- (app_nil_r ws). rewrite closes_skip by exact H. reflexivity.
  - simpl. destruct (N.eqb c 123); [apply IH|].
    destruct (N.eqb c 125); [|apply IH].
    destruct st as [|[|d]]; [apply IH | reflexivity | apply IH].
Qed.

Lemma space_not_brace ws :
  forallb isspace ws = true -> forallb (fun c => negb (is_brace c)) ws = true.
Proof.
  induction ws as [|c ws IH]; simpl; [reflexivity|].
  intros H. apply andb_true_iff in H as [Hc Hw]. rewrite (IH Hw), andb_true_r.
  unfold is_brace.
  destruct (N.eqb_spec c 123) as [-> | _]; [discriminate Hc|].
  destruct (N.eqb_spec c 125) as [-> | _]; [discriminate Hc | reflexivity].
Qed.

Lemma strip_split_spaces s :
  exists ws1 ws2, s = ws1 ++ strip s ++ ws2
                  /\ forallb isspace ws1 = true /\ forallb isspace ws2 = true.
Proof.
  destruct (dropwhile_split isspace s) as [ws1 [E1 F1]].
  destruct (rstrip_split (lstrip s)) as [ws2 [E2 F2]].
  exists ws1, ws2. unfold strip. fold (lstrip s) in E1.
  split; [now rewrite <- E2 | split; assumption].
Qed.

Lemma closes_strip s : closes 0 (strip s) = closes 0 s.
Proof.
  destruct (strip_split_spaces s) as [ws1 [ws2 [E [F1 F2]]]].
  rewrite E at 2.
  rewrite closes_skip by now apply space_not_brace.
  rewrite closes_skip_end by now apply space_not_brace. reflexivity.
Qed.

(** Removing the fences drops no brace. *)
Lemma closes_remove_fences s :
  forall skip st,
    forallb (fun c => negb (is_brace c)) (firstn skip s) = true ->
    closes st (remove_fences skip s) = closes st s.
Proof.
  induction s as [|c s IH]; intros skip st H; [destruct skip; reflexivity|].
  destruct skip as [|k].
  - cbn [remove_fences].
    destruct (startswith (c :: s) (str "```json")) eqn:F1.
    + apply startswith_spec in F1 as [b E]. injection E as -> ->.
      rewrite IH by reflexivity. reflexivity.
    + destruct (startswith (c :: s) (str "```")) eqn:F2.
      * apply startswith_spec in F2 as [b E]. injection E as -> ->.
        rewrite IH by reflexivity. reflexivity.
      * simpl. destruct (N.eqb c 123); [now apply IH|].
        destruct (N.eqb c 125); [|now apply IH].
        destruct st as [|[|d]]; [now apply IH | reflexivity | now apply IH].
  - cbn [remove_fences]. simpl in H. apply andb_true_iff in H as [Hc Hk].
    rewrite (IH k st Hk).
    unfold is_brace in Hc. apply negb_true_iff, orb_false_iff in Hc as [H1 H2].
    simpl. now rewrite H1, H2.
Qed.

(** What is left has no fence. *)
Lemma sw_cons x s y p : startswith (x :: s) (y :: p) = N.eqb y x && startswith s p.
Proof. reflexivity. Qed.

Lemma sw_other x s p : N.eqb 96 x = false -> startswith (x :: s) (96%N :: p) = false.
Proof. intros H. now rewrite sw_cons, H. Qed.

Lemma sw_short x s p :
  startswith s (str "`") = false -> startswith (x :: s) (96%N :: 96%N :: p) = false.
Proof.
  intros H. rewrite sw_cons. destruct s as [|y s]; [now rewrite andb_false_r|].
  change (str "`") with [96%N] in H. rewrite sw_cons in H. rewrite sw_cons.
  cbn [startswith] in H. rewrite andb_true_r in H. rewrite H. now rewrite andb_false_r.
Qed.

Lemma kept_no_backquote s :
  startswith s (str "`") = false -> startswith (remove_fences 0 s) (str "`") = false.
Proof.
  destruct s as [|x s]; [reflexivity|]. intros H. cbn [remove_fences].
  assert (Hx : N.eqb 96 x = false).
  { change (str "`") with [96%N] in H. rewrite sw_cons in H.
    cbn [startswith] in H. now rewrite andb_true_r in H. }
  change (str "```json") with (96%N :: str "``json").
  change (str "```") with (96%N :: str "``").
  rewrite !(sw_other x s) by exact Hx.
  change (str "`") with [96%N]. now apply sw_other.
Qed.

Lemma kept_no_two_backquotes s :
  startswith s (str "``") = false -> startswith (remove_fences 0 s) (str "``") = false.
Proof.
  destruct s as [|x s]; [reflexivity|]. intros H. cbn [remove_fences].
  destruct (N.eqb_spec 96 x) as [<- | Hx].
  - assert (Hs : startswith s (str "`") = false).
    { change (str "``") with (96%N :: str "`") in H. rewrite sw_cons in H. exact H. }
    change (str "```json") with (96%N :: 96%N :: str "`json").
    change (str "```") with (96%N :: 96%N :: str "`").
    rewrite !(sw_short 96%N s) by exact Hs.
    change (str "``") with (96%N :: str "`"). rewrite sw_cons.
    rewrite (kept_no_backquote s Hs). reflexivity.
  - assert (E : N.eqb 96 x = false) by now apply N.eqb_neq.
    change (str "```json") with (96%N :: str "``json").
    change (str "```") with (96%N :: str "``").
    rewrite !(sw_other x s) by exact E.
    change (str "``") with (96%N :: str "`"). now apply sw_other.
Qed.

Lemma remove_fences_free s :
  forall skip, contains (remove_fences skip s) FENCE = false.
Proof.
  induction s as [|c s IH]; intros skip; [destruct skip; reflexivity|].
  destruct skip as [|k]; cbn [remove_fences]; [|apply IH].
  destruct (startswith (c :: s) (str "```json")); [apply IH|].
  destruct (startswith (c :: s) (str "```")) eqn:F; [apply IH|].
  cbn [contains]. rewrite IH, orb_false_r.
  change (startswith (c :: remove_fences 0 s) FENCE)
    with (N.eqb 96 c && startswith (remove_fences 0 s) (str "``")).
  destruct (N.eqb_spec 96 c) as [<- | _]; [|reflexivity]. cbn [andb].
  apply kept_no_two_backquotes. exact F.
Qed.

Lemma remove_fences_id s : contains s FENCE = false -> remove_fences 0 s = s.
Proof.
  induction s as [|c s IH]; intros H; [reflexivity|].
  cbn [contains] in H. apply orb_false_iff in H as [H1 H2].
  cbn [remove_fences].
  replace (startswith (c :: s) (str "```json")) with false.
  2:{ symmetry. destruct (startswith (c :: s) (str "```json")) eqn:F; [|reflexivity].
      apply startswith_spec in F as [b E].
      assert (startswith (c :: s) FENCE = true); [|congruence].
      apply startswith_spec. exists (str "json" ++ b). rewrite E. reflexivity. }
  unfold FENCE in H1. rewrite H1. now rewrite (IH H2).
Qed.

Lemma contains_part s a t b :
  s = a ++ t ++ b -> contains s FENCE = false -> contains t FENCE = false.
Proof.
  intros E H. destruct (contains t FENCE) eqn:C; [|reflexivity].
  apply contains_spec in C as [x [y Et]].
  assert (contains s FENCE = true); [|congruence].
  apply contains_spec. exists (a ++ x), (y ++ b). rewrite E, Et.
  now rewrite <- !app_assoc.
Qed.

Lemma fallback_fixed text :
  scan_braces text text 0 0 (-1) = None ->
  extract_json_block (strip (remove_fences 0 text)) = strip (remove_fences 0 text).
Proof.
  intros H. set (t := strip (remove_fences 0 text)).
  assert (Hc : closes 0 t = false).
  { unfold t. rewrite closes_strip, closes_remove_fences by reflexivity.
    now apply extract_fallback_iff. }
  apply extract_fallback_iff in Hc. unfold extract_json_block. rewrite Hc.
  destruct (strip_split (remove_fences 0 text)) as [ws1 [ws2 E]]. fold t in E.
  rewrite (remove_fences_id t).
  - apply strip_idempotent.
  - exact (contains_part _ ws1 t ws2 E (remove_fences_free text 0)).
Qed.

End ExtractTwice.

(** X25.  [extract_json_block] is idempotent: extracting again from its
    result returns that result, whether it was a brace block or the
    fence-free, stripped text. *)
Theorem extract_json_block_idempotent (text : pystr) :
  extract_json_block (extract_json_block text) = extract_json_block text.
Proof.
  destruct (scan_braces text text 0 0 (-1)) as [b|] eqn:E.
  - destruct (scan_closed_sound text text [] b eq_refl (fun H => H) E)
      as [pre [post [Ht [Hpre Hb]]]].
    assert (Hx : extract_json_block text = b)
      by (unfold extract_json_block; now rewrite E).
    rewrite Hx. unfold extract_json_block.
    now rewrite (extract_block b [] b [] (eq_sym (app_nil_r _)) (fun H => H) Hb).
  - assert (Hx : extract_json_block text = strip (remove_fences 0 text))
      by (unfold extract_json_block; now rewrite E).
    rewrite Hx. now apply fallback_fixed.
Qed.

(* ------------------------------------------------------------------ *)
(** ** The contracts a regulation affects *)

Section MonitorFacts.

Variable U : unicode_tables.
Variable read : pystr -> reading.
Variable reg : regulation.

Lemma found_nonempty text :
  (0 <? Z.of_nat (length (found_keywords U reg text)) * 2)%Z
  = existsb (fun kw => contains (lower U text) (lower U kw)) (keywords_of reg).
Proof.
  unfold found_keywords, occurs_ignoring_caseb.
  induction (keywords_of reg) as [|kw kws IH]; [reflexivity|].
  simpl. destruct (contains (lower U text) (lower U kw)); simpl.
  - apply Z.ltb_lt. lia.
  - exact IH.
Qed.

(** One entry that has its fields and can be read: reported exactly on a
    hit. *)
Lemma scan_step_complete acc e :
  complete e -> readable read e ->
  exists out,
    scan_step U read reg acc e = Return (acc ++ out)
    /\ map a_id out = (if hit U read reg e then [fst e] else [])
    /\ Forall (report_ok U read reg) out.
Proof.
  destruct e as [cid [f n v]]. unfold complete, readable, hit.
  cbn [fst snd file original_name version].
  intros [Hf [Hn Hv]] Hr.
  destruct f as [f|]; [|congruence]. destruct n as [n|]; [|congruence].
  destruct v as [v|]; [|congruence].
  unfold scan_step. cbn [file original_name version field and_then].
  destruct (read f) as [text| |err] eqn:R.
  - destruct text as [|c text].
    { exists []. rewrite app_nil_r. repeat split; constructor. }
    cbn [truthy andb]. rewrite match_result, found_nonempty.
    destruct (existsb (fun kw => contains (lower U (c :: text)) (lower U kw))
                (keywords_of reg)) eqn:Ex.
    + eexists [_]. split; [reflexivity|]. split; [reflexivity|].
      constructor; [|constructor]. unfold report_ok. cbn [a_file a_text a_matches].
      split; [exact R|]. split; [discriminate|]. split; [reflexivity|].
      rewrite <- found_nonempty in Ex. apply Z.ltb_lt in Ex.
      intros E. rewrite E in Ex. simpl in Ex. lia.
    + exists []. rewrite app_nil_r. repeat split; constructor.
  - exists []. rewrite app_nil_r. repeat split; constructor.
  - exfalso. exact (Hr f err eq_refl R).
Qed.

Lemma scan_loop_complete idx :
  forall acc,
    Forall complete idx -> Forall (readable read) idx ->
    exists out,
      scan_loop U read reg idx acc = Return (acc ++ out)
      /\ map a_id out = map fst (filter (hit U read reg) idx)
      /\ Forall (report_ok U read reg) out.
Proof.
  induction idx as [|e idx IH]; intros acc Hc Hr.
  - exists []. rewrite app_nil_r. repeat split; constructor.
  - inversion Hc as [|? ? He Hcs]; subst. inversion Hr as [|? ? Hre Hrs]; subst.
    destruct (scan_step_complete acc e He Hre) as [o1 [E1 [M1 F1]]].
    destruct (IH (acc ++ o1) Hcs Hrs) as [o2 [E2 [M2 F2]]].
    exists (o1 ++ o2). cbn [scan_loop]. rewrite E1. cbn [and_then].
    rewrite E2, <- app_assoc. split; [reflexivity|]. split.
    + rewrite map_app, M1, M2. cbn [filter].
      destruct (hit U read reg e); reflexivity.
    + apply Forall_app. split; assumption.
Qed.

(** The first entry that cannot be processed stops the scan with its
    exception; nothing is returned. *)
Lemma scan_loop_stops idx1 e idx2 acc err :
  Forall complete idx1 -> Forall (readable read) idx1 ->
  (forall acc', scan_step U read reg acc' e = Raise err) ->
  scan_loop U read reg (idx1 ++ e :: idx2) acc = Raise err.
Proof.
  revert acc. induction idx1 as [|e1 idx1 IH]; intros acc Hc Hr Hs.
  - cbn [app scan_loop]. rewrite Hs. reflexivity.
  - inversion Hc as [|? ? He Hcs]; subst. inversion Hr as [|? ? Hre Hrs]; subst.
    destruct (scan_step_complete acc e1 He Hre) as [o1 [E1 _]].
    cbn [app scan_loop]. rewrite E1. cbn [and_then]. now apply IH.
Qed.

End MonitorFacts.

(** X26.  On an index whose entries have their fields and whose stored
    files can all be read, [scan_contracts_for_regulation] returns and
    reports, in the order of the index, exactly the contracts whose stored
    text is not empty and holds the lowered form of some keyword of the
    regulation in its lowered form; each report carries the text read from
    its file and the non-empty list of the keywords found in it.  A
    regulation without keywords affects no contract. *)
Theorem scan_reports_hits (U : unicode_tables) (read : pystr -> reading)
    (reg : regulation) (index : dict index_entry) :
  Forall complete index ->
  Forall (readable read) index ->
  exists out,
    scan_contracts_for_regulation U read reg index = Return out
    /\ map a_id out = map fst (filter (hit U read reg) index)
    /\ Forall (report_ok U read reg) out
    /\ (keywords_of reg = [] -> out = []).
Proof.
  intros Hc Hr.
  destruct (scan_loop_complete U read reg index [] Hc Hr) as [out [E [M F]]].
  exists out. split; [exact E|]. split; [exact M|]. split; [exact F|].
  intros K. destruct out as [|a out]; [reflexivity|].
  inversion F as [|? ? [_ [_ [Hm Hne]]] _]; subst.
  rewrite K in Hm. simpl in Hm. contradiction.
Qed.

Lemma scan_reports_hits_witness :
  Forall complete sample_index
  /\ Forall (readable sample_files) sample_index
  /\ exists out,
      scan_contracts_for_regulation ascii_tables sample_files sample_regulation
        sample_index = Return out
      /\ map a_id out
         = map fst (filter (hit ascii_tables sample_files sample_regulation) sample_index)
      /\ Forall (report_ok ascii_tables sample_files sample_regulation) out
      /\ (keywords_of sample_regulation = [] -> out = []).
Proof.
  assert (Hc : Forall complete sample_index).
  { repeat constructor; discriminate. }
  assert (Hr : Forall (readable sample_files) sample_index).
  { repeat constructor; intros f err Hf; cbn [snd file] in Hf;
      injection Hf as <-; vm_compute; discriminate. }
  split; [exact Hc|]. split; [exact Hr|].
  exact (scan_reports_hits ascii_tables sample_files sample_regulation sample_index Hc Hr).
Defined.

(** X27.  The scan has no handler: after entries that have their fields
    and can be read, an entry without its file name makes
    [scan_contracts_for_regulation] raise KeyError('file'), and an entry
    whose stored file cannot be read makes it raise the exception of
    [read_contract_text]; in both cases whatever was found before is lost
    and the entries after it are not looked at. *)
Theorem scan_raises_on_missing_file (U : unicode_tables)
    (read : pystr -> reading) (reg : regulation)
    (before after : dict index_entry) (e : pystr * index_entry) :
  Forall complete before ->
  Forall (readable read) before ->
  (file (snd e) = None ->
   scan_contracts_for_regulation U read reg (before ++ e :: after)
   = Raise (MissingKey (str "file")))
  /\ (forall f err,
        file (snd e) = Some f -> read f = ReadRaises err ->
        scan_contracts_for_regulation U read reg (before ++ e :: after)
        = Raise (ReadFailure err)).
Proof.
  intros Hc Hr. destruct e as [cid meta]. cbn [snd]. split.
  - intros Hf. apply scan_loop_stops; [exact Hc | exact Hr |].
    intros acc. cbn [scan_step]. rewrite Hf. reflexivity.
  - intros f err Hf R. apply scan_loop_stops; [exact Hc | exact Hr |].
    intros acc. cbn [scan_step]. rewrite Hf. cbn [field and_then]. rewrite R.
    reflexivity.
Qed.

Lemma scan_raises_on_missing_file_witness :
  Forall complete sample_index
  /\ Forall (readable sample_files) sample_index
  /\ scan_contracts_for_regulation ascii_tables sample_files sample_regulation
       (sample_index ++ entry_without_file :: sample_index)
     = Raise (MissingKey (str "file"))
  /\ scan_contracts_for_regulation ascii_tables sample_files sample_regulation
       (sample_index ++ entry_with_lost_file :: sample_index)
     = Raise (ReadFailure (str "FileNotFoundError")).
Proof.
  assert (Hc : Forall complete sample_index).
  { repeat constructor; discriminate. }
  assert (Hr : Forall (readable sample_files) sample_index).
  { repeat constructor; intros f err Hf; cbn [snd file] in Hf;
      injection Hf as <-; vm_compute; discriminate. }
  split; [exact Hc|]. split; [exact Hr|]. split.
  - exact (proj1 (scan_raises_on_missing_file ascii_tables sample_files
                    sample_regulation sample_index sample_index entry_without_file
                    Hc Hr) eq_refl).
  - exact (proj2 (scan_raises_on_missing_file ascii_tables sample_files
                    sample_regulation sample_index sample_index entry_with_lost_file
                    Hc Hr)
             (str "contract_003-v1.pdf") (str "FileNotFoundError") eq_refl eq_refl).
Defined.

(* ------------------------------------------------------------------ *)
(** ** The drawing commands of save_pdf *)

Section PdfFacts.

Lemma firstn_then {A} (a b : nat) (l : list A) :
  firstn a l ++ firstn b (skipn a l) = firstn (a + b) l.
Proof.
  revert l. induction a as [|a IH]; intros l; [reflexivity|].
  destruct l as [|x l]; simpl.
  - now destruct b.
  - now rewrite IH.
Qed.

Lemma slice_chunk (l : pystr) (i : nat) :
  slice l (Z.of_nat i) (Z.of_nat i + 110) = firstn 110 (skipn i l).
Proof.
  unfold slice, index_of.
  replace (0 <=? Z.of_nat i)%Z with true by (symmetry; apply Z.leb_le; lia).
  replace (0 <=? Z.of_nat i + 110)%Z with true by (symmetry; apply Z.leb_le; lia).
  rewrite Nat2Z.id. replace (Z.to_nat (Z.of_nat i + 110)) with (i + 110)%nat by lia.
  symmetry. apply firstn_skipn_comm.
Qed.

Lemma chunks_upto (l : pystr) (m : nat) :
  concat (map (fun i => slice l (Z.of_nat i) (Z.of_nat i + 110))
              (map (fun k => (k * 110)%nat) (seq 0 m)))
  = firstn (m * 110) l.
Proof.
  induction m as [|m IH]; [reflexivity|].
  rewrite seq_S, !map_app, concat_app, IH. cbn [map concat plus].
  rewrite app_nil_r, slice_chunk, firstn_then. f_equal. lia.
Qed.

Lemma range_cover (n : nat) :
  let m := ((n + 110 - 1) / 110)%nat in
  (n <= m * 110 /\ forall k, k < m -> k * 110 < n)%nat.
Proof.
  cbv zeta.
  pose proof (Nat.div_mod_eq (n + 110 - 1) 110) as E.
  pose proof (Nat.mod_upper_bound (n + 110 - 1) 110) as B.
  split; [lia | intros k Hk; nia].
Qed.

Lemma chunks_wrapped (line : pystr) :
  (120 < length line)%nat ->
  concat (chunks line) = line
  /\ Forall (fun c => 1 <= length c <= 110)%nat (chunks line).
Proof.
  intros L. unfold chunks. apply Nat.ltb_lt in L as L'. rewrite L'.
  unfold range_step. destruct (range_cover (length line)) as [C1 C2]. split.
  - rewrite chunks_upto. now apply firstn_all2.
  - apply Forall_forall. intros c Hc. apply in_map_iff in Hc as [i [<- Hi]].
    apply in_map_iff in Hi as [k [<- Hk]]. apply in_seq in Hk.
    rewrite slice_chunk, length_firstn, length_skipn.
    assert (k * 110 < length line)%nat by (apply C2; lia). lia.
Qed.

Lemma join_split_nl (text : pystr) : join NL (split_nl text) = text.
Proof.
  induction text as [|c text IH]; [reflexivity|]. cbn [split_nl].
  destruct (N.eqb_spec c 10) as [-> | _].
  - destruct (split_nl text) as [|l ls] eqn:S.
    + destruct text; simpl in S; [discriminate|].
      destruct (N.eqb c 10); [discriminate|]. destruct (split_nl text); discriminate.
    + cbn [join]. cbn [join] in IH. rewrite IH. reflexivity.
  - destruct (split_nl text) as [|l ls] eqn:S.
    + destruct text; simpl in S; [discriminate|].
      destruct (N.eqb c0 10); [discriminate|]. destruct (split_nl text); discriminate.
    + destruct ls as [|l2 ls]; cbn [join] in IH |- *; now rewrite <- IH.
Qed.

Lemma rebuilt_lines (ls : list pystr) :
  map (fun l => concat (chunks l)) ls = ls.
Proof.
  induction ls as [|l ls IH]; [reflexivity|]. cbn [map]. rewrite IH. f_equal.
  destruct (Nat.ltb_spec 120 (length l)) as [L | L].
  - now apply chunks_wrapped.
  - unfold chunks. apply Nat.ltb_ge in L. rewrite L. simpl. apply app_nil_r.
Qed.

Variable height : Z.
Hypothesis tall : (134 <= height)%Z.
Variable footer : option pystr.

Lemma strings_where_app p a b :
  strings_where p (a ++ b) = strings_where p a ++ strings_where p b.
Proof. apply flat_map_app. Qed.

Ltac placed_all :=
  repeat (apply Forall_cons || apply Forall_nil); simpl;
  try exact I; try (split; [reflexivity | lia]).

Lemma footer_placed restore : Forall (placed height) (footer_ops footer restore).
Proof.
  unfold footer_ops. destruct footer as [f|]; [|constructor].
  destruct (truthy f); [|constructor].
  destruct restore; placed_all.
Qed.

Lemma footer_above restore : strings_where above (footer_ops footer restore) = [].
Proof.
  unfold footer_ops. destruct footer as [f|]; [|reflexivity].
  destruct (truthy f); [|reflexivity]. destruct restore; reflexivity.
Qed.

Lemma footer_below restore :
  strings_where below (footer_ops footer restore) = given footer.
Proof.
  unfold footer_ops, given. destruct footer as [f|]; [|reflexivity].
  destruct (truthy f); [|reflexivity]. destruct restore; reflexivity.
Qed.

Lemma footer_no_save restore : ~ In Save (footer_ops footer restore).
Proof.
  unfold footer_ops. destruct footer as [f|]; [|intros []].
  destruct (truthy f); [|intros []].
  destruct restore; simpl; intuition discriminate.
Qed.

Lemma draw_chunk_inv body st chunk :
  drawn_inv height footer body st -> drawn_inv height footer (body ++ [chunk]) (draw_chunk height footer st chunk).
Proof.
  destruct st as [y out]. unfold drawn_inv. cbn [fst snd].
  intros [Hy [Hp [Ha [Hb Hs]]]]. unfold draw_chunk.
  assert (Ay : above y = true) by (unfold above; apply Z.leb_le; lia).
  assert (By : below y = false) by (unfold below; apply Z.ltb_ge; lia).
  assert (P1 : Forall (placed height) (out ++ [DrawString 50 y chunk])).
  { apply Forall_app. split; [exact Hp | placed_all]. }
  assert (A1 : strings_where above (out ++ [DrawString 50 y chunk]) = body ++ [chunk]).
  { rewrite strings_where_app, Ha. unfold strings_where at 1. cbn [flat_map].
    rewrite Ay. reflexivity. }
  assert (B1 : strings_where below (out ++ [DrawString 50 y chunk])
               = strings_where below out).
  { rewrite strings_where_app. unfold strings_where at 2. cbn [flat_map].
    rewrite By. now rewrite !app_nil_r. }
  assert (S1 : ~ In Save (out ++ [DrawString 50 y chunk])).
  { rewrite in_app_iff. simpl. intuition discriminate. }
  destruct (Z.ltb_spec (y - 14) 60) as [L | L]; cbn [fst snd].
  - unfold top_margin. split; [lia|]. split.
    + apply Forall_app. split; [exact P1|]. apply Forall_app. split.
      * apply footer_placed.
      * placed_all.
    + split.
      * rewrite (strings_where_app above (out ++ [DrawString 50 y chunk])), A1.
        rewrite strings_where_app, footer_above. simpl. now rewrite app_nil_r.
      * split.
        -- rewrite (strings_where_app below (out ++ [DrawString 50 y chunk])), B1.
           rewrite strings_where_app, footer_below. simpl. rewrite app_nil_r.
           apply incl_app; [exact Hb | apply incl_refl].
        -- intros H. apply in_app_or in H as [H | H]; [exact (S1 H)|].
           apply in_app_or in H as [H | H]; [exact (footer_no_save true H)|].
           simpl in H. intuition discriminate.
  - split; [lia|]. split; [exact P1|]. split; [exact A1|].
    split; [now rewrite B1 | exact S1].
Qed.

Lemma draw_chunks_inv cs :
  forall body st,
    drawn_inv height footer body st -> drawn_inv height footer (body ++ cs) (fold_left (draw_chunk height footer) cs st).
Proof.
  induction cs as [|c cs IH]; intros body st H; cbn [fold_left].
  - now rewrite app_nil_r.
  - replace (body ++ c :: cs) with ((body ++ [c]) ++ cs) by now rewrite <- app_assoc.
    apply IH. now apply draw_chunk_inv.
Qed.

Lemma draw_lines_inv ls :
  forall body st,
    drawn_inv height footer body st ->
    drawn_inv height footer (body ++ flat_map chunks ls) (fold_left (draw_line height footer) ls st).
Proof.
  induction ls as [|l ls IH]; intros body st H; cbn [fold_left flat_map].
  - now rewrite app_nil_r.
  - rewrite app_assoc. apply IH. unfold draw_line. now apply draw_chunks_inv.
Qed.

Lemma title_inv title :
  drawn_inv height footer (given title)
    (fst (title_ops title (top_margin height)),
     snd (title_ops title (top_margin height)) ++ [SetFont "Helvetica" 10]).
Proof.
  unfold drawn_inv, title_ops, given, top_margin. cbn [fst snd].
  assert (Ay : above (height - 50) = true) by (unfold above; apply Z.leb_le; lia).
  assert (By : below (height - 50) = false) by (unfold below; apply Z.ltb_ge; lia).
  destruct title as [t|]; [destruct (truthy t)|]; cbn [fst snd app].
  - split; [lia|]. split; [placed_all|].
    unfold strings_where. cbn [flat_map]. rewrite Ay, By. cbn [app].
    split; [reflexivity|]. split; [intros x []|]. simpl. intuition discriminate.
  - split; [lia|]. split; [placed_all|].
    split; [reflexivity|]. split; [intros x []|]. simpl. intuition discriminate.
  - split; [lia|]. split; [placed_all|].
    split; [reflexivity|]. split; [intros x []|]. simpl. intuition discriminate.
Qed.

Lemma save_pdf_inv text title :
  let ops := save_pdf height text title footer in
  Forall (placed height) ops
  /\ strings_where above ops = given title ++ flat_map chunks (split_nl text)
  /\ incl (strings_where below ops) (given footer)
  /\ exists pre, ops = pre ++ [Save] /\ ~ In Save pre.
Proof.
  cbv zeta. unfold save_pdf.
  pose proof (title_inv title) as T.
  destruct (title_ops title (top_margin height)) as [y0 out0]. cbn [fst snd] in T.
  pose proof (draw_lines_inv (split_nl text) _ _ T) as D.
  destruct (fold_left (draw_line height footer) (split_nl text)
              (y0, out0 ++ [SetFont "Helvetica" 10])) as [y out].
  destruct D as [_ [Hp [Ha [Hb Hs]]]]. cbn [fst snd] in Hp, Ha, Hb, Hs.
  split; [|split; [|split]].
  - apply Forall_app. split; [exact Hp|]. apply Forall_app. split.
    + apply footer_placed.
    + placed_all.
  - rewrite !strings_where_app, Ha, footer_above. simpl. now rewrite app_nil_r.
  - rewrite !strings_where_app, footer_below. simpl. rewrite app_nil_r.
    apply incl_app; [exact Hb | apply incl_refl].
  - exists (out ++ footer_ops footer false). split; [now rewrite <- app_assoc|].
    rewrite in_app_iff. intros [H | H]; [exact (Hs H) | exact (footer_no_save false H)].
Qed.

End PdfFacts.

(** X28.  The word wrap of [save_pdf] loses nothing: the chunks of a line
    put together give the line, so the lines rebuilt from their chunks and
    joined by newlines give the text.  A line always has a chunk, no chunk
    is longer than 120 characters, and the chunks of a line longer than
    that have 1 to 110 characters each. *)
Theorem wrap_keeps_text (text : pystr) :
  join NL (map (fun line => concat (chunks line)) (split_nl text)) = text
  /\ forall line,
       concat (chunks line) = line
       /\ chunks line <> []
       /\ Forall (fun c => length c <= 120)%nat (chunks line)
       /\ ((120 < length line)%nat ->
           Forall (fun c => 1 <= length c <= 110)%nat (chunks line)).
Proof.
  split.
  - rewrite rebuilt_lines. apply join_split_nl.
  - intros line. destruct (Nat.ltb_spec 120 (length line)) as [L | L].
    + destruct (chunks_wrapped line L) as [C F]. split; [exact C|]. split.
      * intros E. rewrite E in C. simpl in C. rewrite <- C in L. simpl in L. lia.
      * split; [|intros _; exact F].
        eapply Forall_impl; [|exact F]. simpl. intros c Hc. lia.
    + unfold chunks. apply Nat.ltb_ge in L as L'. rewrite L'.
      split; [apply app_nil_r|]. split; [discriminate|].
      split; [constructor; [exact L | constructor] | intros H; exfalso; lia].
Qed.

(** X29.  On a page at least 134 points high, [save_pdf] draws above the
    bottom limit the title, when one is given, and then the chunks of the
    lines of the text, in order, and nothing else; every string is drawn
    at x = 50, either on the footer line y = 40 or between y = 60 and the
    top margin; the strings on the footer line are the footer; the document
    is saved once, as the last call. *)
Theorem save_pdf_trace (height : Z) (text : pystr) (title footer : option pystr) :
  (134 <= height)%Z ->
  let ops := save_pdf height text title footer in
  Forall (placed height) ops
  /\ strings_where above ops
     = given title ++ flat_map chunks (split_nl text)
  /\ incl (strings_where below ops) (given footer)
  /\ exists pre, ops = pre ++ [Save] /\ ~ In Save pre.
Proof. intros H. exact (save_pdf_inv height H footer text title). Qed.

Lemma save_pdf_trace_witness :
  let ops := save_pdf 792 (str "Terms") (Some (str "a.txt")) (Some (str "v1")) in
  (134 <= 792)%Z
  /\ Forall (placed 792) ops
  /\ strings_where above ops
     = given (Some (str "a.txt")) ++ flat_map chunks (split_nl (str "Terms"))
  /\ incl (strings_where below ops) (given (Some (str "v1")))
  /\ exists pre, ops = pre ++ [Save] /\ ~ In Save pre.
Proof.
  cbv zeta. assert (H : (134 <= 792)%Z) by lia. split; [exact H|].
  exact (save_pdf_trace 792 (str "Terms") (Some (str "a.txt")) (Some (str "v1")) H).
Defined.
